(** * StreamBot: the playback queue of [src/index.ts]

    A shallow embedding of the queue orchestrator of the bot: the two
    queues [videoQueue] and [originalQueue], the consumption loop
    [playQueue], the cancellable playback [playVideoWithConnection], the
    command handlers [add], [batch], [remove], [loop] and [stop], and the
    handler of [messageCreate], which reads a message into one of them.

    The program is asynchronous JavaScript on one event loop.  Code between
    two [await]s runs without interruption; at an [await] the function is
    suspended and any other handler may run.  The embedding keeps the
    module-level variables in a record, and the suspended functions in a
    pool of tasks, each standing at the [await] it is blocked on.  A step
    either runs the synchronous prefix of a command handler, or resumes one
    suspended task with the outcome of the call it was waiting for and runs
    it up to its next [await].

    Queue items are JavaScript objects shared by both queues, so the queues
    hold addresses into a store of items and [next.link = localPath] is an
    update of that store.  The uids drawn by [generateUID] are part of the
    commands: nothing makes them distinct.

    The external calls that the program itself guards are fallible here:
    [joinVoice], [createStream], [preDownloadVideo],
    [streamLivestreamVideo], and the two messages that
    [playVideoWithConnection] sends, whose failure makes it throw into the
    [catch] around its call in [playQueue].  The replies of the handlers,
    presence updates, [leaveVoice] and timers are suspension points that
    return.  The steps of the program are those of the five commands of
    the queue.  The handler of messages recognises
    the other commands as well: [list] is the listing of [videoQueue];
    [help] and [download] do not touch the variables of the loop and go no
    further here; nor does [random], which plays one file through
    [playVideoWithConnection] outside the queue: in this embedding only
    [playQueue] acquires the session and starts playbacks.

    A JavaScript string is a sequence of code units.  The handler of
    messages is embedded on the strings whose code units are below 256,
    which are the characters of [string]: on these, white space, lower
    case and the regular expressions of the handler are as defined here.
    The numbers that [Math.random] and [Date.now] return are arguments of
    the functions that use them.

    The file has three parts: the program, the vocabulary of its
    properties, and the lemmas and theorems. *)

From Stdlib Require String.
From stdpp Require Import base option list strings pretty.

(** * Part I: the program *)

(** ** Data *)

(** [{ uid: string, link: string }] *)
Record item := Item { uid : string; link : string }.

#[global] Instance item_eq_dec : EqDecision item.
Proof. solve_decision. Defined.

(** An address of an item object. *)
Abbreviation addr := nat.

(** The state of a [PCancelable]. *)
Inductive pstatus := Pending | Canceled | Settled.

#[global] Instance pstatus_eq_dec : EqDecision pstatus.
Proof. solve_decision. Defined.

(** The two callers of [cleanupStreamStatus]. *)
Inductive caller := FromStop | FromPlayQueue.

#[global] Instance caller_eq_dec : EqDecision caller.
Proof. solve_decision. Defined.

(** A suspended function, named by the [await] it stands at.  The [Q]
    tasks and the [Cleanup] tasks of [FromPlayQueue] are one invocation of
    [playQueue]. *)
Inductive task :=
  | AddReply                         (* add, batch: await sendSuccess(...) *)
  | QJoin                            (* await streamer.joinVoice(...) *)
  | QCreate (viaJoin : bool)         (* await streamer.createStream(...) *)
  | QFetch (next : addr)             (* await preDownloadVideo(next.link) *)
  | QAnnounce (next : addr) (video : string)
                                     (* await sendPlain(.., Now Playing) *)
  | QPlayback (next : addr) (p : nat)(* await currentPlayback *)
  | QFinished (next : addr)          (* await sendPlain(.., Finished) *)
  | QCooldown                        (* await setTimeout 1000 *)
  | CleanupLeave (c : caller)        (* await streamer.leaveVoice() *)
  | CleanupDelay (c : caller).       (* await setTimeout 500 *)

#[global] Instance task_eq_dec : EqDecision task.
Proof. solve_decision. Defined.

(** Calls that leave the program, in the order they are issued. *)
Inductive event :=
  | EvJoinVoice
  | EvCreateStream
  | EvLeaveVoice
  | EvPreDownload (l : string)
  | EvStream (l : string)            (* streamLivestreamVideo(video, udpConn) *)
  | EvNowPlaying (u : string)
  | EvFinished
  | EvAdded (u l : string)
  | EvBatchAdded (n : nat)
  | EvRemoved (u l : string)
  | EvNotFound (u : string)
  | EvLoop (b : bool)
  | EvStopped
  | EvError (msg : string)
  | EvLogInfo (msg : string)
  | EvLogError (msg : string).

#[global] Instance event_eq_dec : EqDecision event.
Proof. solve_decision. Defined.

(** The module-level variables, the store of item objects, the promises,
    the pool of suspended functions and the trace of external calls. *)
Record state := State {
  videoQueue : list addr;
  originalQueue : list addr;
  heap : list item;
  loopEnabled : bool;
  isPlayingQueue : bool;
  stopRequested : bool;
  joined : bool;           (* streamStatus.joined *)
  joinsucc : bool;         (* streamStatus.joinsucc *)
  playing : bool;          (* streamStatus.playing *)
  currentPlayback : option nat;
  promises : list pstatus;
  speaking : bool;         (* mediaConnection.setSpeaking *)
  videoStatus : bool;      (* mediaConnection.setVideoStatus *)
  tasks : list task;
  log : list event
}.

(** The variables as the module initialises them. *)
Definition init : state :=
  {| videoQueue := []; originalQueue := []; heap := [];
     loopEnabled := false; isPlayingQueue := false; stopRequested := false;
     joined := false; joinsucc := false; playing := false;
     currentPlayback := None; promises := [];
     speaking := false; videoStatus := false;
     tasks := []; log := [] |}.

(** Field updates. *)
Definition set_videoQueue (v : list addr) (s : state) : state :=
  {| videoQueue := v; originalQueue := originalQueue s; heap := heap s;
     loopEnabled := loopEnabled s; isPlayingQueue := isPlayingQueue s;
     stopRequested := stopRequested s; joined := joined s;
     joinsucc := joinsucc s; playing := playing s;
     currentPlayback := currentPlayback s; promises := promises s;
     speaking := speaking s; videoStatus := videoStatus s;
     tasks := tasks s; log := log s |}.

Definition set_originalQueue (v : list addr) (s : state) : state :=
  {| videoQueue := videoQueue s; originalQueue := v; heap := heap s;
     loopEnabled := loopEnabled s; isPlayingQueue := isPlayingQueue s;
     stopRequested := stopRequested s; joined := joined s;
     joinsucc := joinsucc s; playing := playing s;
     currentPlayback := currentPlayback s; promises := promises s;
     speaking := speaking s; videoStatus := videoStatus s;
     tasks := tasks s; log := log s |}.

Definition set_heap (v : list item) (s : state) : state :=
  {| videoQueue := videoQueue s; originalQueue := originalQueue s; heap := v;
     loopEnabled := loopEnabled s; isPlayingQueue := isPlayingQueue s;
     stopRequested := stopRequested s; joined := joined s;
     joinsucc := joinsucc s; playing := playing s;
     currentPlayback := currentPlayback s; promises := promises s;
     speaking := speaking s; videoStatus := videoStatus s;
     tasks := tasks s; log := log s |}.

Definition set_loopEnabled (v : bool) (s : state) : state :=
  {| videoQueue := videoQueue s; originalQueue := originalQueue s;
     heap := heap s;
     loopEnabled := v; isPlayingQueue := isPlayingQueue s;
     stopRequested := stopRequested s; joined := joined s;
     joinsucc := joinsucc s; playing := playing s;
     currentPlayback := currentPlayback s; promises := promises s;
     speaking := speaking s; videoStatus := videoStatus s;
     tasks := tasks s; log := log s |}.

Definition set_isPlayingQueue (v : bool) (s : state) : state :=
  {| videoQueue := videoQueue s; originalQueue := originalQueue s;
     heap := heap s;
     loopEnabled := loopEnabled s; isPlayingQueue := v;
     stopRequested := stopRequested s; joined := joined s;
     joinsucc := joinsucc s; playing := playing s;
     currentPlayback := currentPlayback s; promises := promises s;
     speaking := speaking s; videoStatus := videoStatus s;
     tasks := tasks s; log := log s |}.

Definition set_stopRequested (v : bool) (s : state) : state :=
  {| videoQueue := videoQueue s; originalQueue := originalQueue s;
     heap := heap s;
     loopEnabled := loopEnabled s; isPlayingQueue := isPlayingQueue s;
     stopRequested := v; joined := joined s;
     joinsucc := joinsucc s; playing := playing s;
     currentPlayback := currentPlayback s; promises := promises s;
     speaking := speaking s; videoStatus := videoStatus s;
     tasks := tasks s; log := log s |}.

Definition set_streamStatus (j js p : bool) (s : state) : state :=
  {| videoQueue := videoQueue s; originalQueue := originalQueue s;
     heap := heap s;
     loopEnabled := loopEnabled s; isPlayingQueue := isPlayingQueue s;
     stopRequested := stopRequested s; joined := j;
     joinsucc := js; playing := p;
     currentPlayback := currentPlayback s; promises := promises s;
     speaking := speaking s; videoStatus := videoStatus s;
     tasks := tasks s; log := log s |}.

Definition set_currentPlayback (v : option nat) (s : state) : state :=
  {| videoQueue := videoQueue s; originalQueue := originalQueue s;
     heap := heap s;
     loopEnabled := loopEnabled s; isPlayingQueue := isPlayingQueue s;
     stopRequested := stopRequested s; joined := joined s;
     joinsucc := joinsucc s; playing := playing s;
     currentPlayback := v; promises := promises s;
     speaking := speaking s; videoStatus := videoStatus s;
     tasks := tasks s; log := log s |}.

Definition set_promises (v : list pstatus) (s : state) : state :=
  {| videoQueue := videoQueue s; originalQueue := originalQueue s;
     heap := heap s;
     loopEnabled := loopEnabled s; isPlayingQueue := isPlayingQueue s;
     stopRequested := stopRequested s; joined := joined s;
     joinsucc := joinsucc s; playing := playing s;
     currentPlayback := currentPlayback s; promises := v;
     speaking := speaking s; videoStatus := videoStatus s;
     tasks := tasks s; log := log s |}.

Definition set_indicators (v : bool) (s : state) : state :=
  {| videoQueue := videoQueue s; originalQueue := originalQueue s;
     heap := heap s;
     loopEnabled := loopEnabled s; isPlayingQueue := isPlayingQueue s;
     stopRequested := stopRequested s; joined := joined s;
     joinsucc := joinsucc s; playing := playing s;
     currentPlayback := currentPlayback s; promises := promises s;
     speaking := v; videoStatus := v;
     tasks := tasks s; log := log s |}.

Definition set_tasks (v : list task) (s : state) : state :=
  {| videoQueue := videoQueue s; originalQueue := originalQueue s;
     heap := heap s;
     loopEnabled := loopEnabled s; isPlayingQueue := isPlayingQueue s;
     stopRequested := stopRequested s; joined := joined s;
     joinsucc := joinsucc s; playing := playing s;
     currentPlayback := currentPlayback s; promises := promises s;
     speaking := speaking s; videoStatus := videoStatus s;
     tasks := v; log := log s |}.

(** An external call is issued: it is appended to the trace. *)
Definition emit (e : event) (s : state) : state :=
  {| videoQueue := videoQueue s; originalQueue := originalQueue s;
     heap := heap s;
     loopEnabled := loopEnabled s; isPlayingQueue := isPlayingQueue s;
     stopRequested := stopRequested s; joined := joined s;
     joinsucc := joinsucc s; playing := playing s;
     currentPlayback := currentPlayback s; promises := promises s;
     speaking := speaking s; videoStatus := videoStatus s;
     tasks := tasks s; log := log s ++ [e] |}.

Definition spawn (t : task) (s : state) : state :=
  set_tasks (tasks s ++ [t]) s.

(** ** Item objects *)

(** [item.uid] and [item.link] of the object at an address. *)
Definition uid_of (h : list item) (a : addr) : string :=
  match h !! a with Some it => uid it | None => "" end.

Definition link_of (h : list item) (a : addr) : string :=
  match h !! a with Some it => link it | None => "" end.

(** [next.link = localPath] *)
Definition set_link (a : addr) (l : string) (h : list item) : list item :=
  match h !! a with
  | Some it => <[a := Item (uid it) l]> h
  | None => h
  end.

(** [link.startsWith("http")] *)
Definition startsWith_http (l : string) : bool := String.prefix "http" l.

(** ** The consumption loop *)

(** The outcome of an awaited call. *)
Inductive outcome := Resolved (v : string) | Rejected.

(** What a function does when it runs: the new variables, and the [await]
    it stops at, or [None] when it returns. *)
Definition continuation : Type := state * option task.

(** [cleanupStreamStatus], up to [await streamer.leaveVoice()]. *)
Definition cleanup_start (c : caller) (s : state) : continuation :=
  (emit EvLeaveVoice s, Some (CleanupLeave c)).

(** Leaving the [while] of [playQueue]: [await cleanupStreamStatus()]. *)
Definition exit_loop (s : state) : continuation :=
  cleanup_start FromPlayQueue s.

(** [playVideoWithConnection(next.link, title, udpConn)], up to the
    [await sendPlain] of the title (the title [Queue item [uid]] is never
    empty).  The argument [video] is the link at the time of the call. *)
Definition playVideo_start (next : addr) (s : state) : continuation :=
  (emit (EvNowPlaying (uid_of (heap s) next)) (set_indicators true s),
   Some (QAnnounce next (link_of (heap s) next))).

(** [playQueue] from [if (stopRequested) break] (line 224) on. *)
Definition after_fetch (next : addr) (s : state) : continuation :=
  if stopRequested s then exit_loop s else playVideo_start next s.

(** [const next = videoQueue.shift()] with the queue [next :: rest], and
    the rest of the iteration up to its first [await]. *)
Definition pop (next : addr) (rest : list addr) (s : state) : continuation :=
  let s := set_videoQueue rest s in
  if startsWith_http (link_of (heap s) next)
  then (emit (EvPreDownload (link_of (heap s) next)) s, Some (QFetch next))
  else after_fetch next s.

(** [playQueue] from the test of [while (!stopRequested)] on.  An empty
    [videoQueue] is refilled with [originalQueue.slice()] when looping is
    on and [originalQueue] has an element; the queue that is shifted then
    has a front element, so [if (!next) continue] is never taken. *)
Definition loop_head (s : state) : continuation :=
  if stopRequested s then exit_loop s
  else match videoQueue s with
       | next :: rest => pop next rest s
       | [] =>
           if loopEnabled s
           then match originalQueue s with
                | next :: rest => pop next rest s
                | [] => exit_loop s
                end
           else exit_loop s
       end.

(** The [catch] of the session acquisition (lines 200-204). *)
Definition join_failed (s : state) : continuation :=
  (set_isPlayingQueue false (emit (EvLogError "Error joining voice channel:") s),
   None).

(** [playQueue], up to its first [await]. *)
Definition playQueue (s : state) : continuation :=
  if isPlayingQueue s then (s, None)
  else
    let s := set_stopRequested false (set_isPlayingQueue true s) in
    if joined s
    then (emit EvCreateStream s, Some (QCreate false))
    else (emit EvJoinVoice s, Some QJoin).

(** ** Cancellable playback *)

(** How the promise [currentPlayback] settles: resolved with a value, or
    rejected with a [CancelError]. *)
Inductive settlement := ResolvedWith (v : string) | RejectedCancel.

(** The executor of the [PCancelable] (lines 247-259): [cancel] rejects
    the promise; otherwise the result of [streamLivestreamVideo] resolves
    it, and its failure resolves it with ["error skipped"]. *)
Definition playback_settlement (st : pstatus) (o : outcome)
  : option settlement :=
  match st with
  | Canceled => Some RejectedCancel
  | Pending =>
      match o with
      | Resolved r => Some (ResolvedWith r)
      | Rejected => Some (ResolvedWith "error skipped")
      end
  | Settled => None
  end.

(** [PCancelable.cancel()]: only a pending promise is cancelled. *)
Definition cancel (p : nat) (ps : list pstatus) : list pstatus :=
  match ps !! p with
  | Some Pending => <[p := Canceled]> ps
  | _ => ps
  end.

(** The executor resolves the promise: a pending promise is settled, a
    cancelled one stays cancelled. *)
Definition settle (p : nat) (ps : list pstatus) : list pstatus :=
  match ps !! p with
  | Some Pending => <[p := Settled]> ps
  | _ => ps
  end.

(** The [finally] of [playVideoWithConnection], up to its [await]. *)
Definition playVideo_finally (next : addr) (s : state) : continuation :=
  (emit EvFinished (set_indicators false s), Some (QFinished next)).

(** [new PCancelable(...)]: the promise is created and stored in
    [currentPlayback], and the executor calls [streamLivestreamVideo]. *)
Definition playVideo_stream (next : addr) (video : string) (s : state)
  : continuation :=
  let p := length (promises s) in
  let s := set_currentPlayback (Some p)
             (set_promises (promises s ++ [Pending]) s) in
  (emit (EvStream video) s, Some (QPlayback next p)).

(** [const res = await currentPlayback], the [logger.info] of [res], and
    the [catch] after it, which drops a [CancelError]. *)
Definition playVideo_settled (next : addr) (p : nat) (o : outcome) (s : state)
  : option continuation :=
  st ← promises s !! p;
  r ← playback_settlement st o;
  let s := set_promises (settle p (promises s)) s in
  match r with
  | ResolvedWith res =>
      Some (playVideo_finally next
              (emit (EvLogInfo ("Finished playing video: " +:+ res)) s))
  | RejectedCancel => Some (playVideo_finally next s)
  end.

(** [playVideoWithConnection] has thrown, because one of its two messages
    could not be sent: the [catch] of lines 228-230 logs the error, and the
    cooldown of [playQueue] follows. *)
Definition playVideo_failed (s : state) : continuation :=
  (emit (EvLogError "Error playing video:") s, Some QCooldown).

(** ** Resuming a suspended function *)

(** [streamStatus.joined = true] *)
Definition set_joined (s : state) : state :=
  set_streamStatus true (joinsucc s) (playing s) s.

(** The task [t] is resumed with the outcome [o] of the call it awaits
    and runs to its next [await].  [None]: the call cannot have this
    outcome. *)
Definition run_task (t : task) (o : outcome) (s : state)
  : option continuation :=
  match t, o with
  | AddReply, Resolved _ =>
      (* if (!isPlayingQueue) playQueue().catch(...) *)
      Some (if isPlayingQueue s then (s, None) else playQueue s)
  | QJoin, Resolved _ =>
      Some (emit EvCreateStream s, Some (QCreate true))
  | QJoin, Rejected => Some (join_failed s)
  | QCreate viaJoin, Resolved _ =>
      Some (loop_head (if viaJoin then set_joined s else s))
  | QCreate _, Rejected => Some (join_failed s)
  | QFetch next, Resolved localPath =>
      Some (after_fetch next (set_heap (set_link next localPath (heap s)) s))
  | QFetch next, Rejected =>
      Some (loop_head (emit (EvLogError "Error pre-downloading video:") s))
  | QAnnounce next video, Resolved _ => Some (playVideo_stream next video s)
  | QAnnounce _ _, Rejected =>
      (* thrown at line 243, before the try: the indicators stay set *)
      Some (playVideo_failed s)
  | QPlayback next p, _ => playVideo_settled next p o s
  | QFinished next, Resolved _ =>
      (* currentPlayback = null; then the cooldown of playQueue *)
      Some (set_currentPlayback None s, Some QCooldown)
  | QFinished _, Rejected =>
      (* thrown at line 269, in the finally: currentPlayback stays set *)
      Some (playVideo_failed s)
  | QCooldown, Resolved _ => Some (loop_head s)
  | CleanupLeave c, Resolved _ =>
      Some (set_streamStatus false false false s, Some (CleanupDelay c))
  | CleanupDelay FromStop, Resolved _ => Some (emit EvStopped s, None)
  | CleanupDelay FromPlayQueue, Resolved _ =>
      Some (set_stopRequested false (set_isPlayingQueue false s), None)
  | _, Rejected => None
  end.

(** The pool after task [i] has run: it stands at its new [await], or is
    gone. *)
Definition reschedule (i : nat) (k : option task) (ts : list task)
  : list task :=
  match k with
  | Some t => <[i := t]> ts
  | None => delete i ts
  end.

(** Task [i] of the pool is resumed with the outcome [o]. *)
Definition resume (i : nat) (o : outcome) (s : state) : option state :=
  t ← tasks s !! i;
  '(s', k) ← run_task t o s;
  Some (set_tasks (reschedule i k (tasks s')) s').

(** ** Command handlers *)

(** The commands, with what the handler draws or reads: the uid drawn by
    [generateUID], the link, the lines of a batch. *)
Inductive command :=
  | Add (u l : string)                     (* uid drawn, link given *)
  | Batch (items : list (string * string)) (* uid drawn and line, per line *)
  | Remove (u : string)
  | Loop (mode : string)
  | Stop.

(** [const item = { uid, link }; videoQueue.push(item);
    originalQueue.push(item)] *)
Definition enqueue (u l : string) (s : state) : state :=
  let a := length (heap s) in
  set_originalQueue (originalQueue s ++ [a])
    (set_videoQueue (videoQueue s ++ [a])
       (set_heap (heap s ++ [Item u l]) s)).

Definition cmd_add (u l : string) (s : state) : state :=
  if decide (l = "") then emit (EvError "Please provide a video link.") s
  else spawn AddReply (emit (EvAdded u l) (enqueue u l s)).

(** [for (const link of links) { ... push ... }] *)
Definition enqueue_all (links : list (string * string)) (s : state) : state :=
  foldl (λ s it, enqueue it.1 it.2 s) s links.

Definition cmd_batch (items : list (string * string)) (s : state) : state :=
  let links := filter (λ it, it.2 ≠ "") items in
  match links with
  | [] =>
      emit
        (EvError
           "No links found. Please provide multiple links separated by newlines.")
        s
  | _ =>
      spawn AddReply
        (emit (EvBatchAdded (length links)) (enqueue_all links s))
  end.

(** [q.findIndex(item => item.uid === uid)] *)
Definition findIndex (h : list item) (u : string) (q : list addr)
  : option nat :=
  fst <$> list_find (λ a, uid_of h a = u) q.

Definition cmd_remove (u : string) (s : state) : state :=
  if decide (u = "")
  then emit (EvError "Please provide the UID of the video to remove.") s
  else
    match findIndex (heap s) u (videoQueue s),
          findIndex (heap s) u (originalQueue s) with
    | Some index, Some originalIndex =>
        let removed := default 0 (videoQueue s !! index) in
        emit (EvRemoved (uid_of (heap s) removed) (link_of (heap s) removed))
          (set_originalQueue (delete originalIndex (originalQueue s))
             (set_videoQueue (delete index (videoQueue s)) s))
    | _, _ => emit (EvNotFound u) s
    end.

Definition cmd_loop (mode : string) (s : state) : state :=
  if decide (mode = "on") then emit (EvLoop true) (set_loopEnabled true s)
  else if decide (mode = "off") then emit (EvLoop false) (set_loopEnabled false s)
  else emit (EvError "Usage: `loop on` or `loop off`") s.

Definition cmd_stop (s : state) : state :=
  let s := set_stopRequested true s in
  let s := match currentPlayback s with
           | Some p => set_promises (cancel p (promises s)) s
           | None => s
           end in
  let s := set_originalQueue [] (set_videoQueue [] s) in
  (* await cleanupStreamStatus() *)
  let '(s, k) := cleanup_start FromStop s in
  set_tasks (tasks s ++ option_list k) s.

Definition exec (c : command) (s : state) : state :=
  match c with
  | Add u l => cmd_add u l s
  | Batch items => cmd_batch items s
  | Remove u => cmd_remove u s
  | Loop mode => cmd_loop mode s
  | Stop => cmd_stop s
  end.

(** ** Runs *)

(** A step of the event loop: a command arrives, a suspended function is
    resumed, or [playQueue] is called by a client of the module. *)
Inductive label :=
  | Cmd (c : command)
  | Resume (i : nat) (o : outcome)
  | CallPlayQueue.

Definition step (l : label) (s : state) : option state :=
  match l with
  | Cmd c => Some (exec c s)
  | Resume i o => resume i o s
  | CallPlayQueue =>
      let '(s', k) := playQueue s in
      Some (set_tasks (tasks s' ++ option_list k) s')
  end.

Fixpoint run (ls : list label) (s : state) : option state :=
  match ls with
  | [] => Some s
  | l :: ls => s' ← step l s; run ls s'
  end.

(** The states that the runs of the queue commands reach from the initial
    state. *)
Definition reachable (s : state) : Prop :=
  ∃ ls, run ls init = Some s.

(** ** Strings *)

(** A string is a sequence of code units; the characters of [string] are
    the code units below 256. *)

Definition LF : Ascii.ascii := Ascii.ascii_of_nat 10.
Definition CR : Ascii.ascii := Ascii.ascii_of_nat 13.
Definition SP : Ascii.ascii := Ascii.ascii_of_nat 32.

(** White space and line terminators, which [trim] removes: TAB, LF, VT,
    FF, CR, SP and NBSP. *)
Definition isWhiteSpace (c : Ascii.ascii) : bool :=
  let n := Ascii.nat_of_ascii c in
  (9 <=? n) && (n <=? 13) || (n =? 32) || (n =? 160).

(** [s.trimStart()] *)
Fixpoint trimStart (s : string) : string :=
  match s with
  | String c s' => if isWhiteSpace c then trimStart s' else s
  | EmptyString => EmptyString
  end.

(** [s.trimEnd()] *)
Fixpoint trimEnd (s : string) : string :=
  match s with
  | String c s' =>
      match trimEnd s' with
      | EmptyString => if isWhiteSpace c then EmptyString else String c EmptyString
      | t => String c t
      end
  | EmptyString => EmptyString
  end.

(** [s.trim()] *)
Definition trim (s : string) : string := trimEnd (trimStart s).

(** [s.slice(n)] for [n] not negative *)
Fixpoint slice (n : nat) (s : string) : string :=
  match n, s with
  | 0, _ => s
  | S n, String _ s' => slice n s'
  | S _, EmptyString => EmptyString
  end.

(** The character [c] is put in front of the first piece. *)
Definition extend (c : Ascii.ascii) (pieces : list string) : list string :=
  match pieces with
  | w :: ws => String c w :: ws
  | [] => [String c EmptyString]
  end.

(** [s.split(/ +/)]: the pieces of [s] between runs of spaces.  [sep]
    tells that the character before was a space of the run being
    skipped. *)
Fixpoint split_go (sep : bool) (s : string) : list string :=
  match s with
  | EmptyString => [EmptyString]
  | String c s' =>
      if decide (c = SP)
      then if sep then split_go true s' else EmptyString :: split_go true s'
      else extend c (split_go false s')
  end.

Definition split_spaces (s : string) : list string := split_go false s.

(** [c.toLowerCase()] on code units below 256: the letters A-Z, and the
    letters from U+00C0 to U+00DE but the sign U+00D7. *)
Definition lower (c : Ascii.ascii) : Ascii.ascii :=
  let n := Ascii.nat_of_ascii c in
  if (65 <=? n) && (n <=? 90) || (192 <=? n) && (n <=? 222) && negb (n =? 215)
  then Ascii.ascii_of_nat (n + 32)
  else c.

(** [s.toLowerCase()] *)
Fixpoint toLowerCase (s : string) : string :=
  match s with
  | String c s' => String (lower c) (toLowerCase s')
  | EmptyString => EmptyString
  end.

(** [args.join(" ")] *)
Definition join (ws : list string) : string := String.concat " " ws.

(** [s.split(/\r?\n/)] *)
Fixpoint split_lines (s : string) : list string :=
  match s with
  | EmptyString => [EmptyString]
  | String c s' =>
      if decide (c = LF) then EmptyString :: split_lines s'
      else
        match s' with
        | String d s'' =>
            if decide (c = CR ∧ d = LF) then EmptyString :: split_lines s''
            else extend c (split_lines s')
        | EmptyString => [String c EmptyString]
        end
  end.

(** [s.includes(sub)] *)
Fixpoint includes (sub s : string) : bool :=
  String.prefix sub s ||
  match s with
  | String _ s' => includes sub s'
  | EmptyString => false
  end.

(** [s.endsWith(suf)] *)
Fixpoint endsWith (suf s : string) : bool :=
  String.eqb suf s ||
  match s with
  | String _ s' => endsWith suf s'
  | EmptyString => false
  end.

(** A string in a condition: the empty string counts as false. *)
Definition truthy (s : string) : bool := negb (String.eqb s "").

(** ** The message handler *)

(** [config.prefix] and [config.cmdChannelId]. *)
Record config := Config {
  config_prefix : string;
  config_cmdChannelId : string
}.

(** An attachment of a message.  A field that the message does not give
    is the empty string. *)
Record attachment := Attachment {
  att_name : string;
  att_contentType : string;
  att_url : string
}.

Record message := Message {
  content : string;
  channel_id : string;                (* message.channel.id *)
  attachments : list attachment
}.

(** What the handler of [messageCreate] does with a message, up to the
    point where it draws uids and touches the queues. *)
Inductive request :=
  | Ignored                           (* return, without an answer *)
  | SendError (errorText : string)    (* await sendError(...); return *)
  | ReqAdd (link : string)
  | ReqReadAttachment (url : string)  (* await readAttachment(url) *)
  | ReqBatch (rawText : string)
  | ReqList
  | ReqRemove (uid : option string)   (* args[0] *)
  | ReqLoop (mode : option string)    (* args[0]?.toLowerCase() *)
  | ReqStop
  | ReqRandom
  | ReqDownload (link : string)
  | ReqHelp.

(** The attachments that [batch] reads (lines 301-304). *)
Definition text_attachment (att : attachment) : bool :=
  truthy (att_name att) && endsWith ".txt" (att_name att)
  || truthy (att_contentType att) && includes "text" (att_contentType att).

(** The case [batch], up to the text that holds the links (lines
    299-319). *)
Definition handle_batch (cfg : config) (m : message) (commandName : string)
  : request :=
  match attachments m with
  | _ :: _ =>
      match List.find text_attachment (attachments m) with
      | Some att =>
          if truthy (att_url att) then ReqReadAttachment (att_url att)
          else SendError "No valid text attachment found."
      | None => SendError "No valid text attachment found."
      end
  | [] =>
      ReqBatch
        (trim (slice (String.length (config_prefix cfg)
                      + String.length commandName) (content m)))
  end.

(** [const args = message.content.slice(config.prefix.length).trim()
    .split(/ +/)] *)
Definition args_of (cfg : config) (m : message) : list string :=
  split_spaces (trim (slice (String.length (config_prefix cfg)) (content m))).

(** The handler (lines 275-438): the two guards, the arguments, and the
    [switch] on the name of the command.  [add] and [remove] test their
    argument after this point, in [cmd_add] and [cmd_remove]. *)
Definition handle (cfg : config) (m : message) : request :=
  if negb (String.prefix (config_prefix cfg) (content m)) then Ignored
  else if negb (String.eqb (channel_id m) (config_cmdChannelId cfg))
  then Ignored
  else
    match args_of cfg m with
    | [] => Ignored                   (* if (!args.length) return *)
    | name :: args =>
        let commandName := toLowerCase name in
        if decide (commandName = "add") then ReqAdd (join args)
        else if decide (commandName = "batch")
        then handle_batch cfg m commandName
        else if decide (commandName = "list") then ReqList
        else if decide (commandName = "remove") then ReqRemove (head args)
        else if decide (commandName = "loop")
        then ReqLoop (toLowerCase <$> head args)
        else if decide (commandName = "stop") then ReqStop
        else if decide (commandName = "random") then ReqRandom
        else if decide (commandName = "download")
        then if decide (join args = "")
             then SendError "Please provide a video link to download."
             else ReqDownload (join args)
        else if decide (commandName = "help") then ReqHelp
        else SendError
               "Invalid command. Use the `help` command to see available commands."
    end.

(** The case [batch] after [readAttachment]: the text read, or the
    [catch] of lines 308-311. *)
Definition after_attachment (o : outcome) : request :=
  match o with
  | Resolved rawText => ReqBatch rawText
  | Rejected => SendError "Failed to read the attachment."
  end.

(** [rawText.split(/\r?\n/).map(line => line.trim())
    .filter(line => line.length > 0)] *)
Definition batch_links (rawText : string) : list string :=
  filter (λ line, line ≠ "") (trim <$> split_lines rawText).

(** The command that the handler runs on the queues, with the uids that
    its calls of [generateUID] return: [draw i] is the uid of call [i].
    The other requests leave the queues alone. *)
Definition command_of (r : request) (draw : nat → string) : option command :=
  match r with
  | ReqAdd l => Some (Add (draw 0) l)
  | ReqBatch rawText =>
      let links := batch_links rawText in
      Some (Batch (zip (draw <$> seq 0 (length links)) links))
  | ReqRemove u => Some (Remove (default "" u))
  | ReqLoop mode => Some (Loop (default "" mode))
  | ReqStop => Some Stop
  | _ => None
  end.

(** The case [list]: the uid and the link of each item of [videoQueue],
    one line of the answer each; none, and the answer is that the queue is
    empty. *)
Definition listing (s : state) : list (string * string) :=
  (λ a, (uid_of (heap s) a, link_of (heap s) a)) <$> videoQueue s.

(** ** The uids *)

(** [const letters = 'ABCDEFGHIJKLMNOPQRSTUVWXYZ'] *)
Definition letters : string := "ABCDEFGHIJKLMNOPQRSTUVWXYZ".

(** [s.charAt(i)] *)
Definition charAt (i : nat) (s : string) : string :=
  match String.get i s with
  | Some c => String c EmptyString
  | None => EmptyString
  end.

(** [generateUID()] (lines 83-91), given what [Math.floor] returns at
    each call: [num] is [Math.floor(10000 + Math.random() * 90000)], and
    [pick i] is [Math.floor(Math.random() * letters.length)] in round [i]
    of the loop. *)
Definition generateUID (num : N) (pick : nat → nat) : string :=
  let randLetters :=
    foldl (λ randLetters i, randLetters +:+ charAt (pick i) letters)
      EmptyString (seq 0 3) in
  pretty num +:+ randLetters.

(** ** Names of the files downloaded *)

(** The class [\w]. *)
Definition isWordChar (c : Ascii.ascii) : bool :=
  let n := Ascii.nat_of_ascii c in
  (48 <=? n) && (n <=? 57) || (65 <=? n) && (n <=? 90)
  || (97 <=? n) && (n <=? 122) || (n =? 95).

(** [title.replace(/[^\w\s]/gi, '')]: the characters that are neither of
    a word nor white space are left out. *)
Fixpoint sanitize (title : string) : string :=
  match title with
  | String c s =>
      if isWordChar c || isWhiteSpace c then String c (sanitize s)
      else sanitize s
  | EmptyString => EmptyString
  end.

(** The name of the file that [preDownloadVideo] and [downloadVideo]
    write a YouTube video to (lines 150-151 and 467-468); [now] is
    [Date.now()]. *)
Definition download_fileName (title : string) (now : N) : string :=
  sanitize title +:+ "_" +:+ pretty now +:+ ".mp4".

(** * Part II: the vocabulary of the properties *)

(** ** Invocations of [playQueue] *)

(** The tasks that are an invocation of [playQueue]. *)
Definition is_loop (t : task) : bool :=
  match t with
  | AddReply | CleanupLeave FromStop | CleanupDelay FromStop => false
  | _ => true
  end.

(** The number of invocations of [playQueue] that have not returned. *)
Definition count_loops (ts : list task) : nat :=
  length (filter (λ t, is_loop t = true) ts).

Definition flag (b : bool) : nat := if b then 1 else 0.

Definition is_loop_cont (k : option task) : bool :=
  match k with Some t => is_loop t | None => false end.

(** [isPlayingQueue] is set exactly while one invocation is running. *)
Definition single_flight (s : state) : Prop :=
  count_loops (tasks s) = flag (isPlayingQueue s).

(** The tasks that wait for the session. *)
Definition awaits_session (t : task) : Prop :=
  t = QJoin ∨ ∃ viaJoin, t = QCreate viaJoin.

(** ** The pair of queues *)

(** The uids of the items of a queue, in order. *)
Definition uids (h : list item) (q : list addr) : list string :=
  uid_of h <$> q.

(** The queues hold valid addresses, [originalQueue] holds each item
    once, and [videoQueue] is [originalQueue] with some items left out. *)
Definition queues_wf (vq oq : list addr) (h : list item) : Prop :=
  sublist vq oq ∧ NoDup oq ∧ Forall (λ a, a < length h) oq.

Definition queue_pair (s : state) : Prop :=
  queues_wf (videoQueue s) (originalQueue s) (heap s).

(** No two items of [originalQueue] carry the same uid. *)
Definition distinct_uids (s : state) : Prop :=
  NoDup (uids (heap s) (originalQueue s)).

(** [P] holds in every state of the run of [ls] from [s]. *)
Fixpoint always (P : state → Prop) (ls : list label) (s : state) : Prop :=
  P s ∧
  match ls with
  | [] => True
  | l :: ls =>
      match step l s with
      | Some s' => always P ls s'
      | None => True
      end
  end.

(** ** Traces *)

Definition is_stream (e : event) : bool :=
  match e with EvStream _ => true | _ => false end.

Definition is_acquire (e : event) : bool :=
  match e with EvJoinVoice | EvCreateStream => true | _ => false end.

Definition is_leave (e : event) : bool :=
  match e with EvLeaveVoice => true | _ => false end.

Definition is_download (e : event) : bool :=
  match e with EvPreDownload _ => true | _ => false end.

(** The transmissions started. *)
Definition streams (l : list event) : list event :=
  filter (λ e, is_stream e = true) l.

(** The calls that acquire the session. *)
Definition acquisitions (l : list event) : list event :=
  filter (λ e, is_acquire e = true) l.

(** The calls that release the session. *)
Definition leaves (l : list event) : list event :=
  filter (λ e, is_leave e = true) l.

(** The downloads requested. *)
Definition downloads (l : list event) : list event :=
  filter (λ e, is_download e = true) l.

(** ** Promises of suspended playbacks *)

(** A promise that has not been settled by its executor: it is pending,
    or it was cancelled. *)
Definition live (ps : list pstatus) (p : nat) : Prop :=
  ps !! p = Some Pending ∨ ps !! p = Some Canceled.

(** A playback that still awaits [currentPlayback] has a live promise. *)
Definition promises_live (s : state) : Prop :=
  ∀ a p, QPlayback a p ∈ tasks s → live (promises s) p.

(** ** Runs of resumptions *)

Definition is_resume (l : label) : bool :=
  match l with Resume _ _ => true | _ => false end.

(** Runs in which no command arrives and [playQueue] is not called from
    outside: suspended functions are resumed, in any order. *)
Definition resumes (ls : list label) : Prop :=
  Forall (λ l, is_resume l = true) ls.

(** With both queues empty, the number of [await]s a task can still go
    through. *)
Definition rank (t : task) : nat :=
  match t with
  | CleanupDelay _ => 1
  | CleanupLeave _ => 2
  | QCooldown => 3
  | QFinished _ => 4
  | QPlayback _ _ => 5
  | QAnnounce _ _ => 6
  | QFetch _ => 7
  | QCreate _ => 3
  | QJoin => 4
  | AddReply => 5
  end.

Definition rank_cont (k : option task) : nat :=
  match k with Some t => rank t | None => 0 end.

Definition total_rank (s : state) : nat := sum_list_with rank (tasks s).

Definition queues_empty (s : state) : Prop :=
  videoQueue s = [] ∧ originalQueue s = [].

(** ** A stop before playback *)

(** The tasks that are not inside [playVideoWithConnection], nor in the
    cooldown after it. *)
Definition before_playback (t : task) : bool :=
  match t with
  | QAnnounce _ _ | QPlayback _ _ | QFinished _ | QCooldown => false
  | _ => true
  end.

Definition before_playback_cont (k : option task) : bool :=
  match k with Some t => before_playback t | None => true end.

(** What holds from a stop on, when no playback had started: nothing is
    queued, no task is in a playback, and a download still awaited will
    find [stopRequested] set. *)
Definition stopped (s : state) : Prop :=
  queues_empty s ∧ single_flight s ∧
  Forall (λ t, before_playback t = true) (tasks s) ∧
  (stopRequested s = true ∨ ∀ a, QFetch a ∉ tasks s).

(** The session has been requested, or a handler is about to call
    [playQueue]; and while [playQueue] runs the session has been
    requested. *)
Definition session_requested (s : state) : Prop :=
  (isPlayingQueue s = true → acquisitions (log s) ≠ []) ∧
  (AddReply ∈ tasks s ∨ acquisitions (log s) ≠ []).

(** ** Readings that the program does not meet *)

(** Lazy acquisition, read on the code: were the session acquired by the
    first iteration of the loop, an invocation of [playQueue] that finds
    both queues empty, and so has no iteration, would request none. *)
Definition lazy_acquisition : Prop :=
  ∀ s, videoQueue s = [] → originalQueue s = [] →
       acquisitions (log (playQueue s).1) = acquisitions (log s).

(** A stop before playback acquires nothing: one item is added and stop
    follows at once; when everything has come to rest, no session was
    requested and nothing transmitted. *)
Definition stop_acquires_nothing : Prop :=
  ∀ u l post s', l ≠ "" → resumes post →
    run (Cmd (Add u l) :: Cmd Stop :: post) init = Some s' →
    tasks s' = [] →
    acquisitions (log s') = [] ∧ streams (log s') = [].

(** Removal takes one item: were [remove], with a uid that is found in
    both queues, to take the same item out of each. *)
Definition remove_same_item : Prop :=
  ∀ s u, reachable s → u ≠ "" →
    u ∈ uids (heap s) (videoQueue s) → u ∈ uids (heap s) (originalQueue s) →
    ∃ a i j, videoQueue s !! i = Some a ∧ originalQueue s !! j = Some a ∧
             videoQueue (cmd_remove u s) = delete i (videoQueue s) ∧
             originalQueue (cmd_remove u s) = delete j (originalQueue s).

(** A popped item cannot be removed: were [remove] with the uid of an
    item that is in [originalQueue] and no longer in [videoQueue] always to
    answer not-found and change nothing. *)
Definition popped_not_removable : Prop :=
  ∀ s a, reachable s → a ∈ originalQueue s → a ∉ videoQueue s →
    uid_of (heap s) a ≠ "" →
    cmd_remove (uid_of (heap s) a) s = emit (EvNotFound (uid_of (heap s) a)) s.

(** ** States and runs used as examples *)

(** The call awaited by task [0] succeeds. *)
Definition ok : label := Resume 0 (Resolved "").

(** A state in which the loop is running: one item was added and the
    handler has called [playQueue]. *)
Definition busy_state : state :=
  default init
    (run [Cmd (Add "12345ABC" "local.mp4"); Resume 0 (Resolved "")] init).

(** One item has been added and its handler awaits the reply. *)
Definition one_item : state := exec (Add "12345ABC" "local.mp4") init.

(** Two items queued, nothing played yet. *)
Definition two_items : state :=
  exec (Add "22222BBB" "http://x/video")
    (exec (Add "11111AAA" "local.mp4") init).

(** Two items are added; the loop starts, acquires the session and pops
    the first item, which is local. *)
Definition first_playing_run : list label :=
  [Cmd (Add "11111AAA" "local.mp4");
   Cmd (Add "22222BBB" "http://x/video");
   Resume 0 (Resolved ""); Resume 0 (Resolved ""); Resume 0 (Resolved "")].

(** The first of two items is being played: it has been popped, the
    second is still queued. *)
Definition first_playing : state :=
  default init (run first_playing_run init).

(** The second item of [two_items] is being transmitted. *)
Definition streaming_state : state :=
  default init
    (run [Cmd (Add "22222BBB" "http://x/video");
          Resume 0 (Resolved ""); Resume 0 (Resolved "");
          Resume 0 (Resolved ""); Resume 0 (Resolved "videos/video_1.mp4");
          Resume 0 (Resolved "")] init).

(** An item is added and removed again before the add handler resumes. *)
Definition added_and_removed : state :=
  exec (Remove "12345ABC") (exec (Add "12345ABC" "local.mp4") init).

(** The add handler resumes, the session is acquired, the loop finds the
    queue empty and cleans up; the cleanup of the stop handler ends. *)
Definition after_stop_run : list label :=
  replicate 7 (Resume 0 (Resolved "")).

(** One playback, from the download awaited by task [0], which yields
    the path [p], to the cooldown; [r] is the result of the
    transmission. *)
Definition fetch_and_play (p r : string) : list label :=
  [Resume 0 (Resolved p);    (* next.link = p, Now Playing *)
   ok;                       (* streamLivestreamVideo *)
   Resume 0 (Resolved r);    (* Finished *)
   ok].                      (* cooldown *)

(** Looping is switched on, two items are added, and the loop plays both
    once: each is downloaded and transmitted. *)
Definition first_pass (uA lA uB lB pA pB rA rB : string) : list label :=
  [Cmd (Loop "on"); Cmd (Add uA lA); Cmd (Add uB lB);
   ok;                        (* add handler: playQueue, joinVoice *)
   Resume 1 (Resolved "");    (* second add handler: nothing to start *)
   ok]                        (* createStream *)
  ++ [ok]                     (* pop A, preDownloadVideo *)
  ++ fetch_and_play pA rA
  ++ [ok]                     (* pop B, preDownloadVideo *)
  ++ fetch_and_play pB rB.

(** One more playback, from its announcement to the next pop. *)
Definition play_on (r : string) : list label :=
  [ok; Resume 0 (Resolved r); ok] ++ [ok].

(** [generateUID] draws the same uid for the first and the third of three
    items; the loop starts and pops the first. *)
Definition colliding_run : list label :=
  [Cmd (Add "11111AAA" "a.mp4"); Cmd (Add "22222BBB" "x.mp4");
   Cmd (Add "11111AAA" "b.mp4");
   ok; ok; ok].

(** The first of the three items is announced; the third, which carries
    its uid, is queued behind the second. *)
Definition colliding : state := default init (run colliding_run init).

(** A local and a remote item are queued by one [batch], looping is off,
    and every call succeeds until the queue is exhausted. *)
Definition scenario_run : list label :=
  [Cmd (Batch [("11111AAA", "local.mp4"); ("22222BBB", "http://x/video")]);
   ok;                                      (* playQueue, joinVoice *)
   ok;                                      (* createStream *)
   ok;                                      (* pop local.mp4, Now Playing *)
   ok; Resume 0 (Resolved "done"); ok; ok;  (* played; pop the remote item *)
   Resume 0 (Resolved "videos/video_1.mp4");
   ok; Resume 0 (Resolved "done"); ok; ok;  (* played; queue empty *)
   ok; ok].                                 (* cleanupStreamStatus *)

(** ** Replaying the queue *)

(** The item's link does not start with [http]: the loop plays it
    without a download. *)
Definition is_local (h : list item) (x : addr) : Prop :=
  startsWith_http (link_of h x) = false.

(** One playback by the invocation of [playQueue] that is task [i], from
    the end of a cooldown to the next cooldown; [o] is what becomes of
    [streamLivestreamVideo]. *)
Definition playback (i : nat) (o : outcome) : list label :=
  [Resume i (Resolved "");   (* the cooldown ends: pop, Now Playing *)
   Resume i (Resolved "");   (* streamLivestreamVideo is called *)
   Resume i o;               (* it returns or throws: Finished *)
   Resume i (Resolved "")].  (* currentPlayback = null, cooldown *)

(** One playback after the other. *)
Definition playbacks (i : nat) (os : list outcome) : list label :=
  os ≫= playback i.

(** What the promise of a transmission is resolved with (lines 252-257). *)
Definition transmission_result (o : outcome) : string :=
  match o with Resolved r => r | Rejected => "error skipped" end.

(** The external calls of one playback of the item at [x]. *)
Definition playback_trace (h : list item) (x : addr) (o : outcome)
  : list event :=
  [EvNowPlaying (uid_of h x); EvStream (link_of h x);
   EvLogInfo ("Finished playing video: " +:+ transmission_result o);
   EvFinished].

(** Looping is on and two remote items have been downloaded and played
    once: the loop is in the cooldown after the second. *)
Definition replay_state : state :=
  default init
    (run (first_pass "11111AAA" "http://x/a" "22222BBB" "http://x/b"
            "videos/a.mp4" "videos/b.mp4" "" "") init).

(** ** The bot at rest *)

(** The tasks of an invocation of [playQueue] that has set
    [streamStatus.joined] and has not yet left the voice channel. *)
Definition holds_session (t : task) : bool :=
  match t with
  | QFetch _ | QAnnounce _ _ | QPlayback _ _ | QFinished _ | QCooldown
  | CleanupLeave FromPlayQueue => true
  | _ => false
  end.

(** The tasks between [setSpeaking(true)] and [setSpeaking(false)]. *)
Definition in_transmission (t : task) : bool :=
  match t with QAnnounce _ _ | QPlayback _ _ => true | _ => false end.

(** The tasks between [currentPlayback = new PCancelable(...)] and
    [currentPlayback = null]. *)
Definition has_playback (t : task) : bool :=
  match t with QPlayback _ _ | QFinished _ => true | _ => false end.

(** Some suspended function is at a stage [W]. *)
Definition at_stage (W : task → bool) (s : state) : Prop :=
  ∃ t, t ∈ tasks s ∧ W t = true.

(** The error that [playQueue] logs when [playVideoWithConnection] has
    thrown (line 229). *)
Definition play_error : event := EvLogError "Error playing video:".

(** A message of a playback could not be sent. *)
Definition send_failed (s : state) : Prop := play_error ∈ log s.

(** Every flag that is set is held by a suspended function that will
    reset it; but the indicators and [currentPlayback] may also be left
    behind by a playback that has thrown. *)
Definition flags_held (s : state) : Prop :=
  (joined s = true → at_stage holds_session s) ∧
  (speaking s = true ∨ videoStatus s = true →
   at_stage in_transmission s ∨ send_failed s) ∧
  (is_Some (currentPlayback s) → at_stage has_playback s ∨ send_failed s) ∧
  joinsucc s = false ∧ playing s = false.

(** One item is added and announced, and the announcement cannot be
    sent; the loop goes on, finds the queue empty and releases the
    session. *)
Definition failed_announcement_run : list label :=
  [Cmd (Add "11111AAA" "local.mp4"); ok; ok; ok;
   Resume 0 Rejected;                       (* Now Playing is not sent *)
   ok; ok; ok].

(** One item is added and transmitted, and the closing message cannot be
    sent. *)
Definition failed_closing_run : list label :=
  [Cmd (Add "11111AAA" "local.mp4"); ok; ok; ok; ok;
   Resume 0 (Resolved "done");
   Resume 0 Rejected;                       (* Finished is not sent *)
   ok; ok; ok].

(** The run [scenario_run] has come to its end: both items were played
    and the session was released. *)
Definition played_out : state := default init (run scenario_run init).

(** ** Items added while the loop unwinds *)



(** ** The length of a playback *)

(** The [await]s still to go through when looping is off: those of the
    suspended functions, and five for each item queued, which are the
    download, the announcement, the transmission, the closing message and
    the cooldown. *)
Definition work (s : state) : nat :=
  total_rank s + 5 * length (videoQueue s).

(** The tasks inside an iteration of the loop. *)
Definition in_iteration (t : task) : bool :=
  match t with
  | QFetch _ | QAnnounce _ _ | QPlayback _ _ | QFinished _ | QCooldown => true
  | _ => false
  end.

(** The loop is inside an iteration, looping is on, and there is
    something to replay. *)
Definition looping (s : state) : Prop :=
  loopEnabled s = true ∧ originalQueue s ≠ [] ∧ stopRequested s = false ∧
  at_stage in_iteration s.

(** Looping is switched on and the first item is being played. *)
Definition looping_state : state :=
  default init
    (run [Cmd (Loop "on"); Cmd (Add "11111AAA" "local.mp4"); ok; ok; ok] init).

(** ** Messages of a transmission *)

Definition is_announcement (e : event) : bool :=
  match e with EvNowPlaying _ => true | _ => false end.

Definition is_finish (e : event) : bool :=
  match e with EvFinished => true | _ => false end.

(** The messages [Now Playing]. *)
Definition announcements (l : list event) : list event :=
  filter (λ e, is_announcement e = true) l.

(** The messages [Finished playing video]. *)
Definition finishes (l : list event) : list event :=
  filter (λ e, is_finish e = true) l.

Definition is_playback (t : task) : bool :=
  match t with QPlayback _ _ => true | _ => false end.

(** The number of suspended functions at a stage [W]. *)
Definition count_stage (W : task → bool) (ts : list task) : nat :=
  length (filter (λ t, W t = true) ts).

Definition stage_cont (W : task → bool) (k : option task) : bool :=
  match k with Some t => W t | None => false end.

Definition is_play_error (e : event) : bool :=
  match e with
  | EvLogError msg => String.eqb msg "Error playing video:"
  | _ => false
  end.

(** The playbacks that have thrown. *)
Definition play_errors (l : list event) : list event :=
  filter (λ e, is_play_error e = true) l.

(** Every transmission is followed by one closing message, but for those
    in progress; every transmission and every playback in progress has an
    announcement; and the announcements that have neither are no more than
    the playbacks that have thrown. *)
Definition balanced (s : state) : Prop :=
  length (streams (log s))
  = length (finishes (log s)) + count_stage is_playback (tasks s) ∧
  length (finishes (log s)) + count_stage in_transmission (tasks s)
  ≤ length (announcements (log s)) ∧
  length (announcements (log s))
  ≤ length (finishes (log s)) + count_stage in_transmission (tasks s)
    + length (play_errors (log s)).

(** ** The playback that stop cancels *)

(** The promise that a suspended playback awaits is the one held in
    [currentPlayback]. *)
Definition playback_is_current (s : state) : Prop :=
  ∀ a p, QPlayback a p ∈ tasks s → currentPlayback s = Some p.

(** ** The order of the playbacks *)

(** The uids announced by [Now Playing], in the order of the
    announcements. *)
Definition announced (l : list event) : list string :=
  omap (λ e, match e with EvNowPlaying u => Some u | _ => None end) l.

(** The steps other than the commands [remove], [loop] and [stop]. *)
Definition plain (l : label) : bool :=
  match l with
  | Cmd (Remove _) | Cmd (Loop _) | Cmd Stop => false
  | _ => true
  end.

(** The items announced so far are among those popped, [popped], in
    their order; [k] is where the invocation of [playQueue] stands: an item
    whose download is awaited is the last one popped and is not announced
    yet. *)
Definition ordered (k : option task) (s : state) (popped : list addr) : Prop :=
  originalQueue s = popped ++ videoQueue s ∧
  announced (log s) `sublist_of` uids (heap s) popped ∧
  ∀ next, k = Some (QFetch next) →
    ∃ popped0, popped = popped0 ++ [next] ∧
               announced (log s) `sublist_of` uids (heap s) popped0.

(** Looping is off, the items are queued in the order of their
    creation, and they are announced in that order. *)
Definition in_order (s : state) : Prop :=
  loopEnabled s = false ∧ single_flight s ∧
  originalQueue s = seq 0 (length (heap s)) ∧
  ∃ popped, ordered None s popped ∧
            ∀ t, t ∈ tasks s → ordered (Some t) s popped.

(** Three items are added and the first two have been announced. *)
Definition three_items_run : list label :=
  [Cmd (Add "11111AAA" "a.mp4"); Cmd (Add "22222BBB" "b.mp4");
   Cmd (Add "33333CCC" "c.mp4");
   ok; ok; ok; ok; ok; ok; ok; ok].

Definition two_played : state := default init (run three_items_run init).

(** ** The file that is transmitted *)

(** The item that a task works on is an item of the store of [n]
    items. *)
Definition task_in_store (n : nat) (t : task) : Prop :=
  match t with
  | QFetch a | QAnnounce a _ | QPlayback a _ | QFinished a => a < n
  | _ => True
  end.

Definition tasks_in_store (s : state) : Prop :=
  Forall (task_in_store (length (heap s))) (tasks s).

(** The remote item of [two_items] alone: its download is awaited. *)
Definition fetching_state : state :=
  default init
    (run [Cmd (Add "22222BBB" "http://x/video"); ok; ok; ok] init).

(** ** Strings, character by character *)

(** The characters of a string. *)
Definition chars (s : string) : list Ascii.ascii :=
  String.list_ascii_of_string s.

(** The first character of the string has the property [P]. *)
Definition starts_with (P : Ascii.ascii → bool) (s : string) : bool :=
  match s with
  | String c _ => P c
  | EmptyString => false
  end.

(** The last character of the string has the property [P]. *)
Fixpoint ends_with (P : Ascii.ascii → bool) (s : string) : bool :=
  match s with
  | EmptyString => false
  | String c EmptyString => P c
  | String _ s' => ends_with P s'
  end.

Definition isSpace (c : Ascii.ascii) : bool := bool_decide (c = SP).

Definition isDigit (c : Ascii.ascii) : bool :=
  let n := Ascii.nat_of_ascii c in (48 <=? n) && (n <=? 57).

Definition isUpper (c : Ascii.ascii) : bool :=
  let n := Ascii.nat_of_ascii c in (65 <=? n) && (n <=? 90).

(** The characters [.], [/] and [\]. *)
Definition dot : Ascii.ascii := Ascii.ascii_of_nat 46.
Definition slash : Ascii.ascii := Ascii.ascii_of_nat 47.
Definition backslash : Ascii.ascii := Ascii.ascii_of_nat 92.

(** A line without the carriage return at its end. *)
Fixpoint strip_cr (s : string) : string :=
  match s with
  | EmptyString => EmptyString
  | String c EmptyString => if decide (c = CR) then EmptyString else s
  | String c s' => String c (strip_cr s')
  end.

(** ** Messages used as examples *)

Definition example_config : config := Config "$" "42".

(** A message with the text of a batch and a picture attached. *)
Definition batch_with_picture : message :=
  Message "$batch http://a" "42"
    [Attachment "cat.png" "image/png" "http://cdn/cat.png"].

(** * Part III: lemmas and theorems *)

(** ** Tactics *)

Ltac unfold_loop :=
  unfold run_task, playQueue, join_failed, loop_head, pop, after_fetch,
    playVideo_start, exit_loop, cleanup_start, playVideo_stream,
    playVideo_settled, playVideo_finally, playVideo_failed, set_joined in *.

Ltac crunch :=
  repeat (simplify_eq /=; try case_match); simplify_eq /=.

(** ** Single flight *)

Lemma count_loops_app ts1 ts2 :
  count_loops (ts1 ++ ts2) = count_loops ts1 + count_loops ts2.
Proof. unfold count_loops. by rewrite filter_app, length_app. Qed.

Lemma count_loops_cons t ts :
  count_loops (t :: ts) = flag (is_loop t) + count_loops ts.
Proof.
  unfold count_loops. rewrite filter_cons.
  destruct (is_loop t); case_decide; simpl; congruence.
Qed.

Lemma count_loops_reschedule ts i t k :
  ts !! i = Some t →
  count_loops (reschedule i k ts) + flag (is_loop t)
  = count_loops ts + flag (is_loop_cont k).
Proof.
  intros Hi.
  assert (Hlt : i < length ts) by (by eapply lookup_lt_Some).
  rewrite <- (take_drop_middle ts i t Hi) at 2.
  destruct k as [t'|]; simpl.
  - rewrite insert_take_drop by done.
    rewrite !count_loops_app, !count_loops_cons. lia.
  - rewrite delete_take_drop.
    rewrite !count_loops_app, !count_loops_cons. lia.
Qed.

Lemma count_loops_pos ts i t :
  ts !! i = Some t → is_loop t = true → 0 < count_loops ts.
Proof.
  intros Hi Ht. rewrite <- (take_drop_middle ts i t Hi).
  rewrite count_loops_app, count_loops_cons, Ht. simpl. lia.
Qed.

(** Running a task leaves the pool to the scheduler, and keeps the flag
    in step with the invocations of [playQueue]. *)
Lemma run_task_flag t o s s' k :
  run_task t o s = Some (s', k) →
  (is_loop t = true → isPlayingQueue s = true) →
  tasks s' = tasks s ∧
  flag (isPlayingQueue s') + flag (is_loop t)
  = flag (isPlayingQueue s) + flag (is_loop_cont k).
Proof.
  intros Hrun Hflag.
  destruct t as [| | |?|? ?|? ?|?| |[]|[]], o; simpl in Hflag;
    first [specialize (Hflag eq_refl) | clear Hflag];
    unfold_loop; unfold mbind, option_bind in *; crunch;
    repeat match goal with
           | H : isPlayingQueue _ = _ |- _ => rewrite H
           end; auto.
Qed.

Lemma playQueue_flag s s' k :
  playQueue s = (s', k) →
  tasks s' = tasks s ∧
  flag (isPlayingQueue s') = flag (isPlayingQueue s) + flag (is_loop_cont k).
Proof.
  unfold playQueue. intros; crunch;
    repeat match goal with
           | H : isPlayingQueue _ = _ |- _ => rewrite H
           end; auto.
Qed.

Lemma enqueue_all_frame links s :
  isPlayingQueue (enqueue_all links s) = isPlayingQueue s ∧
  stopRequested (enqueue_all links s) = stopRequested s ∧
  loopEnabled (enqueue_all links s) = loopEnabled s ∧
  tasks (enqueue_all links s) = tasks s ∧
  log (enqueue_all links s) = log s.
Proof.
  unfold enqueue_all. revert s.
  induction links as [|it links IH]; intros s; simpl; [done|].
  destruct (IH (enqueue it.1 it.2 s)) as (-> & -> & -> & -> & ->). done.
Qed.

#[local] Arguments enqueue_all : simpl never.

Lemma exec_flag c s :
  isPlayingQueue (exec c s) = isPlayingQueue s ∧
  count_loops (tasks (exec c s)) = count_loops (tasks s).
Proof.
  destruct c as [u l|items|u|mode|]; simpl.
  - unfold cmd_add, spawn. case_decide; simpl; [done|].
    by rewrite count_loops_app, Nat.add_0_r.
  - unfold cmd_batch, spawn.
    destruct (filter _ items) as [|it links]; simpl; [done|].
    destruct (enqueue_all_frame (it :: links) s) as (-> & _ & _ & -> & _).
    by rewrite count_loops_app, Nat.add_0_r.
  - unfold cmd_remove. crunch; done.
  - unfold cmd_loop. crunch; done.
  - unfold cmd_stop. simpl. destruct (currentPlayback s); simpl;
      by rewrite count_loops_app, Nat.add_0_r.
Qed.

Lemma step_single_flight l s s' :
  step l s = Some s' → single_flight s → single_flight s'.
Proof.
  unfold single_flight. intros Hstep Hs. destruct l as [c|i o|]; simpl in *.
  - simplify_eq. destruct (exec_flag c s) as [-> ->]. done.
  - unfold resume in Hstep.
    destruct (tasks s !! i) as [t|] eqn:Hi; simpl in *; [|done].
    destruct (run_task t o s) as [[s1 k]|] eqn:Hrun; simpl in *; [|done].
    simplify_eq. simpl.
    apply run_task_flag in Hrun as [Ht Hf].
    + rewrite Ht. pose proof (count_loops_reschedule _ _ _ k Hi). lia.
    + intros Hl. pose proof (count_loops_pos _ _ _ Hi Hl).
      destruct (isPlayingQueue s); simpl in *; [done | lia].
  - destruct (playQueue s) as [s1 k] eqn:Hp. simplify_eq. simpl.
    apply playQueue_flag in Hp as [Ht Hf].
    rewrite Ht, count_loops_app.
    destruct k as [t|]; simpl option_list; [rewrite count_loops_cons|];
      change (count_loops []) with 0; simpl in Hf; lia.
Qed.

Lemma run_app ls1 ls2 s :
  run (ls1 ++ ls2) s = s1 ← run ls1 s; run ls2 s1.
Proof.
  revert s. induction ls1 as [|l ls1 IH]; intros s; simpl; [done|].
  destruct (step l s); simpl; auto.
Qed.

(** Invariants are proved along runs. *)
Lemma run_invariant (P : state → Prop) :
  (∀ l s s', step l s = Some s' → P s → P s') →
  ∀ ls s s', run ls s = Some s' → P s → P s'.
Proof.
  intros Hstep ls. induction ls as [|l ls IH]; intros s s' Hrun Hs; simpl in *.
  - by simplify_eq.
  - destruct (step l s) as [s1|] eqn:Hl; simpl in *; [|done]. eauto.
Qed.

Lemma reachable_single_flight s : reachable s → single_flight s.
Proof.
  intros [ls Hrun].
  eapply (run_invariant single_flight); eauto using step_single_flight.
  reflexivity.
Qed.

Lemma busy_state_reachable : reachable busy_state.
Proof.
  exists [Cmd (Add "12345ABC" "local.mp4"); Resume 0 (Resolved "")].
  vm_compute. reflexivity.
Qed.

Lemma set_tasks_id s : set_tasks (tasks s) s = s.
Proof. by destruct s. Qed.

(** C1: when [isPlayingQueue] is set, [playQueue] returns at once and
    changes nothing, whether it is called by a handler or directly; and in
    every reachable state at most one invocation of [playQueue] is
    running, none when [isPlayingQueue] is unset. *)
Theorem playQueue_single_flight (s : state) :
  (isPlayingQueue s = true →
   playQueue s = (s, None) ∧ step CallPlayQueue s = Some s) ∧
  (reachable s →
   count_loops (tasks s) ≤ 1 ∧
   (isPlayingQueue s = false → count_loops (tasks s) = 0)).
Proof.
  split.
  - intros Hp. unfold step, playQueue. rewrite Hp. split; [done|].
    simpl. by rewrite app_nil_r, set_tasks_id.
  - intros Hr. apply reachable_single_flight in Hr.
    unfold single_flight in Hr. rewrite Hr.
    destruct (isPlayingQueue s); simpl; split; auto; done.
Qed.

Lemma playQueue_single_flight_witness :
  (playQueue busy_state = (busy_state, None) ∧
   step CallPlayQueue busy_state = Some busy_state) ∧
  count_loops (tasks busy_state) ≤ 1.
Proof.
  destruct (playQueue_single_flight busy_state) as [H1 H2].
  split.
  - apply H1. vm_compute. reflexivity.
  - apply H2. apply busy_state_reachable.
Defined.

(** ** The pair of queues *)

Lemma findIndex_nil h u : findIndex h u [] = None.
Proof. done. Qed.

Lemma findIndex_cons h u a q :
  findIndex h u (a :: q)
  = if decide (uid_of h a = u) then Some 0 else S <$> findIndex h u q.
Proof.
  unfold findIndex. simpl. case_decide; [done|].
  by destruct (list_find _ q) as [[??]|].
Qed.

Lemma findIndex_Some h u q i :
  findIndex h u q = Some i →
  ∃ a, q !! i = Some a ∧ uid_of h a = u ∧
       ∀ j b, j < i → q !! j = Some b → uid_of h b ≠ u.
Proof.
  unfold findIndex. intros H.
  destruct (list_find _ q) as [[i' a]|] eqn:Hf; simplify_eq/=.
  apply list_find_Some in Hf as (? & ? & ?). eauto.
Qed.

Lemma findIndex_None h u q :
  findIndex h u q = None ↔ u ∉ uid_of h <$> q.
Proof.
  unfold findIndex. rewrite fmap_None, list_find_None, Forall_forall.
  rewrite list_elem_of_fmap. split.
  - intros H (a & -> & Ha). by apply (H a).
  - intros H a Ha Hu. apply H. eauto.
Qed.

(** Removing the first item with uid [u] from both queues keeps the
    relative order. *)
Lemma sublist_remove h u (vq oq : list addr) i j :
  sublist vq oq →
  findIndex h u vq = Some i → findIndex h u oq = Some j →
  sublist (delete i vq) (delete j oq).
Proof.
  intros Hsub. revert i j.
  induction Hsub as [|x l1 l2 Hsub IH|x l1 l2 Hsub IH]; intros i j.
  - by rewrite findIndex_nil.
  - rewrite !findIndex_cons. case_decide.
    + intros; simplify_eq/=. done.
    + intros Hi Hj.
      destruct (findIndex h u l1) as [i'|]; simplify_eq/=.
      destruct (findIndex h u l2) as [j'|]; simplify_eq/=.
      apply sublist_skip. by apply IH.
  - rewrite findIndex_cons. case_decide.
    + intros Hi ?; simplify_eq/=.
      etrans; [apply sublist_delete | done].
    + intros Hi Hj.
      destruct (findIndex h u l2) as [j'|]; simplify_eq/=.
      apply sublist_cons. by apply IH.
Qed.

Lemma queues_wf_nil h : queues_wf [] [] h.
Proof. repeat split; [done | constructor | constructor]. Qed.

Lemma queues_wf_pop a rest oq h :
  queues_wf (a :: rest) oq h → queues_wf rest oq h.
Proof.
  intros (Hs & Hn & Hb). repeat split; auto.
  etrans; [|done]. by apply sublist_cons.
Qed.

Lemma queues_wf_refill_pop a rest h :
  queues_wf [] (a :: rest) h → queues_wf rest (a :: rest) h.
Proof.
  intros (Hs & Hn & Hb). repeat split; auto. by apply sublist_cons.
Qed.

Lemma queues_wf_enqueue vq oq h it :
  queues_wf vq oq h →
  queues_wf (vq ++ [length h]) (oq ++ [length h]) (h ++ [it]).
Proof.
  intros (Hs & Hn & Hb). repeat split.
  - by apply sublist_app.
  - apply NoDup_app. repeat split; [done| |apply NoDup_singleton].
    intros a Ha ->%list_elem_of_singleton.
    rewrite Forall_forall in Hb. specialize (Hb _ Ha). lia.
  - rewrite length_app. simpl. apply Forall_app. split.
    + eapply Forall_impl; [done|]. simpl. lia.
    + repeat constructor. lia.
Qed.

Lemma queues_wf_remove vq oq h u i j :
  queues_wf vq oq h →
  findIndex h u vq = Some i → findIndex h u oq = Some j →
  queues_wf (delete i vq) (delete j oq) h.
Proof.
  intros (Hs & Hn & Hb) Hi Hj. repeat split.
  - by eapply sublist_remove.
  - pose proof (sublist_delete oq j). eauto using sublist_NoDup.
  - rewrite Forall_forall in Hb |- *. intros a Ha. apply Hb.
    eapply elem_of_sublist; [done | apply sublist_delete].
Qed.

Lemma length_set_link a l h : length (set_link a l h) = length h.
Proof. unfold set_link. case_match; [apply length_insert | done]. Qed.

Lemma queues_wf_set_link vq oq h a l :
  queues_wf vq oq h → queues_wf vq oq (set_link a l h).
Proof.
  intros (Hs & Hn & Hb). repeat split; auto. by rewrite length_set_link.
Qed.

Lemma queue_pair_enqueue u l s : queue_pair s → queue_pair (enqueue u l s).
Proof. unfold queue_pair, enqueue. simpl. apply queues_wf_enqueue. Qed.

Lemma queue_pair_enqueue_all links s :
  queue_pair s → queue_pair (enqueue_all links s).
Proof.
  unfold enqueue_all. revert s.
  induction links as [|it links IH]; intros s Hs; simpl; [done|].
  by apply IH, queue_pair_enqueue.
Qed.

Lemma exec_queue_pair c s : queue_pair s → queue_pair (exec c s).
Proof.
  intros Hs. destruct c as [u l|items|u|mode|]; simpl.
  - unfold cmd_add. case_decide; [done|]. by apply queue_pair_enqueue.
  - unfold cmd_batch. destruct (filter _ items) as [|it links]; [done|].
    by apply (queue_pair_enqueue_all (it :: links)).
  - unfold cmd_remove. case_decide; [done|].
    destruct (findIndex _ u (videoQueue s)) as [i|] eqn:Hi; [|done].
    destruct (findIndex _ u (originalQueue s)) as [j|] eqn:Hj; [|done].
    unfold queue_pair. simpl. by eapply queues_wf_remove.
  - unfold cmd_loop. repeat case_decide; done.
  - unfold cmd_stop, queue_pair. simpl.
    destruct (currentPlayback s); simpl; apply queues_wf_nil.
Qed.

Lemma run_task_queue_pair t o s s' k :
  run_task t o s = Some (s', k) → queue_pair s → queue_pair s'.
Proof.
  unfold queue_pair. intros Hrun Hs.
  destruct t, o; unfold_loop; unfold mbind, option_bind in *; crunch;
    repeat match goal with
           | H : videoQueue _ = _ |- _ => rewrite H in Hs
           | H : originalQueue _ = _ |- _ => rewrite H in Hs
           | H : originalQueue _ = _ |- _ => rewrite H
           | H : videoQueue _ = _ |- _ => rewrite H
           end;
    eauto using queues_wf_pop, queues_wf_refill_pop, queues_wf_set_link.
Qed.

Lemma step_queue_pair l s s' :
  step l s = Some s' → queue_pair s → queue_pair s'.
Proof.
  intros Hstep Hs. destruct l as [c|i o|]; simpl in *.
  - simplify_eq. by apply exec_queue_pair.
  - unfold resume in Hstep.
    destruct (tasks s !! i) as [t|]; simpl in *; [|done].
    destruct (run_task t o s) as [[s1 k]|] eqn:Hrun; simpl in *; [|done].
    simplify_eq. eapply run_task_queue_pair in Hrun; done.
  - unfold playQueue in Hstep. crunch; done.
Qed.

Lemma reachable_queue_pair s : reachable s → queue_pair s.
Proof.
  intros [ls Hrun].
  eapply (run_invariant queue_pair); eauto using step_queue_pair.
  apply queues_wf_nil.
Qed.

Lemma cmd_stop_queues_empty s : queues_empty (cmd_stop s).
Proof. unfold cmd_stop. by destruct (currentPlayback s). Qed.

(** ** Removal by uid *)

Lemma findIndex_split h u q i :
  findIndex h u q = Some i →
  ∃ a l1 l2, q = l1 ++ a :: l2 ∧ q !! i = Some a ∧ uid_of h a = u ∧
             (u ∉ uids h l1) ∧ delete i q = l1 ++ l2.
Proof.
  intros (a & Ha & Hu & Hfirst)%findIndex_Some.
  exists a, (take i q), (drop (S i) q). repeat split; auto.
  - by rewrite take_drop_middle.
  - unfold uids. intros (b & Hb & Hin)%list_elem_of_fmap.
    apply list_elem_of_lookup in Hin as [j Hj].
    apply lookup_take_Some in Hj as [Hj Hlt]. by eapply Hfirst.
  - apply delete_take_drop.
Qed.

Lemma findIndex_is_Some h u q :
  u ∈ uids h q → is_Some (findIndex h u q).
Proof.
  intros Hin. destruct (findIndex h u q) eqn:Hf; [eauto|].
  by apply findIndex_None in Hf.
Qed.

(** Distinct uids name distinct items. *)
Lemma uid_of_inj h q a b :
  NoDup (uids h q) → a ∈ q → b ∈ q → uid_of h a = uid_of h b → a = b.
Proof.
  unfold uids. induction q as [|x q IH]; simpl.
  - by intros _ ?%not_elem_of_nil.
  - intros [Hx Hq]%NoDup_cons [->|Ha]%elem_of_cons [->|Hb]%elem_of_cons Hu;
      auto.
    + exfalso. apply Hx. rewrite Hu. by apply list_elem_of_fmap_2.
    + exfalso. apply Hx. rewrite <- Hu. by apply list_elem_of_fmap_2.
Qed.

Lemma uids_app h l1 l2 : uids h (l1 ++ l2) = uids h l1 ++ uids h l2.
Proof. apply fmap_app. Qed.

Lemma not_elem_of_uids_middle h u m1 b m2 :
  NoDup (uids h (m1 ++ b :: m2)) → uid_of h b = u →
  u ∉ uids h (m1 ++ m2).
Proof.
  rewrite !uids_app. simpl. intros Hn <-.
  apply NoDup_app in Hn as (_ & H1 & [H2 _]%NoDup_cons).
  intros [Hin|Hin]%elem_of_app; [|done].
  apply (H1 _ Hin). by left.
Qed.

(** A uid that is missing from one of the queues is not found. *)
Lemma cmd_remove_absent (s : state) (u : string) :
  u ≠ "" →
  u ∉ uids (heap s) (videoQueue s) ∨ u ∉ uids (heap s) (originalQueue s) →
  cmd_remove u s = emit (EvNotFound u) s.
Proof.
  intros Hu Hnot. unfold cmd_remove. rewrite decide_False by done.
  assert (Hnf : findIndex (heap s) u (videoQueue s) = None
                ∨ findIndex (heap s) u (originalQueue s) = None)
    by (destruct Hnot; [left | right]; by apply findIndex_None).
  destruct (findIndex _ u (videoQueue s)), (findIndex _ u (originalQueue s));
    destruct Hnf; simplify_eq; done.
Qed.

(** C7, amended: [remove] with a uid that is missing from [videoQueue]
    or from [originalQueue] answers not-found and changes neither queue nor
    anything else; with a uid found in both, it takes out of each queue
    the first item carrying it and nothing else, and answers with the item
    taken from [videoQueue].  When the uids of [originalQueue] are
    distinct, which [generateUID] does not see to, the item taken is the
    same in both queues, and the uid is gone from both. *)
Theorem removeById (s : state) (u : string) :
  u ≠ "" →
  ((u ∉ uids (heap s) (videoQueue s) ∨ u ∉ uids (heap s) (originalQueue s)) →
   cmd_remove u s = emit (EvNotFound u) s ∧
   videoQueue (cmd_remove u s) = videoQueue s ∧
   originalQueue (cmd_remove u s) = originalQueue s) ∧
  (u ∈ uids (heap s) (videoQueue s) → u ∈ uids (heap s) (originalQueue s) →
   ∃ a b l1 l2 m1 m2,
     videoQueue s = l1 ++ a :: l2 ∧ originalQueue s = m1 ++ b :: m2 ∧
     uid_of (heap s) a = u ∧ uid_of (heap s) b = u ∧
     (u ∉ uids (heap s) l1) ∧ (u ∉ uids (heap s) m1) ∧
     cmd_remove u s
     = emit (EvRemoved u (link_of (heap s) a))
         (set_originalQueue (m1 ++ m2) (set_videoQueue (l1 ++ l2) s)) ∧
     (sublist (videoQueue s) (originalQueue s) →
      NoDup (uids (heap s) (originalQueue s)) →
      a = b ∧
      (u ∉ uids (heap s) (l1 ++ l2)) ∧ (u ∉ uids (heap s) (m1 ++ m2)))).
Proof.
  intros Hu. split.
  - intros Hnot. by rewrite cmd_remove_absent.
  - unfold cmd_remove. rewrite decide_False by done.
    intros [i Hi]%findIndex_is_Some [j Hj]%findIndex_is_Some.
    rewrite Hi, Hj.
    apply findIndex_split in Hi as (a & l1 & l2 & Hv & Hia & Hua & Hl1 & Hdv).
    apply findIndex_split in Hj as (b & m1 & m2 & Ho & Hjb & Hub & Hm1 & Hdo).
    exists a, b, l1, l2, m1, m2. cbv beta iota zeta.
    rewrite Hia, Hdv, Hdo. simpl.
    rewrite Hua. split_and!; auto.
    intros Hsub Hnd. split_and!.
    + apply (uid_of_inj (heap s) (originalQueue s)); auto.
      * eapply elem_of_sublist; [|done].
        rewrite Hv, elem_of_app, elem_of_cons. auto.
      * rewrite Ho, elem_of_app, elem_of_cons. auto.
      * congruence.
    + apply (not_elem_of_uids_middle _ _ _ a); [|done]. rewrite <- Hv.
      assert (uids (heap s) (videoQueue s)
              `sublist_of` uids (heap s) (originalQueue s))
        by (unfold uids; by apply fmap_sublist).
      eauto using sublist_NoDup.
    + apply (not_elem_of_uids_middle _ _ _ b); [|done]. by rewrite <- Ho.
Qed.

Lemma removeById_witness :
  (cmd_remove "99999ZZZ" two_items = emit (EvNotFound "99999ZZZ") two_items ∧
   videoQueue (cmd_remove "99999ZZZ" two_items) = videoQueue two_items ∧
   originalQueue (cmd_remove "99999ZZZ" two_items) = originalQueue two_items) ∧
  videoQueue (cmd_remove "22222BBB" two_items) = [0] ∧
  originalQueue (cmd_remove "22222BBB" two_items) = [0].
Proof.
  split.
  - apply (removeById two_items "99999ZZZ"); [done|].
    left. apply (bool_decide_unpack _). vm_compute. exact I.
  - destruct (removeById two_items "22222BBB") as [_ H]; [done|].
    destruct H as (a & b & l1 & l2 & m1 & m2 & Hv & Ho & _ & _ & _ & _ & _ & _).
    + apply (bool_decide_unpack _). vm_compute. exact I.
    + apply (bool_decide_unpack _). vm_compute. exact I.
    + vm_compute. done.
Defined.

(** ** Items that have left [videoQueue] *)

(** The item popped by an iteration is no longer in [videoQueue], and
    still in [originalQueue]. *)
Lemma pop_absent (s : state) (a : addr) (rest : list addr) :
  queue_pair s → stopRequested s = false → videoQueue s = a :: rest →
  videoQueue (loop_head s).1 = rest ∧
  originalQueue (loop_head s).1 = originalQueue s ∧
  heap (loop_head s).1 = heap s ∧
  a ∈ originalQueue s ∧ a ∉ rest.
Proof.
  intros (Hsub & Hnd & _) Hstop Hv. rewrite Hv in Hsub.
  assert (Hnv : NoDup (a :: rest)) by eauto using sublist_NoDup.
  apply NoDup_cons in Hnv as [Ha _].
  assert (a ∈ originalQueue s).
  { eapply elem_of_sublist; [|done]. by left. }
  unfold loop_head. rewrite Hstop, Hv. unfold_loop. crunch; auto.
Qed.

Lemma elem_of_enqueue_all a links s :
  a ∈ videoQueue (enqueue_all links s) →
  a ∈ videoQueue s ∨ length (heap s) ≤ a.
Proof.
  unfold enqueue_all. revert s.
  induction links as [|it links IH]; intros s; simpl; [auto|].
  intros [Hin|Hle]%IH; simpl in *.
  - apply elem_of_app in Hin as [?|Heq]; [by left|].
    apply list_elem_of_singleton in Heq. right. lia.
  - rewrite length_app in Hle. simpl in Hle. right. lia.
Qed.

Lemma elem_of_delete (a : addr) (i : nat) (q : list addr) :
  a ∈ delete i q → a ∈ q.
Proof. intros Hin. eapply elem_of_sublist; [done | apply sublist_delete]. Qed.

(** An item that has left [videoQueue] comes back only by a refill: by a
    step of the loop that finds [videoQueue] empty and looping on. *)
Lemma only_refill_brings_back l s s' a :
  queue_pair s → step l s = Some s' →
  a ∈ originalQueue s → a ∉ videoQueue s → a ∈ videoQueue s' →
  videoQueue s = [] ∧ loopEnabled s = true ∧ is_resume l = true.
Proof.
  intros (_ & _ & Hb) Hstep Hao Hav Hin.
  assert (Hlt : a < length (heap s)).
  { rewrite Forall_forall in Hb. by apply Hb. }
  destruct l as [c|i o|]; simpl in *.
  - exfalso. simplify_eq. destruct c as [u l|items|u|mode|].
    + simpl in Hin. unfold cmd_add in Hin. case_decide; simpl in Hin; [done|].
      apply elem_of_app in Hin as [?|Heq]; [done|].
      apply list_elem_of_singleton in Heq. lia.
    + simpl in Hin. unfold cmd_batch in Hin.
      destruct (filter _ items) as [|it links]; [done|]. simpl in Hin.
      apply elem_of_enqueue_all in Hin as [?|?]; [done|lia].
    + simpl in Hin. unfold cmd_remove in Hin. crunch; try done.
      by apply elem_of_delete in Hin.
    + simpl in Hin. unfold cmd_loop in Hin. crunch; done.
    + change (exec Stop s) with (cmd_stop s) in Hin.
      destruct (cmd_stop_queues_empty s) as [Hv _]. rewrite Hv in Hin.
      by apply not_elem_of_nil in Hin.
  - unfold resume in Hstep.
    destruct (tasks s !! i) as [t|]; simpl in *; [|done].
    destruct (run_task t o s) as [[s1 k]|] eqn:Hrun; simpl in *; [|done].
    simplify_eq. simpl in Hin.
    destruct t, o; unfold_loop; unfold mbind, option_bind in *; crunch;
      try done;
      repeat match goal with
             | H : videoQueue _ = _ |- _ => rewrite H in Hav
             | H : videoQueue _ = _ |- _ => rewrite H in Hin
             end;
      try (exfalso; apply Hav; by right);
      try (by apply not_elem_of_nil in Hin).
  - exfalso. unfold playQueue in Hstep. crunch; done.
Qed.

(** C10, amended: when the uids of [originalQueue] are distinct, which
    [generateUID] does not see to, an item that is in [originalQueue] but
    no longer in [videoQueue], because an iteration has popped it, cannot
    be removed: [remove] with its uid answers not-found and changes neither
    queue.  It stays in [originalQueue], and no step puts it back into
    [videoQueue] but the refill of the empty [videoQueue] when looping is
    on, which brings it back as the item popped next or behind it. *)
Theorem popped_item_not_removable (s : state) (a : addr) :
  queue_pair s →
  NoDup (uids (heap s) (originalQueue s)) →
  uid_of (heap s) a ≠ "" →
  a ∈ originalQueue s → a ∉ videoQueue s →
  cmd_remove (uid_of (heap s) a) s = emit (EvNotFound (uid_of (heap s) a)) s ∧
  videoQueue (cmd_remove (uid_of (heap s) a) s) = videoQueue s ∧
  originalQueue (cmd_remove (uid_of (heap s) a) s) = originalQueue s ∧
  (∀ l s', step l s = Some s' → a ∈ videoQueue s' →
           videoQueue s = [] ∧ loopEnabled s = true ∧ is_resume l = true) ∧
  (videoQueue s = [] → loopEnabled s = true → stopRequested s = false →
   ∃ next rest,
     originalQueue s = next :: rest ∧
     videoQueue (loop_head s).1 = rest ∧
     originalQueue (loop_head s).1 = originalQueue s ∧
     (a = next ∨ a ∈ rest)).
Proof.
  intros Hq Huids Hu Hao Hav. pose proof Hq as (Hsub & Hnd & _).
  assert (Hnot : uid_of (heap s) a ∉ uids (heap s) (videoQueue s)).
  { unfold uids. intros (b & Hb & Hin)%list_elem_of_fmap.
    assert (a = b); [|by subst].
    apply (uid_of_inj (heap s) (originalQueue s)); auto.
    by eapply elem_of_sublist. }
  rewrite cmd_remove_absent by auto. split_and!; try done.
  - intros l s' Hstep Hin. by eapply only_refill_brings_back.
  - intros Hv Hloop Hstop.
    destruct (originalQueue s) as [|next rest] eqn:Ho.
    { by apply not_elem_of_nil in Hao. }
    exists next, rest. unfold loop_head. rewrite Hstop, Hv, Hloop.
    apply elem_of_cons in Hao. unfold_loop. crunch; auto.
Qed.

Lemma first_playing_run_spec : run first_playing_run init = Some first_playing.
Proof. vm_compute. reflexivity. Qed.

Lemma first_playing_reachable : reachable first_playing.
Proof. exists first_playing_run. apply first_playing_run_spec. Qed.

Lemma popped_item_not_removable_witness :
  cmd_remove (uid_of (heap first_playing) 0) first_playing
  = emit (EvNotFound (uid_of (heap first_playing) 0)) first_playing.
Proof.
  apply (popped_item_not_removable first_playing 0).
  - apply reachable_queue_pair, first_playing_reachable.
  - apply (bool_decide_unpack _). vm_compute. exact I.
  - vm_compute. done.
  - apply (bool_decide_unpack _). vm_compute. exact I.
  - apply (bool_decide_unpack _). vm_compute. exact I.
Defined.

Lemma colliding_reachable : reachable colliding.
Proof. exists colliding_run. vm_compute. reflexivity. Qed.

(** Counterexample to C7: two items carry the same uid and the first is
    being played.  [remove] with that uid finds the second in [videoQueue]
    and the first in [originalQueue]: it takes the second out of
    [videoQueue] and the one being played out of [originalQueue], and
    answers with the second.  No item has left both queues. *)
Lemma remove_with_colliding_uids :
  ¬ remove_same_item ∧
  (videoQueue colliding, originalQueue colliding,
   uids (heap colliding) (originalQueue colliding))
  = ([1; 2], [0; 1; 2], ["11111AAA"; "22222BBB"; "11111AAA"]) ∧
  (let s' := cmd_remove "11111AAA" colliding in
   (videoQueue s', originalQueue s', last (log s')))
  = ([1], [1; 2], Some (EvRemoved "11111AAA" "b.mp4")).
Proof.
  split; [|by vm_compute].
  intros Hsame.
  destruct (Hsame colliding "11111AAA" colliding_reachable)
    as (a & i & j & Hi & Hj & Hv & Ho).
  - done.
  - apply (bool_decide_unpack _). vm_compute. exact I.
  - apply (bool_decide_unpack _). vm_compute. exact I.
  - vm_compute in Hi, Hj, Hv, Ho.
    destruct i as [|[|i]]; simplify_eq.
    destruct j as [|[|[|j]]]; simplify_eq.
Qed.

(** Counterexample to C10: in the same state the item being played, at
    address [0], has been popped: it is in [originalQueue] and not in
    [videoQueue].  [remove] with its uid does not answer not-found: it
    answers with the third item, which carries the same uid, and takes the
    item being played out of [originalQueue], so that a refill will not
    bring it back. *)
Lemma playing_item_removed :
  ¬ popped_not_removable ∧
  tasks colliding = [QAnnounce 0 "a.mp4"; AddReply; AddReply] ∧
  (videoQueue colliding, originalQueue colliding) = ([1; 2], [0; 1; 2]) ∧
  (let s' := cmd_remove (uid_of (heap colliding) 0) colliding in
   (last (log s'), originalQueue s'))
  = (Some (EvRemoved "11111AAA" "b.mp4"), [1; 2]).
Proof.
  split; [|by vm_compute].
  intros Hnot.
  assert (Hf : cmd_remove (uid_of (heap colliding) 0) colliding
               = emit (EvNotFound (uid_of (heap colliding) 0)) colliding).
  { apply (Hnot colliding 0 colliding_reachable).
    - apply (bool_decide_unpack _). vm_compute. exact I.
    - apply (bool_decide_unpack _). vm_compute. exact I.
    - vm_compute. done. }
  vm_compute in Hf. discriminate.
Qed.

(** ** Traces *)

Lemma streams_snoc l e :
  streams (l ++ [e]) = streams l ++ (if is_stream e then [e] else []).
Proof.
  unfold streams. rewrite filter_app, filter_cons, filter_nil.
  destruct (is_stream e); by case_decide.
Qed.

Lemma acquisitions_snoc l e :
  acquisitions (l ++ [e])
  = acquisitions l ++ (if is_acquire e then [e] else []).
Proof.
  unfold acquisitions. rewrite filter_app, filter_cons, filter_nil.
  destruct (is_acquire e); by case_decide.
Qed.

Lemma leaves_snoc l e :
  leaves (l ++ [e]) = leaves l ++ (if is_leave e then [e] else []).
Proof.
  unfold leaves. rewrite filter_app, filter_cons, filter_nil.
  destruct (is_leave e); by case_decide.
Qed.

Lemma acquisitions_app l1 l2 :
  acquisitions (l1 ++ l2) = acquisitions l1 ++ acquisitions l2.
Proof. apply filter_app. Qed.

Ltac trace_simpl :=
  rewrite ?streams_snoc, ?acquisitions_snoc, ?leaves_snoc; simpl;
  rewrite ?app_nil_r.

(** An iteration started at the head of the loop leaves [originalQueue]
    and the items alone, starts no transmission and acquires nothing. *)
Lemma loop_head_frame (s : state) :
  originalQueue (loop_head s).1 = originalQueue s ∧
  heap (loop_head s).1 = heap s ∧
  isPlayingQueue (loop_head s).1 = isPlayingQueue s ∧
  stopRequested (loop_head s).1 = stopRequested s ∧
  joined (loop_head s).1 = joined s ∧
  tasks (loop_head s).1 = tasks s ∧
  streams (log (loop_head s).1) = streams (log s) ∧
  acquisitions (log (loop_head s).1) = acquisitions (log s).
Proof.
  unfold_loop. crunch; trace_simpl; auto 10.
Qed.

(** ** Failures of the download, of the transmission and of the session *)

(** C2: an iteration that requests a download has popped the item at
    the front, from [videoQueue] or from its refill, and the link of that
    item starts with [http].  When the download fails, whatever happened
    meanwhile, the loop is back at its head: nothing is transmitted for the
    item, the invocation goes on, and with another item queued and no stop
    requested that item is popped next.  The failed item has left
    [videoQueue] and is still in [originalQueue], which neither step
    changes. *)
Theorem fetch_failure_skips (s s1 : state) (a : addr) :
  loop_head s = (s1, Some (QFetch a)) →
  startsWith_http (link_of (heap s) a) = true ∧
  (videoQueue s = a :: videoQueue s1 ∨
   (videoQueue s = [] ∧ loopEnabled s = true ∧
    originalQueue s = a :: videoQueue s1)) ∧
  originalQueue s1 = originalQueue s ∧ heap s1 = heap s ∧
  log s1 = log s ++ [EvPreDownload (link_of (heap s) a)] ∧
  (queue_pair s → a ∈ originalQueue s1 ∧ a ∉ videoQueue s1) ∧
  (∀ s',
     let s2 := emit (EvLogError "Error pre-downloading video:") s' in
     run_task (QFetch a) Rejected s' = Some (loop_head s2) ∧
     is_loop_cont (loop_head s2).2 = true ∧
     isPlayingQueue (loop_head s2).1 = isPlayingQueue s' ∧
     originalQueue (loop_head s2).1 = originalQueue s' ∧
     heap (loop_head s2).1 = heap s' ∧
     streams (log (loop_head s2).1) = streams (log s') ∧
     (∀ b rest', stopRequested s' = false → videoQueue s' = b :: rest' →
        videoQueue (loop_head s2).1 = rest' ∧
        ((loop_head s2).2 = Some (QFetch b) ∨
         (loop_head s2).2 = Some (QAnnounce b (link_of (heap s') b))))).
Proof.
  intros Hpop.
  assert (Hfront :
    startsWith_http (link_of (heap s) a) = true ∧
    (videoQueue s = a :: videoQueue s1 ∨
     (videoQueue s = [] ∧ loopEnabled s = true ∧
      originalQueue s = a :: videoQueue s1)) ∧
    originalQueue s1 = originalQueue s ∧ heap s1 = heap s ∧
    log s1 = log s ++ [EvPreDownload (link_of (heap s) a)]).
  { revert Hpop. unfold_loop. intros; crunch; auto 10. }
  destruct Hfront as (Hhttp & Hq & Ho & Hh & Hl).
  split_and!; try done.
  - intros (Hsub & Hnd & _). rewrite Ho.
    destruct Hq as [Hv|(Hv & _ & Hoq)].
    + rewrite Hv in Hsub.
      assert (Hnv : NoDup (a :: videoQueue s1)) by eauto using sublist_NoDup.
      apply NoDup_cons in Hnv as [Ha _]. split; [|done].
      eapply elem_of_sublist; [|done]. by left.
    + rewrite Hoq in Hnd |- *. apply NoDup_cons in Hnd as [Ha _].
      split; [by left | done].
  - intros s' s2.
    destruct (loop_head_frame s2) as (Ho' & Hh' & Hp & _ & _ & _ & Hs & _).
    split_and!; try done.
    + subst s2. unfold_loop. crunch; done.
    + rewrite Hs. subst s2. simpl. by trace_simpl.
    + intros b rest' Hstop' Hv'. subst s2. unfold loop_head, pop.
      simpl. rewrite Hstop', Hv'. unfold_loop. crunch; auto.
Qed.

Lemma fetch_failure_skips_witness :
  startsWith_http (link_of (heap first_playing) 1) = true ∧
  1 ∈ originalQueue (loop_head first_playing).1 ∧
  1 ∉ videoQueue (loop_head first_playing).1.
Proof.
  destruct (fetch_failure_skips first_playing (loop_head first_playing).1 1)
    as (H1 & _ & _ & _ & _ & H2 & _); [vm_compute; reflexivity|].
  split; [exact H1|].
  apply H2, reachable_queue_pair, first_playing_reachable.
Defined.



(** Counterexample to C3: after [add] and [remove] of the same item both
    queues are empty; the add handler resumes and calls [playQueue], whose
    first action is to request [joinVoice], before the loop is entered.  So
    it is after a plain [add]: [joinVoice] is requested while the item is
    still in [videoQueue], and when it fails the item has not been
    popped. *)
Lemma session_acquired_before_loop :
  ¬ lazy_acquisition ∧
  videoQueue added_and_removed = [] ∧
  originalQueue added_and_removed = [] ∧
  tasks added_and_removed = [AddReply] ∧
  acquisitions (log added_and_removed) = [] ∧
  (s ← resume 0 (Resolved "") added_and_removed;
   Some (tasks s, acquisitions (log s))) = Some ([QJoin], [EvJoinVoice]) ∧
  (s ← resume 0 (Resolved "") one_item;
   Some (tasks s, videoQueue s, acquisitions (log s)))
  = Some ([QJoin], [0], [EvJoinVoice]) ∧
  (s ← run [ok; Resume 0 Rejected] one_item;
   Some (tasks s, videoQueue s, isPlayingQueue s)) = Some ([], [0], false).
Proof.
  split; [|by vm_compute].
  intros Hlazy. specialize (Hlazy added_and_removed eq_refl eq_refl).
  vm_compute in Hlazy. discriminate.
Qed.

(** C3, amended: the session is acquired once per invocation of
    [playQueue], by its first statements and before the loop looks at the
    queue: [joinVoice] then [createStream], or [createStream] alone when
    already joined; no later step of the loop acquires anything.  When
    either call fails the invocation ends at once with [isPlayingQueue]
    unset: no invocation is left, nothing was popped, nothing is
    transmitted.  A failed download, in contrast, leaves the invocation
    running. *)
Theorem session_acquisition_fatal (s : state) :
  isPlayingQueue s = false →
  (∃ s1 t, playQueue s = (s1, Some t) ∧ isPlayingQueue s1 = true ∧
     videoQueue s1 = videoQueue s ∧ originalQueue s1 = originalQueue s ∧
     streams (log s1) = streams (log s) ∧
     if joined s
     then t = QCreate false ∧ log s1 = log s ++ [EvCreateStream]
     else t = QJoin ∧ log s1 = log s ++ [EvJoinVoice]) ∧
  (∀ s' v, run_task QJoin (Resolved v) s'
           = Some (emit EvCreateStream s', Some (QCreate true))) ∧
  (∀ t o s' k, run_task t o s' = Some k → t ≠ AddReply → t ≠ QJoin →
               acquisitions (log k.1) = acquisitions (log s')) ∧
  (∀ s' i t, reachable s' → tasks s' !! i = Some t → awaits_session t →
     ∃ s2, resume i Rejected s' = Some s2 ∧
           isPlayingQueue s2 = false ∧ count_loops (tasks s2) = 0 ∧
           videoQueue s2 = videoQueue s' ∧
           originalQueue s2 = originalQueue s' ∧
           streams (log s2) = streams (log s') ∧
           log s2 = log s' ++ [EvLogError "Error joining voice channel:"]) ∧
  (∀ s' a, ∃ s2 t, run_task (QFetch a) Rejected s' = Some (s2, Some t) ∧
                   isPlayingQueue s2 = isPlayingQueue s').
Proof.
  intros Hp. split_and!.
  - unfold playQueue. rewrite Hp. simpl.
    destruct (joined s) eqn:Hj; eexists _, _; (split; [reflexivity|]);
      simpl; rewrite ?Hj; split_and!; auto; by trace_simpl.
  - done.
  - intros t o s' k Hrun Ht1 Ht2.
    destruct t as [| | |?|? ?|? ?|?| |[]|[]], o; try done;
      unfold_loop; unfold mbind, option_bind in *; crunch;
      trace_simpl; auto.
  - intros s' i t Hr Hi Ht.
    assert (Hrun : run_task t Rejected s' = Some (join_failed s'))
      by (destruct Ht as [->|[b ->]]; done).
    assert (Hstep : resume i Rejected s'
                    = Some (set_tasks (delete i (tasks s'))
                              (join_failed s').1)).
    { unfold resume. rewrite Hi. simpl. rewrite Hrun. done. }
    eexists. split; [exact Hstep|].
    assert (Hsf : single_flight
                    (set_tasks (delete i (tasks s')) (join_failed s').1)).
    { eapply (step_single_flight (Resume i Rejected)); [exact Hstep|].
      by apply reachable_single_flight. }
    unfold single_flight in Hsf. simpl in *.
    split_and!; auto. by trace_simpl.
  - intros s' a. simpl.
    destruct (loop_head_frame
                (emit (EvLogError "Error pre-downloading video:") s'))
      as (_ & _ & Hp' & _).
    destruct (loop_head _) as [s2 [t|]] eqn:Hl; [eauto|].
    exfalso. revert Hl. unfold_loop. intros; crunch.
Qed.

Lemma session_acquisition_fatal_witness :
  ∃ s1 t, playQueue two_items = (s1, Some t) ∧ isPlayingQueue s1 = true.
Proof.
  destruct (session_acquisition_fatal two_items) as [H _];
    [vm_compute; reflexivity|].
  destruct H as (s1 & t & H1 & H2 & _). eauto.
Defined.

(** ** Runs of resumptions end *)

Lemma sum_rank_reschedule ts i t k :
  ts !! i = Some t →
  sum_list_with rank (reschedule i k ts) + rank t
  = sum_list_with rank ts + rank_cont k.
Proof.
  intros Hi.
  assert (Hlt : i < length ts) by (by eapply lookup_lt_Some).
  rewrite <- (take_drop_middle ts i t Hi) at 2.
  destruct k as [t'|]; simpl.
  - rewrite insert_take_drop by done.
    rewrite !sum_list_with_app. simpl. lia.
  - rewrite delete_take_drop.
    rewrite !sum_list_with_app. simpl. lia.
Qed.

(** With nothing queued every step of a task brings it closer to its
    end. *)
Lemma run_task_rank t o s s' k :
  run_task t o s = Some (s', k) → queues_empty s →
  queues_empty s' ∧ tasks s' = tasks s ∧ rank_cont k < rank t.
Proof.
  intros Hrun [Hv Ho]. unfold queues_empty.
  destruct t as [| | |?|? ?|? ?|?| |[]|[]], o;
    unfold_loop; unfold mbind, option_bind in *; crunch;
    try congruence;
    simpl; rewrite ?Hv, ?Ho; split_and!; auto; lia.
Qed.

Lemma resume_rank i o s s' :
  resume i o s = Some s' → queues_empty s →
  queues_empty s' ∧ total_rank s' < total_rank s.
Proof.
  unfold resume. intros Hstep Hq.
  destruct (tasks s !! i) as [t|] eqn:Hi; simpl in *; [|done].
  destruct (run_task t o s) as [[s1 k]|] eqn:Hrun; simpl in *; [|done].
  simplify_eq. apply run_task_rank in Hrun as (Hq1 & Ht & Hlt); [|done].
  split; [done|]. unfold total_rank. simpl. rewrite Ht.
  pose proof (sum_rank_reschedule _ _ _ k Hi). lia.
Qed.

(** No run of resumptions from a state with empty queues is longer than
    the rank of the state. *)
Lemma resumes_rank ls s s' :
  resumes ls → run ls s = Some s' → queues_empty s →
  queues_empty s' ∧ total_rank s' + length ls ≤ total_rank s.
Proof.
  intros Hls. revert s. induction Hls as [|l ls Hl _ IH]; intros s Hrun Hq.
  - simpl in *. simplify_eq. split; [done | lia].
  - simpl in Hrun. destruct l as [|i o|]; simplify_eq/=.
    destruct (resume i o s) as [s1|] eqn:Hs1; simplify_eq/=.
    apply resume_rank in Hs1 as [Hq1 Hlt]; [|done].
    destruct (IH _ Hrun Hq1). split; [done | lia].
Qed.

Lemma reachable_step l s s' : reachable s → step l s = Some s' → reachable s'.
Proof.
  intros [ls Hrun] Hstep. exists (ls ++ [l]).
  rewrite run_app, Hrun. simpl. by rewrite Hstep.
Qed.

Lemma reachable_run ls s s' : reachable s → run ls s = Some s' → reachable s'.
Proof.
  revert s. induction ls as [|l ls IH]; intros s Hr Hrun; simpl in *.
  - by simplify_eq.
  - destruct (step l s) as [s1|] eqn:Hl; simplify_eq/=.
    eauto using reachable_step.
Qed.

(** ** Promises of suspended playbacks *)

Lemma reschedule_split ts i (t : task) k :
  ts !! i = Some t →
  ∃ l1 l2, ts = l1 ++ t :: l2 ∧ reschedule i k ts = l1 ++ option_list k ++ l2.
Proof.
  intros Hi. exists (take i ts), (drop (S i) ts).
  assert (Hlt : i < length ts) by (by eapply lookup_lt_Some).
  split; [by rewrite take_drop_middle|].
  destruct k; simpl; [by apply insert_take_drop | apply delete_take_drop].
Qed.

Lemma count_loops_zero ts t :
  count_loops ts = 0 → t ∈ ts → is_loop t = false.
Proof.
  intros Hc Hin. apply list_elem_of_lookup in Hin as [i Hi].
  destruct (is_loop t) eqn:Ht; [|done].
  pose proof (count_loops_pos _ _ _ Hi Ht). lia.
Qed.

(** Under single flight the tasks beside an invocation of [playQueue]
    are not invocations. *)
Lemma others_not_loops l1 t l2 t' :
  count_loops (l1 ++ t :: l2) ≤ 1 → is_loop t = true →
  t' ∈ l1 ++ l2 → is_loop t' = false.
Proof.
  rewrite count_loops_app, count_loops_cons. intros Hc Ht Hin.
  rewrite Ht in Hc. simpl in Hc.
  apply (count_loops_zero (l1 ++ l2)); [|done].
  rewrite count_loops_app. lia.
Qed.

Lemma single_flight_le s : single_flight s → count_loops (tasks s) ≤ 1.
Proof.
  unfold single_flight. intros ->. destruct (isPlayingQueue s); simpl; lia.
Qed.

Lemma live_cancel ps p q : live ps q → live (cancel p ps) q.
Proof.
  unfold live, cancel. intros Hq.
  destruct (ps !! p) as [[]|] eqn:Hp; auto.
  destruct (decide (p = q)) as [->|Hne].
  - rewrite list_lookup_insert_eq by (by eapply lookup_lt_Some). auto.
  - by rewrite list_lookup_insert_ne.
Qed.

Lemma live_alloc ps q : live ps q → live (ps ++ [Pending]) q.
Proof.
  unfold live. intros [Hq|Hq]; [left | right];
    by rewrite lookup_app_l by (by eapply lookup_lt_Some).
Qed.

Lemma live_fresh ps : live (ps ++ [Pending]) (length ps).
Proof. left. by rewrite lookup_app_r, Nat.sub_diag by lia. Qed.

(** A task that is not awaiting a playback keeps the live promises
    live, and if it comes to await a playback, its promise is live. *)
Lemma run_task_live t o s s' k :
  run_task t o s = Some (s', k) → (∀ a p, t ≠ QPlayback a p) →
  (∀ q, live (promises s) q → live (promises s') q) ∧
  (∀ a p, k = Some (QPlayback a p) → live (promises s') p).
Proof.
  intros Hrun Ht.
  destruct t as [| | |?|? ?|a p|?| |[]|[]], o;
    try (by destruct (Ht a p));
    unfold_loop; unfold mbind, option_bind in *; crunch;
    split; intros; simplify_eq; auto using live_alloc, live_fresh.
Qed.

Lemma run_task_playback a p o s s' k :
  run_task (QPlayback a p) o s = Some (s', k) → k = Some (QFinished a).
Proof.
  unfold_loop; unfold mbind, option_bind in *. intros; crunch; done.
Qed.

Lemma exec_live c s :
  promises_live s → promises_live (exec c s).
Proof.
  unfold promises_live. intros Hs a p.
  destruct c as [u l|items|u|mode|]; simpl.
  - unfold cmd_add, spawn. case_decide; simpl; [apply Hs|].
    rewrite elem_of_app, list_elem_of_singleton.
    intros [?|?]; [by eapply Hs|done].
  - unfold cmd_batch, spawn.
    destruct (filter _ items) as [|it links]; simpl; [apply Hs|].
    assert (Hp : promises (enqueue_all (it :: links) s) = promises s).
    { generalize (it :: links). intros ls. unfold enqueue_all. revert s Hs.
      induction ls as [|x ls IH]; intros s Hs; simpl; [done|].
      rewrite IH; [done|]. apply Hs. }
    destruct (enqueue_all_frame (it :: links) s) as (_ & _ & _ & -> & _).
    rewrite Hp, elem_of_app, list_elem_of_singleton.
    intros [?|?]; [by eapply Hs|done].
  - unfold cmd_remove. crunch; apply Hs.
  - unfold cmd_loop. crunch; apply Hs.
  - unfold cmd_stop. simpl.
    destruct (currentPlayback s) as [p'|]; simpl;
      rewrite elem_of_app, list_elem_of_singleton;
      (intros [Hin|?]; [|done]); [apply live_cancel|]; by eapply Hs.
Qed.

Lemma step_live l s s' :
  step l s = Some s' → single_flight s → promises_live s → promises_live s'.
Proof.
  intros Hstep Hsf Hs. destruct l as [c|i o|]; simpl in *.
  - simplify_eq. by apply exec_live.
  - unfold resume in Hstep.
    destruct (tasks s !! i) as [t|] eqn:Hi; simpl in *; [|done].
    destruct (run_task t o s) as [[s1 k]|] eqn:Hrun; simpl in *; [|done].
    simplify_eq. intros a p. simpl.
    assert (Ht1 : tasks s1 = tasks s).
    { destruct (isPlayingQueue s) eqn:Hp.
      - by eapply run_task_flag.
      - eapply run_task_flag; [done|]. intros Hl.
        pose proof (count_loops_pos _ _ _ Hi Hl) as Hpos.
        unfold single_flight in Hsf. rewrite Hp in Hsf. simpl in Hsf. lia. }
    rewrite Ht1.
    destruct (reschedule_split _ _ _ k Hi) as (l1 & l2 & Hts & ->).
    rewrite !elem_of_app. intros Hin.
    assert (Hcases : k = Some (QPlayback a p) ∨ QPlayback a p ∈ l1 ++ l2).
    { rewrite elem_of_app. destruct Hin as [?|[Hk|?]]; auto.
      destruct k; simpl in Hk; [|by apply not_elem_of_nil in Hk].
      apply list_elem_of_singleton in Hk. left. congruence. }
    assert (Hold : QPlayback a p ∈ l1 ++ l2 → QPlayback a p ∈ tasks s).
    { rewrite Hts, !elem_of_app, elem_of_cons. tauto. }
    assert (Hdec : (∃ a' p', t = QPlayback a' p') ∨ ∀ a' p', t ≠ QPlayback a' p')
      by (destruct t; eauto).
    destruct Hdec as [(a' & p' & ->)|Hnp].
    + apply run_task_playback in Hrun as ->.
      destruct Hcases as [?|Hin']; [done|].
      apply single_flight_le in Hsf. rewrite Hts in Hsf.
      by pose proof (others_not_loops _ _ _ _ Hsf eq_refl Hin').
    + eapply run_task_live in Hrun as [Hkeep Hnew]; [|done].
      destruct Hcases as [?|Hin']; [by eapply Hnew|].
      eapply Hkeep, Hs. eauto.
  - unfold playQueue in Hstep. intros a p.
    crunch; rewrite ?app_nil_r, ?elem_of_app, ?list_elem_of_singleton;
      try (intros [?|?]; [|done]); by eapply Hs.
Qed.

Lemma reachable_promises_live s : reachable s → promises_live s.
Proof.
  intros [ls Hrun].
  enough (single_flight s ∧ promises_live s) by tauto.
  eapply (run_invariant (λ s, single_flight s ∧ promises_live s)); [|done|].
  - intros l s1 s2 Hstep [? ?].
    eauto using step_single_flight, step_live.
  - split; [reflexivity|]. unfold promises_live. simpl.
    intros a p Hin. by apply not_elem_of_nil in Hin.
Qed.

(** A suspended function can always be resumed: the call it awaits may
    succeed. *)
Lemma resume_enabled s i t :
  promises_live s → tasks s !! i = Some t →
  is_Some (resume i (Resolved "") s).
Proof.
  intros Hs Hi. unfold resume. rewrite Hi. simpl.
  assert (Hrun : is_Some (run_task t (Resolved "") s)).
  { destruct t as [| | |?|? ?|a p|?| |[]|[]]; simpl; try by eexists.
    destruct (Hs a p) as [Hp|Hp]; [by eapply list_elem_of_lookup_2|..];
      unfold playVideo_settled; rewrite Hp; simpl; by eexists. }
  destruct Hrun as [[s1 k] ->]. simpl. by eexists.
Qed.

(** ** Stop *)

Lemma cancel_idemp p ps : cancel p (cancel p ps) = cancel p ps.
Proof.
  unfold cancel. destruct (ps !! p) as [[]|] eqn:Hp; rewrite ?Hp; try done.
  by rewrite list_lookup_insert_eq by (by eapply lookup_lt_Some).
Qed.

Lemma cmd_stop_frame s :
  isPlayingQueue (cmd_stop s) = isPlayingQueue s ∧
  stopRequested (cmd_stop s) = true ∧
  tasks (cmd_stop s) = tasks s ++ [CleanupLeave FromStop] ∧
  log (cmd_stop s) = log s ++ [EvLeaveVoice].
Proof. unfold cmd_stop. simpl. by destruct (currentPlayback s). Qed.

(** After a stop, however the suspended functions are resumed: the queues
    stay empty, the run is bounded by the rank, something can be resumed
    while a task is left, and once none is left no invocation of
    [playQueue] is running. *)
Lemma stopped_run_drains s0 ls s' :
  reachable s0 → queues_empty s0 → resumes ls → run ls s0 = Some s' →
  videoQueue s' = [] ∧ originalQueue s' = [] ∧
  length ls ≤ total_rank s0 ∧
  (tasks s' = [] → isPlayingQueue s' = false) ∧
  (tasks s' ≠ [] → is_Some (resume 0 (Resolved "") s')).
Proof.
  intros Hr Hq Hls Hrun.
  destruct (resumes_rank _ _ _ Hls Hrun Hq) as [[Hv Ho] Hlen].
  assert (Hr' : reachable s') by eauto using reachable_run.
  split_and!; auto; [lia| |].
  - intros Ht. apply reachable_single_flight in Hr'.
    unfold single_flight in Hr'. rewrite Ht in Hr'.
    by destruct (isPlayingQueue s').
  - intros Ht. destruct (tasks s') as [|t ts] eqn:Hts; [done|].
    eapply (resume_enabled s' 0 t); [by apply reachable_promises_live|].
    by rewrite Hts.
Qed.

(** C8: [stop] empties both queues and sets [stopRequested]; a second
    [stop] changes no variable of the program, it only calls [leaveVoice]
    once more.  After one [stop] as after two, however the suspended
    functions are resumed, the queues stay empty and within a bounded
    number of resumptions nothing is left running: [isPlayingQueue] is
    unset.  When no invocation of [playQueue] is running, [stop] leaves it
    so, and the next invocation clears [stopRequested]. *)
Theorem stop_idempotent (s : state) :
  reachable s →
  (videoQueue (cmd_stop s) = [] ∧ originalQueue (cmd_stop s) = [] ∧
   stopRequested (cmd_stop s) = true) ∧
  cmd_stop (cmd_stop s)
  = spawn (CleanupLeave FromStop) (emit EvLeaveVoice (cmd_stop s)) ∧
  (isPlayingQueue s = false →
   isPlayingQueue (cmd_stop s) = false ∧
   count_loops (tasks (cmd_stop s)) = 0 ∧
   stopRequested (playQueue (cmd_stop s)).1 = false) ∧
  (∀ s0 ls s',
     s0 = cmd_stop s ∨ s0 = cmd_stop (cmd_stop s) →
     resumes ls → run ls s0 = Some s' →
     videoQueue s' = [] ∧ originalQueue s' = [] ∧
     length ls ≤ total_rank s0 ∧
     (tasks s' = [] → isPlayingQueue s' = false) ∧
     (tasks s' ≠ [] → is_Some (resume 0 (Resolved "") s'))).
Proof.
  intros Hr. split_and!.
  - apply cmd_stop_queues_empty.
  - apply cmd_stop_queues_empty.
  - apply cmd_stop_frame.
  - unfold cmd_stop, spawn, cleanup_start. simpl.
    destruct (currentPlayback s) as [p|] eqn:Hc; simpl; rewrite ?Hc; simpl;
      by rewrite ?cancel_idemp.
  - intros Hp.
    assert (Hr1 : reachable (cmd_stop s))
      by (by eapply (reachable_step (Cmd Stop))).
    apply reachable_single_flight in Hr1. unfold single_flight in Hr1.
    destruct (cmd_stop_frame s) as (Hf & _).
    rewrite Hr1, Hf, Hp. split_and!; [done..|].
    unfold playQueue. rewrite Hf, Hp. simpl. by case_match.
  - intros s0 ls s' Hs0 Hls Hrun.
    assert (Hr1 : reachable (cmd_stop s))
      by (by eapply (reachable_step (Cmd Stop))).
    assert (Hr2 : reachable (cmd_stop (cmd_stop s)))
      by (by eapply (reachable_step (Cmd Stop))).
    eapply stopped_run_drains; [| |done..];
      destruct Hs0 as [->| ->]; auto using cmd_stop_queues_empty.
Qed.

Lemma stop_idempotent_witness :
  cmd_stop (cmd_stop first_playing)
  = spawn (CleanupLeave FromStop) (emit EvLeaveVoice (cmd_stop first_playing)).
Proof. apply (stop_idempotent first_playing), first_playing_reachable. Defined.

(** ** A stop before playback *)

Lemma cmd_stop_stopped s :
  single_flight s → Forall (λ t, before_playback t = true) (tasks s) →
  stopped (cmd_stop s).
Proof.
  intros Hsf Hb. destruct (cmd_stop_frame s) as (Hf & Hst & Ht & _).
  split_and!.
  - apply cmd_stop_queues_empty.
  - by apply (step_single_flight (Cmd Stop) s).
  - rewrite Ht. apply Forall_app. split; [done|]. by repeat constructor.
  - by left.
Qed.

Lemma run_task_stopped t o s s' k :
  run_task t o s = Some (s', k) → queues_empty s →
  before_playback t = true →
  (∀ a, t = QFetch a → stopRequested s = true) →
  streams (log s') = streams (log s) ∧
  before_playback_cont k = true ∧
  (∀ a, k ≠ Some (QFetch a)) ∧
  (stopRequested s' = stopRequested s
   ∨ (t = AddReply ∧ isPlayingQueue s = false)
   ∨ (t = CleanupDelay FromPlayQueue ∧ k = None)).
Proof.
  intros Hrun [Hv Ho] Hb Hf.
  destruct t as [| | |a|? ?|? ?|?| |[]|[]], o; try done;
    try (specialize (Hf a eq_refl));
    unfold_loop; unfold mbind, option_bind in *; crunch;
    try congruence; trace_simpl; split_and!; auto.
Qed.

Lemma resume_stopped i o s s' :
  resume i o s = Some s' → stopped s →
  stopped s' ∧ streams (log s') = streams (log s).
Proof.
  intros Hstep (Hq & Hsf & Hb & Hf).
  assert (Hsf' : single_flight s')
    by (by eapply (step_single_flight (Resume i o))).
  destruct (resume_rank _ _ _ _ Hstep Hq) as [Hq' _].
  unfold resume in Hstep.
  destruct (tasks s !! i) as [t|] eqn:Hi; simpl in *; [|done].
  destruct (run_task t o s) as [[s1 k]|] eqn:Hrun; simpl in *; [|done].
  simplify_eq.
  assert (Ht1 : tasks s1 = tasks s) by (by eapply run_task_rank).
  destruct (reschedule_split _ _ _ k Hi) as (l1 & l2 & Hts & Hres).
  assert (Hbt : before_playback t = true).
  { rewrite Forall_forall in Hb. apply Hb. by eapply list_elem_of_lookup_2. }
  assert (Hft : ∀ a, t = QFetch a → stopRequested s = true).
  { intros a ->. destruct Hf as [?|Hf]; [done|].
    exfalso. apply (Hf a). by eapply list_elem_of_lookup_2. }
  destruct (run_task_stopped _ _ _ _ _ Hrun Hq Hbt Hft)
    as (Hstr & Hbk & Hnk & Hstop).
  split; [|done]. split_and!; auto; simpl; rewrite Ht1, Hres.
  - rewrite Hts in Hb. apply Forall_app in Hb as [Hb1 Hb2].
    apply Forall_cons in Hb2 as [_ Hb2].
    rewrite !Forall_app. split_and!; auto.
    destruct k; simpl; by repeat constructor.
  - assert (Hsub : ∀ a, QFetch a ∈ l1 ++ option_list k ++ l2 →
                        QFetch a ∈ l1 ++ l2).
    { intros a. rewrite !elem_of_app. intros [?|[Hk|?]]; auto.
      destruct k; simpl in Hk; [|by apply not_elem_of_nil in Hk].
      apply list_elem_of_singleton in Hk. by destruct (Hnk a); subst. }
    assert (Hold : ∀ a, QFetch a ∈ l1 ++ l2 → QFetch a ∈ tasks s).
    { intros a. rewrite Hts, !elem_of_app, elem_of_cons. tauto. }
    destruct Hstop as [Hsame|[[-> Hp]|[-> ->]]].
    + destruct Hf as [Hf|Hf]; [left; congruence|].
      right. intros a Hin. apply (Hf a). auto.
    + right. intros a Hin%Hsub%Hold.
      unfold single_flight in Hsf. rewrite Hp in Hsf.
      by pose proof (count_loops_zero _ _ Hsf Hin).
    + right. intros a Hin%Hsub.
      apply single_flight_le in Hsf. rewrite Hts in Hsf.
      by pose proof (others_not_loops _ _ _ _ Hsf eq_refl Hin).
Qed.

Lemma resumes_stopped ls s s' :
  resumes ls → run ls s = Some s' → stopped s →
  stopped s' ∧ streams (log s') = streams (log s).
Proof.
  intros Hls. revert s. induction Hls as [|l ls Hl _ IH]; intros s Hrun Hs.
  - simpl in *. by simplify_eq.
  - simpl in Hrun. destruct l as [|i o|]; simplify_eq/=.
    destruct (resume i o s) as [s1|] eqn:Hs1; simplify_eq/=.
    apply resume_stopped in Hs1 as [Hs1 Hstr]; [|done].
    destruct (IH _ Hrun Hs1) as [? ?]. split; [done | congruence].
Qed.

(** ** The session is requested whenever [playQueue] starts *)

Lemma run_task_log t o s s' k :
  run_task t o s = Some (s', k) → ∃ es, log s' = log s ++ es.
Proof.
  intros Hrun.
  destruct t as [| | |?|? ?|? ?|?| |[]|[]], o;
    unfold_loop; unfold mbind, option_bind in *; crunch;
    first [ by exists []; rewrite app_nil_r
          | rewrite <- ?app_assoc; by eexists ].
Qed.

Lemma run_task_requested t o s s' k :
  run_task t o s = Some (s', k) →
  (isPlayingQueue s = true → acquisitions (log s) ≠ []) →
  (isPlayingQueue s' = true → acquisitions (log s') ≠ []) ∧
  (t = AddReply → acquisitions (log s') ≠ []).
Proof.
  intros Hrun Hs.
  destruct (run_task_log _ _ _ _ _ Hrun) as [es Hes].
  assert (Hmono : acquisitions (log s) ≠ [] → acquisitions (log s') ≠ []).
  { rewrite Hes, acquisitions_app. by destruct (acquisitions (log s)). }
  destruct (isPlayingQueue s) eqn:Hp; [by auto|].
  split; [|intros ->].
  - destruct t as [| | |?|? ?|? ?|?| |[]|[]], o;
      unfold_loop; unfold mbind, option_bind in *; crunch;
      try congruence; trace_simpl; intros _; by destruct (acquisitions _).
  - destruct o; simpl in Hrun; [|done]. rewrite Hp in Hrun.
    unfold playQueue in Hrun. rewrite Hp in Hrun. crunch;
      trace_simpl; by destruct (acquisitions _).
Qed.

Lemma resume_requested i o s s' :
  resume i o s = Some s' → session_requested s → session_requested s'.
Proof.
  unfold resume. intros Hstep [Hflag Hreq].
  destruct (tasks s !! i) as [t|] eqn:Hi; simpl in *; [|done].
  destruct (run_task t o s) as [[s1 k]|] eqn:Hrun; simpl in *; [|done].
  simplify_eq.
  destruct (run_task_requested _ _ _ _ _ Hrun Hflag) as [Hflag1 Hadd].
  destruct (run_task_log _ _ _ _ _ Hrun) as [es Hes].
  assert (Ht1 : tasks s1 = tasks s).
  { destruct t as [| | |?|? ?|? ?|?| |[]|[]], o;
      unfold_loop; unfold mbind, option_bind in *; crunch; done. }
  split; [done|]. simpl. rewrite Ht1.
  destruct Hreq as [Hin|Hacq].
  - destruct (decide (t = AddReply)) as [->|Hne]; [right; auto|].
    left. destruct (reschedule_split _ _ _ k Hi) as (l1 & l2 & Hts & ->).
    rewrite Hts in Hin. revert Hin.
    rewrite !elem_of_app, elem_of_cons. intros [?|[?|?]]; auto. congruence.
  - right. rewrite Hes, acquisitions_app. by destruct (acquisitions (log s)).
Qed.

Lemma resumes_requested ls s s' :
  resumes ls → run ls s = Some s' → session_requested s →
  session_requested s'.
Proof.
  intros Hls. revert s. induction Hls as [|l ls Hl _ IH]; intros s Hrun Hs.
  - simpl in *. by simplify_eq.
  - simpl in Hrun. destruct l as [|i o|]; simplify_eq/=.
    destruct (resume i o s) as [s1|] eqn:Hs1; simplify_eq/=.
    eauto using resume_requested.
Qed.

Lemma exec_log c s : ∃ es, log (exec c s) = log s ++ es.
Proof.
  destruct c as [u l|items|u|mode|].
  - simpl. unfold cmd_add, spawn. case_decide; simpl; by eexists.
  - simpl. unfold cmd_batch, spawn.
    destruct (filter _ items) as [|it links]; simpl; [by eexists|].
    destruct (enqueue_all_frame (it :: links) s) as (_ & _ & _ & _ & ->).
    by eexists.
  - simpl. unfold cmd_remove. crunch; by eexists.
  - simpl. unfold cmd_loop. crunch; by eexists.
  - change (exec Stop s) with (cmd_stop s).
    destruct (cmd_stop_frame s) as (_ & _ & _ & ->). by eexists.
Qed.

Lemma step_flag_requested l s s' :
  step l s = Some s' →
  (isPlayingQueue s = true → acquisitions (log s) ≠ []) →
  (isPlayingQueue s' = true → acquisitions (log s') ≠ []).
Proof.
  intros Hstep Hs. destruct l as [c|i o|]; simpl in *.
  - simplify_eq. destruct (exec_flag c s) as [-> _].
    destruct (exec_log c s) as [es ->]. intros Hp%Hs.
    rewrite acquisitions_app. by destruct (acquisitions (log s)).
  - unfold resume in Hstep.
    destruct (tasks s !! i) as [t|] eqn:Hi; simpl in *; [|done].
    destruct (run_task t o s) as [[s1 k]|] eqn:Hrun; simpl in *; [|done].
    simplify_eq. simpl. by eapply run_task_requested.
  - unfold playQueue in Hstep. crunch; auto;
      trace_simpl; intros _; by destruct (acquisitions _).
Qed.

Lemma reachable_flag_requested s :
  reachable s → isPlayingQueue s = true → acquisitions (log s) ≠ [].
Proof.
  intros [ls Hrun].
  eapply (run_invariant
            (λ s, isPlayingQueue s = true → acquisitions (log s) ≠ []));
    [apply step_flag_requested | exact Hrun | done].
Qed.

(** Counterexample to C5: [stop] arrives right after [add], while the
    add handler still awaits its reply.  The handler then calls
    [playQueue], which clears [stopRequested] and requests [joinVoice] and
    [createStream] before its loop finds the queue empty. *)
Lemma stop_then_session_acquired :
  ¬ stop_acquires_nothing ∧
  (s ← run (Cmd (Add "12345ABC" "local.mp4") :: Cmd Stop :: after_stop_run)
         init;
   Some (tasks s, isPlayingQueue s, acquisitions (log s), streams (log s)))
  = Some ([], false, [EvJoinVoice; EvCreateStream], []).
Proof.
  split; [|by vm_compute].
  intros Hclaim.
  destruct (run (Cmd (Add "12345ABC" "local.mp4") :: Cmd Stop :: after_stop_run)
              init) as [s'|] eqn:Hrun; [|by vm_compute in Hrun].
  assert (Hpost : resumes after_stop_run) by (by repeat constructor).
  assert (Hl : "local.mp4" ≠ "") by done.
  pose proof (Hclaim "12345ABC" "local.mp4" after_stop_run s' Hl Hpost Hrun)
    as Hacq.
  vm_compute in Hrun. simplify_eq. destruct (Hacq eq_refl) as [Hacq' _].
  vm_compute in Hacq'. discriminate.
Qed.

(** C5, amended: when stop arrives while no item has been handed to
    [playVideoWithConnection], then however the suspended functions are
    resumed afterwards, nothing is transmitted, the queues stay empty, and
    within a bounded number of resumptions nothing is left running and
    [isPlayingQueue] is unset.  The session is requested all the same: when
    all has come to rest after a stop that found an add handler suspended
    or the session already requested, [joinVoice] or [createStream] has
    been called. *)
Theorem stop_before_playback (s : state) :
  reachable s →
  Forall (λ t, before_playback t = true) (tasks s) →
  ∀ ls s', resumes ls → run ls (cmd_stop s) = Some s' →
    streams (log s') = streams (log s) ∧
    videoQueue s' = [] ∧ originalQueue s' = [] ∧
    length ls ≤ total_rank (cmd_stop s) ∧
    (tasks s' ≠ [] → is_Some (resume 0 (Resolved "") s')) ∧
    (tasks s' = [] →
     isPlayingQueue s' = false ∧
     (AddReply ∈ tasks s ∨ acquisitions (log s) ≠ [] →
      acquisitions (log s') ≠ [])).
Proof.
  intros Hr Hb ls s' Hls Hrun.
  assert (Hr1 : reachable (cmd_stop s))
    by (by eapply (reachable_step (Cmd Stop))).
  destruct (stopped_run_drains _ _ _ Hr1 (cmd_stop_queues_empty s) Hls Hrun)
    as (Hv & Ho & Hlen & Hidle & Hprog).
  assert (Hst : stopped (cmd_stop s))
    by (by apply cmd_stop_stopped; [apply reachable_single_flight|]).
  destruct (resumes_stopped _ _ _ Hls Hrun Hst) as [_ Hstr].
  destruct (cmd_stop_frame s) as (Hf & _ & Ht & Hl).
  split_and!; auto.
  - rewrite Hstr, Hl. by trace_simpl.
  - intros Hnil. split; [by apply Hidle|]. intros Hreq.
    assert (Hsr : session_requested (cmd_stop s)).
    { split.
      - by apply reachable_flag_requested.
      - rewrite Ht, Hl, acquisitions_app, elem_of_app.
        destruct Hreq as [?|?]; [by auto|].
        right. by destruct (acquisitions (log s)). }
    destruct (resumes_requested _ _ _ Hls Hrun Hsr) as [_ [Hin|?]]; [|done].
    rewrite Hnil in Hin. by apply not_elem_of_nil in Hin.
Qed.

Lemma one_item_reachable : reachable one_item.
Proof. exists [Cmd (Add "12345ABC" "local.mp4")]. vm_compute. reflexivity. Qed.

Lemma stop_before_playback_witness :
  ∃ s', run after_stop_run (cmd_stop one_item) = Some s' ∧
        streams (log s') = streams (log one_item) ∧
        videoQueue s' = [] ∧ originalQueue s' = [] ∧
        isPlayingQueue s' = false ∧ acquisitions (log s') ≠ [].
Proof.
  destruct (run after_stop_run (cmd_stop one_item)) as [s'|] eqn:Hrun;
    [|by vm_compute in Hrun].
  exists s'. split; [done|].
  destruct (stop_before_playback one_item one_item_reachable) with
    (ls := after_stop_run) (s' := s') as (H1 & H2 & H3 & _ & _ & H6).
  - vm_compute. by repeat constructor.
  - by repeat constructor.
  - done.
  - assert (Hnil : tasks s' = [])
      by (vm_compute in Hrun; by simplify_eq).
    destruct (H6 Hnil) as [H7 H8]. split_and!; auto.
    apply H8. left. vm_compute. by left.
Defined.

(** [before_playback] leaves out the tasks that stand between the last
    test of [stopRequested] (line 224) and the call of
    [streamLivestreamVideo].  A stop that arrives there, while the
    [Now Playing] message is awaited, finds [currentPlayback] null and
    cancels nothing: the item is transmitted. *)
Lemma stop_during_announce :
  tasks first_playing = [QAnnounce 0 "local.mp4"; AddReply] ∧
  streams (log first_playing) = [] ∧
  (s ← run [Cmd Stop; ok] first_playing;
   Some (tasks s !! 0, stopRequested s, streams (log s)))
  = Some (Some (QPlayback 0 0), true, [EvStream "local.mp4"]).
Proof. by vm_compute. Qed.

(** ** Playing the queue, and replaying it *)

(** The program on a local and a remote item, looping off: the session
    is acquired once, the local file is transmitted, the remote one is
    downloaded and its local copy transmitted, the session is released once
    and nothing is left running.  The items stay in [originalQueue]. *)
Lemma two_item_scenario :
  (s ← run scenario_run init;
   Some (tasks s, isPlayingQueue s, joined s, videoQueue s, originalQueue s))
  = Some ([], false, false, [], [0; 1]) ∧
  (s ← run scenario_run init;
   Some (acquisitions (log s), downloads (log s), streams (log s),
         leaves (log s)))
  = Some ([EvJoinVoice; EvCreateStream], [EvPreDownload "http://x/video"],
          [EvStream "local.mp4"; EvStream "videos/video_1.mp4"],
          [EvLeaveVoice]).
Proof. by vm_compute. Qed.

Lemma prefix_cons a s1 b s2 :
  String.prefix (String a s1) (String b s2)
  = if Ascii.ascii_dec a b then String.prefix s1 s2 else false.
Proof. done. Qed.

(** A link that starts with [http] is [http] followed by something. *)
Lemma startsWith_http_inv l :
  startsWith_http l = true → ∃ t, l = "http" +:+ t.
Proof.
  unfold startsWith_http. intros H.
  do 4 (destruct l as [|? l]; [done|]; rewrite prefix_cons in H;
        destruct (Ascii.ascii_dec _ _) as [<-|]; [|done]).
  by exists l.
Qed.

#[local] Arguments startsWith_http : simpl never.

Lemma run_app_Some ls1 ls2 s s1 :
  run ls1 s = Some s1 → run (ls1 ++ ls2) s = run ls2 s1.
Proof. intros H. by rewrite run_app, H. Qed.

(** Uses what is known of [startsWith_http] on the links. *)
Ltac use_http :=
  repeat match goal with
         | |- context [startsWith_http ?x] =>
             first [ replace (startsWith_http x) with true
                       by (symmetry; assumption)
                   | replace (startsWith_http x) with false
                       by (symmetry; assumption) ]
         end.

(** Runs one step that pops an item, from a state in normal form. *)
Ltac pop_step :=
  unfold ok; simpl; unfold resume; simpl; unfold_loop; simpl;
  unfold link_of, uid_of; simpl; use_http; reflexivity.

(** The run of two remote items from the initial state.  With looping on
    and two remote items A and B queued by [add], after both were popped,
    downloaded and played once, [videoQueue] is empty while [originalQueue]
    still holds A then B, whose links now are the downloaded paths.  The
    next iteration refills [videoQueue] from [originalQueue] and pops A, the
    one after pops B, and what is played is the downloaded path of each,
    with no new download. *)
Lemma two_remote_items_replay (uA lA uB lB pA pB rA rB r : string) :
  startsWith_http lA = true → startsWith_http lB = true →
  startsWith_http pA = false → startsWith_http pB = false →
  ∃ s1 s2 s3,
    run (first_pass uA lA uB lB pA pB rA rB) init = Some s1 ∧
    videoQueue s1 = [] ∧ originalQueue s1 = [0; 1] ∧
    heap s1 = [Item uA pA; Item uB pB] ∧
    tasks s1 = [QCooldown] ∧
    streams (log s1) = [EvStream pA; EvStream pB] ∧
    run [ok] s1 = Some s2 ∧
    tasks s2 = [QAnnounce 0 pA] ∧
    videoQueue s2 = [1] ∧ originalQueue s2 = [0; 1] ∧
    run (play_on r) s2 = Some s3 ∧
    tasks s3 = [QAnnounce 1 pB] ∧
    videoQueue s3 = [] ∧ originalQueue s3 = [0; 1] ∧
    heap s3 = [Item uA pA; Item uB pB] ∧
    streams (log s3) = [EvStream pA; EvStream pB; EvStream pA] ∧
    downloads (log s3) = [EvPreDownload lA; EvPreDownload lB].
Proof.
  intros HA HB HpA HpB.
  destruct (startsWith_http_inv _ HA) as [tA ->].
  destruct (startsWith_http_inv _ HB) as [tB ->].
  eexists _, _, _. split_and!.
  - unfold first_pass.
    erewrite run_app_Some by (vm_compute; reflexivity).
    erewrite run_app_Some by pop_step.
    erewrite run_app_Some by (vm_compute; reflexivity).
    erewrite run_app_Some by pop_step.
    vm_compute. reflexivity.
  - reflexivity.
  - reflexivity.
  - reflexivity.
  - reflexivity.
  - reflexivity.
  - pop_step.
  - reflexivity.
  - reflexivity.
  - reflexivity.
  - unfold play_on.
    erewrite run_app_Some by (vm_compute; reflexivity).
    pop_step.
  - reflexivity.
  - reflexivity.
  - reflexivity.
  - reflexivity.
  - reflexivity.
  - reflexivity.
Qed.

Lemma link_of_set_link (h : list item) (a : addr) (l : string) :
  a < length h → link_of (set_link a l h) a = l.
Proof.
  intros Hlt. unfold link_of, set_link.
  destruct (lookup_lt_is_Some_2 h a Hlt) as [it Hit]. rewrite Hit.
  by rewrite list_lookup_insert_eq.
Qed.

Lemma resume_at i t o s s1 k :
  tasks s !! i = Some t → run_task t o s = Some (s1, k) →
  resume i o s = Some (set_tasks (reschedule i k (tasks s1)) s1).
Proof. intros Hi Hr. unfold resume. rewrite Hi. simpl. by rewrite Hr. Qed.

(** [next.link = localPath] rewrites the item object, which both queues
    hold: when a download resolves, the item has the downloaded path as its
    link wherever it is looked up, and the queues are as they were. *)
Lemma fetch_rewrites_template (s : state) (i : nat) (next : addr)
    (localPath : string) :
  tasks s !! i = Some (QFetch next) → next < length (heap s) →
  ∃ s', resume i (Resolved localPath) s = Some s' ∧
        heap s' = set_link next localPath (heap s) ∧
        link_of (heap s') next = localPath ∧
        originalQueue s' = originalQueue s ∧ videoQueue s' = videoQueue s.
Proof.
  intros Hi Hlt.
  destruct (after_fetch next (set_heap (set_link next localPath (heap s)) s))
    as [s1 k] eqn:Haf.
  exists (set_tasks (reschedule i k (tasks s1)) s1). split.
  - eapply resume_at; [exact Hi|]. simpl. by rewrite Haf.
  - unfold after_fetch, exit_loop, cleanup_start, playVideo_start in Haf.
    simpl in Haf. destruct (stopRequested s); simplify_eq; simpl;
      rewrite link_of_set_link by done; done.
Qed.

Lemma pop_local (s : state) (a : addr) (rest : list addr) :
  stopRequested s = false → is_local (heap s) a →
  pop a rest s
  = (emit (EvNowPlaying (uid_of (heap s) a))
       (set_indicators true (set_videoQueue rest s)),
     Some (QAnnounce a (link_of (heap s) a))).
Proof.
  intros Hstop Hloc. unfold pop, after_fetch, playVideo_start. simpl.
  unfold is_local in Hloc. by rewrite Hloc, Hstop.
Qed.

(** One playback of a local item, from any state in which the loop is in
    its cooldown: the item at the front is popped, after a refill when
    [videoQueue] is empty and looping is on, and played; nothing else
    changes, whatever else is suspended. *)
Lemma play_one (i : nat) (o : outcome) (s : state) (a : addr)
    (rest : list addr) :
  tasks s !! i = Some QCooldown → stopRequested s = false →
  videoQueue s = a :: rest
  ∨ (videoQueue s = [] ∧ loopEnabled s = true ∧ originalQueue s = a :: rest) →
  is_local (heap s) a →
  ∃ s', run (playback i o) s = Some s' ∧
        videoQueue s' = rest ∧ originalQueue s' = originalQueue s ∧
        heap s' = heap s ∧ loopEnabled s' = loopEnabled s ∧
        stopRequested s' = false ∧ tasks s' = tasks s ∧
        log s' = log s ++ playback_trace (heap s) a o.
Proof.
  intros Hi Hstop Hq Hloc.
  assert (Hlt : i < length (tasks s)) by (by eapply lookup_lt_Some).
  assert (Hhead : loop_head s = pop a rest s).
  { unfold loop_head. rewrite Hstop.
    destruct Hq as [->|(-> & -> & ->)]; done. }
  unfold playback. simpl.
  erewrite resume_at; cycle 1.
  { exact Hi. }
  { simpl. rewrite Hhead, pop_local by done. reflexivity. }
  simpl.
  erewrite resume_at; cycle 1.
  { simpl. by apply list_lookup_insert_eq. }
  { simpl. reflexivity. }
  simpl.
  erewrite resume_at; cycle 1.
  { simpl. rewrite list_insert_insert_eq. by apply list_lookup_insert_eq. }
  { simpl. unfold playVideo_settled. simpl.
    rewrite lookup_app_r by done. rewrite Nat.sub_diag. simpl.
    instantiate (1 := Some (QFinished a)).
    instantiate (1 :=
      emit EvFinished
        (set_indicators false
           (emit (EvLogInfo ("Finished playing video: "
                             +:+ transmission_result o)) _))).
    destruct o; simpl; reflexivity. }
  simpl.
  erewrite resume_at; cycle 1.
  { simpl. rewrite !list_insert_insert_eq. by apply list_lookup_insert_eq. }
  { simpl. reflexivity. }
  simpl. eexists. split; [reflexivity|]. simpl.
  rewrite !list_insert_insert_eq, list_insert_id by done.
  rewrite <- !app_assoc. simpl. split_and!; try done.
Qed.

Lemma playbacks_cons i o os :
  playbacks i (o :: os) = playback i o ++ playbacks i os.
Proof. reflexivity. Qed.

(** The items of [videoQueue] are played from the front to the back. *)
Lemma play_all (i : nat) (q : list addr) (os : list outcome) (s : state) :
  tasks s !! i = Some QCooldown → stopRequested s = false →
  videoQueue s = q → Forall (is_local (heap s)) q → length os = length q →
  ∃ s', run (playbacks i os) s = Some s' ∧
        videoQueue s' = [] ∧ originalQueue s' = originalQueue s ∧
        heap s' = heap s ∧ loopEnabled s' = loopEnabled s ∧
        stopRequested s' = false ∧ tasks s' = tasks s ∧
        log s' = log s ++ mjoin (zip_with (playback_trace (heap s)) q os).
Proof.
  revert os s. induction q as [|a q IH]; intros [|o os] s Hi Hstop Hq Hloc Hlen;
    simpl in Hlen; simplify_eq.
  - exists s. simpl. rewrite app_nil_r. by split_and!.
  - apply Forall_cons in Hloc as [Ha Hloc].
    destruct (play_one i o s a q Hi Hstop (or_introl Hq) Ha)
      as (s1 & Hrun1 & Hv1 & Ho1 & Hh1 & Hl1 & Hs1 & Ht1 & Hlog1).
    destruct (IH os s1) as (s' & Hrun & Hv & Ho & Hh & Hl & Hs & Ht & Hlog);
      [congruence..| by rewrite Hh1 | done |].
    exists s'. rewrite playbacks_cons, (run_app_Some _ _ _ _ Hrun1), Hrun.
    simpl.
    rewrite Hlog, Hlog1, Hh1, <- app_assoc.
    split_and!; first [congruence | reflexivity].
Qed.

(** C4: the loop-replay law, for every state and whatever else is
    suspended.  First, [next.link = localPath] is seen through
    [originalQueue]: when the download of a popped item resolves, the item
    object has the downloaded path as its link, and both queues, which
    hold that object, are as they were.  Second, in every state in which
    looping is on, no stop is requested, the invocation of [playQueue] is
    in the cooldown after a playback, [videoQueue] is empty because every
    item was popped, and [originalQueue] holds the items A, B, ... with
    links that are local paths, the next iteration refills [videoQueue]
    with the copy of [originalQueue] and pops A; and the next playbacks
    are those of A, B, ... in the order of [originalQueue], each announced
    with its uid and transmitted from the link that the item has in
    [originalQueue], with no download, whatever becomes of each
    transmission.  After the last the loop is where it started, so the
    replay goes on. *)
Theorem loop_replay (s : state) (i : nat) :
  (∀ next localPath,
     tasks s !! i = Some (QFetch next) → next < length (heap s) →
     ∃ s', resume i (Resolved localPath) s = Some s' ∧
           heap s' = set_link next localPath (heap s) ∧
           link_of (heap s') next = localPath ∧
           originalQueue s' = originalQueue s ∧
           videoQueue s' = videoQueue s) ∧
  (∀ a q o os,
     tasks s !! i = Some QCooldown →
     loopEnabled s = true → stopRequested s = false →
     videoQueue s = [] → originalQueue s = a :: q →
     Forall (is_local (heap s)) (a :: q) →
     length os = length q →
     (∃ s1, resume i (Resolved "") s = Some s1 ∧
            videoQueue s1 = q ∧ originalQueue s1 = a :: q ∧
            heap s1 = heap s ∧
            tasks s1 = <[i := QAnnounce a (link_of (heap s) a)]> (tasks s)) ∧
     ∃ s', run (playbacks i (o :: os)) s = Some s' ∧
           videoQueue s' = [] ∧ originalQueue s' = a :: q ∧
           heap s' = heap s ∧
           loopEnabled s' = true ∧ stopRequested s' = false ∧
           tasks s' = tasks s ∧
           log s' = log s ++ mjoin (zip_with (playback_trace (heap s))
                                      (a :: q) (o :: os))).
Proof.
  split; [intros next localPath; apply fetch_rewrites_template|].
  intros a q o os Hi Hloop Hstop Hv Ho Hloc Hlen.
  apply Forall_cons in Hloc as [Ha Hloc]. split.
  - eexists. split.
    + eapply resume_at; [exact Hi|]. simpl. unfold loop_head.
      rewrite Hstop, Hv, Hloop, Ho, pop_local by done. reflexivity.
    + simpl. by rewrite Ho.
  - destruct (play_one i o s a q Hi Hstop) as
      (s1 & Hrun1 & Hv1 & Ho1 & Hh1 & Hl1 & Hs1 & Ht1 & Hlog1); [auto..|].
    destruct (play_all i q os s1) as
      (s' & Hrun & Hv' & Ho' & Hh & Hl & Hs & Ht & Hlog);
      [congruence..| by rewrite Hh1 | done |].
    exists s'. rewrite playbacks_cons, (run_app_Some _ _ _ _ Hrun1), Hrun.
    simpl.
    rewrite Hlog, Hlog1, Hh1, <- app_assoc.
    split_and!; first [congruence | reflexivity].
Qed.

Lemma loop_replay_witness :
  (∃ s', resume 0 (Resolved "videos/video_1.mp4") fetching_state = Some s' ∧
         link_of (heap s') 0 = "videos/video_1.mp4" ∧
         originalQueue s' = originalQueue fetching_state) ∧
  ∃ s', run (playbacks 0 [Resolved "r1"; Rejected]) replay_state = Some s' ∧
        videoQueue s' = [] ∧ originalQueue s' = [0; 1] ∧
        log s'
        = log replay_state
          ++ [EvNowPlaying "11111AAA"; EvStream "videos/a.mp4";
              EvLogInfo "Finished playing video: r1"; EvFinished;
              EvNowPlaying "22222BBB"; EvStream "videos/b.mp4";
              EvLogInfo "Finished playing video: error skipped"; EvFinished].
Proof.
  split.
  - destruct (loop_replay fetching_state 0) as [Hfetch _].
    destruct (Hfetch 0 "videos/video_1.mp4")
      as (s' & Hres & _ & Hlink & Ho & _);
      [vm_compute; reflexivity | vm_compute; lia |].
    exists s'. split_and!; [exact Hres | exact Hlink | exact Ho].
  - destruct (loop_replay replay_state 0) as [_ Hreplay].
    destruct (Hreplay 0 [1] (Resolved "r1") [Rejected])
      as (_ & s' & Hrun & Hv & Ho & _ & _ & _ & _ & Hlog);
      [vm_compute; reflexivity..| | reflexivity |].
    + repeat constructor; vm_compute; reflexivity.
    + exists s'. split_and!; [exact Hrun | exact Hv | exact Ho | exact Hlog].
Defined.

(** ** With distinct uids, [videoQueue] is a suffix of [originalQueue] *)

(** The first item with a given uid splits a queue in one way only. *)
Lemma first_split_unique h u (x1 y1 x2 y2 : list addr) a b :
  x1 ++ a :: y1 = x2 ++ b :: y2 →
  uid_of h a = u → uid_of h b = u →
  u ∉ uids h x1 → u ∉ uids h x2 →
  x1 = x2 ∧ a = b ∧ y1 = y2.
Proof.
  intros Heq Ha Hb. revert x2 Heq.
  induction x1 as [|c x1 IH]; intros [|d x2] Heq H1 H2;
    injection Heq as Hhd Htl.
  - done.
  - exfalso. apply H2. apply elem_of_cons. left. congruence.
  - exfalso. apply H1. apply elem_of_cons. left. congruence.
  - subst d. destruct (IH x2 Htl) as (-> & -> & ->); auto.
    + intros Hin. apply H1. by right.
    + intros Hin. apply H2. by right.
Qed.

Lemma suffix_remove h u (vq oq : list addr) i j :
  suffix vq oq → NoDup (uids h oq) →
  findIndex h u vq = Some i → findIndex h u oq = Some j →
  suffix (delete i vq) (delete j oq).
Proof.
  intros [k ->] Hnd Hi Hj.
  apply findIndex_split in Hi as (a & l1 & l2 & Hv & _ & Hua & Hl1 & ->).
  apply findIndex_split in Hj as (b & m1 & m2 & Ho & _ & Hub & Hm1 & ->).
  rewrite Hv in Ho, Hnd.
  assert (Hk : u ∉ uids h (k ++ l1)).
  { rewrite uids_app. rewrite !uids_app in Hnd. simpl in Hnd.
    apply NoDup_app in Hnd as (_ & Hdis & _).
    intros [Hin|Hin]%elem_of_app; [|done].
    apply (Hdis _ Hin). rewrite elem_of_app, elem_of_cons. auto. }
  rewrite (assoc_L (++)) in Ho.
  destruct (first_split_unique h u _ _ _ _ _ _ Ho Hua Hub Hk Hm1)
    as (<- & _ & <-).
  exists k. by rewrite (assoc_L (++)).
Qed.

Lemma suffix_enqueue_all links s :
  suffix (videoQueue s) (originalQueue s) →
  suffix (videoQueue (enqueue_all links s))
         (originalQueue (enqueue_all links s)).
Proof.
  unfold enqueue_all. revert s.
  induction links as [|it links IH]; intros s Hs; simpl; [done|].
  apply IH. simpl. by apply suffix_app.
Qed.

Lemma step_suffix l s s' :
  step l s = Some s' → distinct_uids s →
  suffix (videoQueue s) (originalQueue s) →
  suffix (videoQueue s') (originalQueue s').
Proof.
  intros Hstep Hd Hs. destruct l as [c|i o|]; simpl in *.
  - simplify_eq. destruct c as [u l|items|u|mode|].
    + simpl. unfold cmd_add. case_decide; simpl; [done|]. by apply suffix_app.
    + simpl. unfold cmd_batch.
      destruct (filter _ items) as [|it links]; [done|].
      by apply (suffix_enqueue_all (it :: links)).
    + simpl. unfold cmd_remove. case_decide; [done|].
      destruct (findIndex _ u (videoQueue s)) as [i|] eqn:Hi; [|done].
      destruct (findIndex _ u (originalQueue s)) as [j|] eqn:Hj; [|done].
      simpl. by eapply suffix_remove.
    + simpl. unfold cmd_loop. repeat case_decide; done.
    + destruct (cmd_stop_queues_empty s) as [Hv Ho].
      change (exec Stop s) with (cmd_stop s). rewrite Hv, Ho. done.
  - unfold resume in Hstep.
    destruct (tasks s !! i) as [t|]; simpl in *; [|done].
    destruct (run_task t o s) as [[s1 k]|] eqn:Hrun; simpl in *; [|done].
    simplify_eq. simpl.
    destruct t, o; unfold_loop; unfold mbind, option_bind in *; crunch;
      repeat match goal with
             | H : videoQueue _ = _ |- _ => rewrite H in Hs
             | H : originalQueue _ = _ |- _ => rewrite H in Hs
             | H : originalQueue _ = _ |- _ => rewrite H
             | H : videoQueue _ = _ |- _ => rewrite H
             end;
      eauto using suffix_cons_l, suffix_cons_r.
  - unfold playQueue in Hstep. crunch; done.
Qed.

Lemma run_suffix ls s s' :
  run ls s = Some s' → always distinct_uids ls s →
  suffix (videoQueue s) (originalQueue s) →
  suffix (videoQueue s') (originalQueue s').
Proof.
  revert s. induction ls as [|l ls IH]; intros s Hrun Hd Hs; simpl in *.
  - by simplify_eq.
  - destruct Hd as [Hd Hrest].
    destruct (step l s) as [s1|] eqn:Hl; simplify_eq/=.
    eauto using step_suffix.
Qed.

(** C6: in every state the program reaches, whatever commands were given
    and however the loop was interleaved with them, [videoQueue] is
    [originalQueue] with some items left out, in the same order; so are
    their uids, and every uid of [videoQueue] is a uid of [originalQueue].
    Along a run in which no two items of [originalQueue] ever carry the
    same uid, [videoQueue] is moreover a suffix of [originalQueue]. *)
Theorem queue_pair_invariant (ls : list label) (s : state) :
  run ls init = Some s →
  sublist (videoQueue s) (originalQueue s) ∧
  sublist (uids (heap s) (videoQueue s)) (uids (heap s) (originalQueue s)) ∧
  (∀ u, u ∈ uids (heap s) (videoQueue s) →
        u ∈ uids (heap s) (originalQueue s)) ∧
  (always distinct_uids ls init → suffix (videoQueue s) (originalQueue s)).
Proof.
  intros Hrun.
  assert (Hr : reachable s) by (by exists ls).
  destruct (reachable_queue_pair s Hr) as (Hs & _ & _).
  assert (Hu : sublist (uids (heap s) (videoQueue s))
                       (uids (heap s) (originalQueue s)))
    by (unfold uids; by apply fmap_sublist).
  split_and!; [done..| |].
  - intros u Hin. by eapply elem_of_sublist.
  - intros Hd. eapply run_suffix; [done..|]. simpl. apply suffix_nil.
Qed.

Lemma queue_pair_invariant_witness :
  sublist (videoQueue first_playing) (originalQueue first_playing) ∧
  suffix (videoQueue first_playing) (originalQueue first_playing).
Proof.
  destruct (queue_pair_invariant first_playing_run first_playing
              first_playing_run_spec) as (H1 & _ & _ & H2).
  split; [exact H1|]. apply H2.
  vm_compute. repeat split; apply (bool_decide_unpack _); vm_compute; exact I.
Defined.

(** ** The bot at rest *)

Lemma at_stage_reschedule W s s1 i t k :
  tasks s !! i = Some t → tasks s1 = tasks s →
  (∃ t', k = Some t' ∧ W t' = true) ∨ (at_stage W s ∧ W t = false) →
  at_stage W (set_tasks (reschedule i k (tasks s1)) s1).
Proof.
  intros Hi Ht [(t' & -> & Hw)|[(t' & Hin & Hw) Hnw]];
    unfold at_stage; simpl; rewrite Ht.
  - exists t'. split; [|done].
    apply list_elem_of_lookup. exists i.
    apply list_lookup_insert_eq. by eapply lookup_lt_Some.
  - exists t'. split; [|done].
    apply list_elem_of_lookup in Hin as [j Hj].
    assert (i ≠ j) by (intros ->; congruence).
    apply list_elem_of_lookup. destruct k as [t''|]; simpl.
    + exists j. by rewrite list_lookup_insert_ne.
    + destruct (decide (j < i)).
      * exists j. by rewrite list_lookup_delete_lt.
      * exists (pred j). rewrite list_lookup_delete_ge by lia.
        replace (S (pred j)) with j by lia. done.
Qed.

Lemma at_stage_mono W s s' ts :
  tasks s' = tasks s ++ ts → at_stage W s → at_stage W s'.
Proof.
  intros Ht (t & Hin & Hw). exists t. split; [|done].
  rewrite Ht. apply elem_of_app. by left.
Qed.

(** A command handler, up to its first [await], suspends itself at
    most, and resets no flag of the session. *)
Lemma exec_flags c s :
  (∃ ts, tasks (exec c s) = tasks s ++ ts ∧
         ∀ t, t ∈ ts → t = AddReply ∨ t = CleanupLeave FromStop) ∧
  joined (exec c s) = joined s ∧ joinsucc (exec c s) = joinsucc s ∧
  playing (exec c s) = playing s ∧ speaking (exec c s) = speaking s ∧
  videoStatus (exec c s) = videoStatus s ∧
  currentPlayback (exec c s) = currentPlayback s.
Proof.
  assert (Hnil : ∃ ts, tasks s = tasks s ++ ts ∧
                   ∀ t, t ∈ ts → t = AddReply ∨ t = CleanupLeave FromStop).
  { exists []. rewrite app_nil_r. split; [done|].
    intros t Hin. by apply not_elem_of_nil in Hin. }
  assert (Hone : ∀ t0, t0 = AddReply ∨ t0 = CleanupLeave FromStop →
                 ∃ ts, tasks s ++ [t0] = tasks s ++ ts ∧
                   ∀ t, t ∈ ts → t = AddReply ∨ t = CleanupLeave FromStop).
  { intros t0 Ht0. exists [t0]. split; [done|].
    intros t Hin. apply list_elem_of_singleton in Hin. by subst. }
  destruct c as [u l|items|u|mode|]; simpl.
  - unfold cmd_add, spawn. case_decide; simpl; split_and!; auto.
  - unfold cmd_batch, spawn.
    destruct (filter _ items) as [|it links]; simpl; [split_and!; auto|].
    destruct (enqueue_all_frame (it :: links) s) as (_ & _ & _ & -> & _).
    split_and!; auto; unfold enqueue_all;
      generalize (it :: links); intros l; clear; revert s;
      induction l as [|? ? IH]; intros s; simpl; auto; by rewrite IH.
  - unfold cmd_remove. crunch; split_and!; auto.
  - unfold cmd_loop. crunch; split_and!; auto.
  - unfold cmd_stop. simpl. destruct (currentPlayback s) eqn:Hc; simpl;
      rewrite ?Hc; split_and!; auto.
Qed.

Lemma run_task_flags_held t o s s' k :
  run_task t o s = Some (s', k) →
  tasks s' = tasks s ∧
  (joined s' = true →
   (∃ t', k = Some t' ∧ holds_session t' = true)
   ∨ (joined s = true ∧ holds_session t = false)) ∧
  (speaking s' = true ∨ videoStatus s' = true →
   (∃ t', k = Some t' ∧ in_transmission t' = true)
   ∨ ((speaking s = true ∨ videoStatus s = true)
      ∧ in_transmission t = false)
   ∨ send_failed s') ∧
  (is_Some (currentPlayback s') →
   (∃ t', k = Some t' ∧ has_playback t' = true)
   ∨ (is_Some (currentPlayback s) ∧ has_playback t = false)
   ∨ send_failed s') ∧
  (joinsucc s = false → joinsucc s' = false) ∧
  (playing s = false → playing s' = false).
Proof.
  intros Hrun.
  assert (Hfail : send_failed (emit play_error s)).
  { unfold send_failed. simpl. apply elem_of_app. right. by left. }
  destruct t as [| | |?|? ?|? ?|?| |[]|[]], o;
    unfold_loop; unfold mbind, option_bind in *; crunch;
    (split_and!; [done|..]); simpl;
    try (intros [?|?]; done); try (intros [? ?]; done); try done;
    eauto 6.
Qed.

Lemma step_send_failed l s s' :
  step l s = Some s' → send_failed s → send_failed s'.
Proof.
  unfold send_failed. intros Hstep Hin.
  assert (∃ es, log s' = log s ++ es) as [es ->];
    [|apply elem_of_app; by left].
  destruct l as [c|i o|]; simpl in *.
  - simplify_eq. apply exec_log.
  - unfold resume in Hstep.
    destruct (tasks s !! i) as [t|]; simpl in *; [|done].
    destruct (run_task t o s) as [[s1 k]|] eqn:Hrun; simpl in *; [|done].
    simplify_eq. simpl. by eapply run_task_log.
  - unfold playQueue in Hstep. crunch;
      first [ by exists []; rewrite app_nil_r | by eexists ].
Qed.

Lemma step_flags_held l s s' :
  step l s = Some s' → flags_held s → flags_held s'.
Proof.
  intros Hstep (Hj & Hsp & Hc & Hjs & Hpl).
  pose proof (step_send_failed l s s' Hstep) as Hfail.
  destruct l as [c|i o|]; simpl in *.
  - simplify_eq. unfold flags_held.
    destruct (exec_flags c s) as ((ts & Hts & _) & -> & -> & -> & -> & -> & ->).
    split_and!; auto.
    + intros H. eapply at_stage_mono; eauto.
    + intros H. destruct (Hsp H); [left|right]; eauto using at_stage_mono.
    + intros H. destruct (Hc H); [left|right]; eauto using at_stage_mono.
  - unfold resume in Hstep.
    destruct (tasks s !! i) as [t|] eqn:Hi; simpl in *; [|done].
    destruct (run_task t o s) as [[s1 k]|] eqn:Hrun; simpl in *; [|done].
    simplify_eq.
    apply run_task_flags_held in Hrun as (Ht & Hj1 & Hsp1 & Hc1 & Hjs1 & Hpl1).
    split_and!; simpl; auto.
    + intros H. eapply at_stage_reschedule; eauto.
      destruct (Hj1 H) as [?|[? ?]]; auto.
    + intros H. destruct (Hsp1 H) as [?|[[Hold ?]|?]]; [| |by right].
      * left. eapply at_stage_reschedule; eauto.
      * destruct (Hsp Hold); [left|right]; auto.
        eapply at_stage_reschedule; eauto.
    + intros H. destruct (Hc1 H) as [?|[[Hold ?]|?]]; [| |by right].
      * left. eapply at_stage_reschedule; eauto.
      * destruct (Hc Hold); [left|right]; auto.
        eapply at_stage_reschedule; eauto.
  - destruct (playQueue s) as [s1 k] eqn:Hp. simplify_eq.
    assert (Hfr : joined s1 = joined s ∧ speaking s1 = speaking s ∧
                  videoStatus s1 = videoStatus s ∧
                  currentPlayback s1 = currentPlayback s ∧
                  joinsucc s1 = joinsucc s ∧ playing s1 = playing s ∧
                  tasks s1 = tasks s)
      by (unfold playQueue in Hp; crunch; done).
    destruct Hfr as (Hf1 & Hf2 & Hf3 & Hf4 & Hf5 & Hf6 & Hf7).
    assert (Hmono : ∀ W, at_stage W s →
              at_stage W (set_tasks (tasks s1 ++ option_list k) s1)).
    { intros W. apply (at_stage_mono _ _ _ (option_list k)).
      simpl. by rewrite Hf7. }
    unfold flags_held. simpl. rewrite Hf1, Hf2, Hf3, Hf4, Hf5, Hf6.
    split_and!; auto.
    + intros H. destruct (Hsp H); [left|right]; auto.
    + intros H. destruct (Hc H); [left|right]; auto.
Qed.

Lemma reachable_flags_held s : reachable s → flags_held s.
Proof.
  intros [ls Hrun].
  eapply (run_invariant flags_held); eauto using step_flags_held.
  split_and!; try done.
  - intros [?|?]; done.
  - intros [? ?]; done.
Qed.

Lemma at_stage_nil W s : tasks s = [] → ¬ at_stage W s.
Proof. intros Ht (t & Hin & _). rewrite Ht in Hin. by apply not_elem_of_nil in Hin. Qed.

(** X1: on the runs of the queue commands ([add], [batch], [remove],
    [loop], [stop] and the resumptions of their functions; [random] is not
    one of them), when every suspended function has returned the queue is
    idle: [isPlayingQueue] is clear and so is every flag of [streamStatus]
    that [cleanupStreamStatus] resets.  When moreover no message of a
    playback has failed to be sent, the speaking and video indicators are
    off and [currentPlayback] is null. *)
Theorem rest_is_idle (s : state) :
  reachable s → tasks s = [] →
  isPlayingQueue s = false ∧
  joined s = false ∧ joinsucc s = false ∧ playing s = false ∧
  (¬ send_failed s →
   speaking s = false ∧ videoStatus s = false ∧ currentPlayback s = None).
Proof.
  intros Hr Ht.
  pose proof (reachable_single_flight s Hr) as Hsf.
  destruct (reachable_flags_held s Hr) as (Hj & Hsp & Hc & Hjs & Hpl).
  unfold single_flight in Hsf. rewrite Ht in Hsf.
  pose proof (at_stage_nil holds_session s Ht).
  pose proof (at_stage_nil in_transmission s Ht).
  pose proof (at_stage_nil has_playback s Ht).
  split_and!; auto.
  - by destruct (isPlayingQueue s).
  - destruct (joined s); [|done]. exfalso; auto.
  - intros Hok. split_and!.
    + destruct (speaking s); [|done]. exfalso. destruct Hsp; auto.
    + destruct (videoStatus s); [|done]. exfalso. destruct Hsp; auto.
    + destruct (currentPlayback s); [|done]. exfalso. destruct Hc; eauto.
Qed.

Lemma rest_is_idle_witness :
  isPlayingQueue played_out = false ∧
  joined played_out = false ∧ joinsucc played_out = false ∧
  playing played_out = false ∧
  speaking played_out = false ∧ videoStatus played_out = false ∧
  currentPlayback played_out = None.
Proof.
  destruct (rest_is_idle played_out) as (H1 & H2 & H3 & H4 & H5).
  - exists scenario_run. vm_compute. reflexivity.
  - vm_compute. reflexivity.
  - split_and!; [done..|]. apply H5.
    apply (bool_decide_unpack _). vm_compute. exact I.
Defined.

(** Why the indicators and [currentPlayback] need the condition.  When
    the announcement of an item cannot be sent, [playVideoWithConnection]
    throws before its [try]: the loop goes on and comes to rest with the
    speaking and video indicators still on.  When the closing message
    cannot be sent, it throws in its [finally] before
    [currentPlayback = null], and the settled promise stays in
    [currentPlayback]. *)
Lemma rest_after_failed_message :
  (s ← run failed_announcement_run init;
   Some (tasks s, isPlayingQueue s, joined s, speaking s, videoStatus s,
         streams (log s)))
  = Some ([], false, false, true, true, []) ∧
  (s ← run failed_closing_run init;
   Some (tasks s, isPlayingQueue s, speaking s, currentPlayback s))
  = Some ([], false, false, Some 0).
Proof. by vm_compute. Qed.

Lemma holds_session_is_loop t : holds_session t = true → is_loop t = true.
Proof. by destruct t as [| | |?|? ?|? ?|?| |[]|[]]. Qed.

Lemma at_stage_loop_flag W s :
  single_flight s → (∀ t, W t = true → is_loop t = true) →
  at_stage W s → isPlayingQueue s = true.
Proof.
  intros Hsf HW (t & [i Hi]%list_elem_of_lookup & Hw).
  pose proof (count_loops_pos _ _ _ Hi (HW _ Hw)) as Hpos.
  unfold single_flight in Hsf. destruct (isPlayingQueue s); simpl in *; [done|lia].
Qed.

(** X2: with the commands of the queue, [playQueue] never finds
    [streamStatus.joined] set when it starts. *)
Theorem playQueue_joins_voice (s : state) :
  reachable s → isPlayingQueue s = false →
  joined s = false ∧
  playQueue s
  = (emit EvJoinVoice (set_stopRequested false (set_isPlayingQueue true s)),
     Some QJoin).
Proof.
  intros Hr Hp.
  assert (Hj : joined s = false).
  { destruct (joined s) eqn:Hj; [|done].
    destruct (reachable_flags_held s Hr) as (Hh & _).
    assert (isPlayingQueue s = true); [|congruence].
    apply (at_stage_loop_flag holds_session);
      auto using reachable_single_flight, holds_session_is_loop. }
  split; [done|]. unfold playQueue. rewrite Hp. simpl. by rewrite Hj.
Qed.

Lemma playQueue_joins_voice_witness :
  joined played_out = false ∧
  playQueue played_out
  = (emit EvJoinVoice
       (set_stopRequested false (set_isPlayingQueue true played_out)),
     Some QJoin).
Proof.
  apply (playQueue_joins_voice played_out).
  - exists scenario_run. vm_compute. reflexivity.
  - vm_compute. reflexivity.
Defined.

(** ** Items added while the loop unwinds *)








(** ** The length of a playback *)

(** With looping off every step of a task uses up one of the [await]s
    that are left. *)
Lemma run_task_work t o s s' k :
  run_task t o s = Some (s', k) → loopEnabled s = false →
  loopEnabled s' = false ∧ tasks s' = tasks s ∧
  rank_cont k + 5 * length (videoQueue s')
  < rank t + 5 * length (videoQueue s).
Proof.
  intros Hrun Hloop.
  destruct t as [| | |?|? ?|? ?|?| |[]|[]], o;
    unfold_loop; unfold mbind, option_bind in *; crunch;
    try congruence;
    repeat match goal with
           | H : videoQueue _ = _ |- _ => rewrite H
           end;
    simpl; split_and!; auto; lia.
Qed.

Lemma resume_work i o s s' :
  resume i o s = Some s' → loopEnabled s = false →
  loopEnabled s' = false ∧ work s' < work s.
Proof.
  unfold resume. intros Hstep Hloop.
  destruct (tasks s !! i) as [t|] eqn:Hi; simpl in *; [|done].
  destruct (run_task t o s) as [[s1 k]|] eqn:Hrun; simpl in *; [|done].
  simplify_eq. apply run_task_work in Hrun as (Hl1 & Ht & Hlt); [|done].
  split; [done|]. unfold work, total_rank. simpl. rewrite Ht.
  pose proof (sum_rank_reschedule _ _ _ k Hi). lia.
Qed.

(** X4: with looping off, a run in which no command arrives has at most
    as many steps as there are [await]s left: five for each queued item
    and those of the functions already suspended. *)
Theorem loop_off_bounded (ls : list label) (s s' : state) :
  loopEnabled s = false → resumes ls → run ls s = Some s' →
  loopEnabled s' = false ∧ length ls + work s' ≤ work s.
Proof.
  intros Hloop Hls. revert s Hloop.
  induction Hls as [|l ls Hl _ IH]; intros s Hloop Hrun.
  - simpl in *. simplify_eq. split; [done | lia].
  - simpl in Hrun. destruct l as [|i o|]; simplify_eq/=.
    destruct (resume i o s) as [s1|] eqn:Hs1; simplify_eq/=.
    apply resume_work in Hs1 as [Hl1 Hlt]; [|done].
    destruct (IH _ Hl1 Hrun). split; [done | lia].
Qed.

Lemma loop_off_bounded_witness :
  loopEnabled played_out = false ∧
  length (drop 1 scenario_run) + work played_out
  ≤ work (exec (Batch [("11111AAA", "local.mp4");
                       ("22222BBB", "http://x/video")]) init).
Proof.
  apply (loop_off_bounded (drop 1 scenario_run)).
  - vm_compute. reflexivity.
  - apply (bool_decide_unpack _). vm_compute. exact I.
  - vm_compute. reflexivity.
Defined.

(** X5: with looping off, every reachable state can come to rest: the
    functions suspended can be resumed one after the other until none is
    left, in no more steps than there are [await]s left. *)
Theorem loop_off_comes_to_rest (s : state) :
  reachable s → loopEnabled s = false →
  ∃ ls s', resumes ls ∧ run ls s = Some s' ∧ tasks s' = [] ∧
           length ls ≤ work s.
Proof.
  remember (work s) as n eqn:Hn. revert s Hn.
  induction n as [n IH] using lt_wf_ind. intros s Hn Hr Hloop.
  destruct (tasks s) as [|t ts] eqn:Hts.
  - exists [], s. split_and!; [by constructor | done | done | simpl; lia].
  - destruct (resume_enabled s 0 t) as [s1 Hs1];
      [by apply reachable_promises_live | by rewrite Hts |].
    pose proof (resume_work _ _ _ _ Hs1 Hloop) as [Hl1 Hlt].
    assert (Hr1 : reachable s1)
      by (by eapply (reachable_step (Resume 0 (Resolved "")))).
    destruct (IH (work s1) ltac:(lia) s1 eq_refl Hr1 Hl1)
      as (ls & s' & Hls & Hrun & Hrest & Hlen).
    exists (Resume 0 (Resolved "") :: ls), s'. split_and!; auto.
    + by constructor.
    + simpl. by rewrite Hs1.
    + simpl. lia.
Qed.

Lemma loop_off_comes_to_rest_witness :
  ∃ ls s', resumes ls ∧ run ls two_items = Some s' ∧ tasks s' = [] ∧
           length ls ≤ work two_items.
Proof.
  apply (loop_off_comes_to_rest two_items).
  - exists [Cmd (Add "11111AAA" "local.mp4");
            Cmd (Add "22222BBB" "http://x/video")].
    vm_compute. reflexivity.
  - vm_compute. reflexivity.
Defined.

(** ** Looping *)

Lemma run_task_looping t o s s' k :
  run_task t o s = Some (s', k) →
  loopEnabled s = true → originalQueue s ≠ [] → stopRequested s = false →
  loopEnabled s' = true ∧ originalQueue s' = originalQueue s ∧
  stopRequested s' = false ∧
  (in_iteration t = true → ∃ t', k = Some t' ∧ in_iteration t' = true).
Proof.
  intros Hrun Hloop Ho Hstop.
  destruct t as [| | |?|? ?|? ?|?| |[]|[]], o;
    unfold_loop; unfold mbind, option_bind in *; crunch;
    try congruence; split_and!; auto; try done; eauto.
Qed.

Lemma resume_looping i o s s' :
  resume i o s = Some s' → looping s → looping s'.
Proof.
  unfold resume. intros Hstep (Hloop & Ho & Hstop & Hat).
  destruct (tasks s !! i) as [t|] eqn:Hi; simpl in *; [|done].
  destruct (run_task t o s) as [[s1 k]|] eqn:Hrun; simpl in *; [|done].
  simplify_eq.
  assert (Hts : tasks s1 = tasks s).
  { revert Hrun. clear.
    destruct t as [| | |?|? ?|? ?|?| |[]|[]], o;
      unfold_loop; unfold mbind, option_bind in *; intros; crunch; done. }
  apply run_task_looping in Hrun as (Hl1 & Ho1 & Hs1 & Hk); auto.
  unfold looping. simpl. rewrite Ho1. split_and!; auto.
  eapply at_stage_reschedule; eauto.
  destruct (in_iteration t) eqn:Ht; auto.
Qed.

(** X6: when looping is on, [originalQueue] is not empty, no stop is
    requested and the loop is inside an iteration, the loop does not end
    as long as no command arrives, whatever the downloads and the
    transmissions do: the invocation of [playQueue] goes from iteration to
    iteration. *)
Theorem loop_on_never_ends (ls : list label) (s s' : state) :
  looping s → resumes ls → run ls s = Some s' →
  looping s' ∧ tasks s' ≠ [] ∧ (single_flight s' → isPlayingQueue s' = true).
Proof.
  intros Hs Hls Hrun.
  assert (Hs' : looping s').
  { revert s Hs Hrun. induction Hls as [|l ls Hl _ IH]; intros s Hs Hrun.
    - simpl in *. by simplify_eq.
    - simpl in Hrun. destruct l as [|i o|]; simplify_eq/=.
      destruct (resume i o s) as [s1|] eqn:Hs1; simplify_eq/=.
      eauto using resume_looping. }
  split; [done|]. destruct Hs' as (_ & _ & _ & Hat). split.
  - intros Ht. by apply (at_stage_nil in_iteration s').
  - intros Hsf. apply (at_stage_loop_flag in_iteration); auto.
    by intros [| | |?|? ?|? ?|?| |[]|[]].
Qed.

Lemma loop_on_never_ends_witness :
  looping (default init (run (replicate 9 ok) looping_state)).
Proof.
  apply (loop_on_never_ends (replicate 9 ok) looping_state).
  - unfold looping. split_and!; try (vm_compute; done).
    exists (QAnnounce 0 "local.mp4"). split; [|done].
    apply (bool_decide_unpack _). vm_compute. exact I.
  - by apply Forall_replicate.
  - vm_compute. reflexivity.
Defined.

(** ** Messages of a transmission *)

Lemma count_stage_app W ts1 ts2 :
  count_stage W (ts1 ++ ts2) = count_stage W ts1 + count_stage W ts2.
Proof. unfold count_stage. by rewrite filter_app, length_app. Qed.

Lemma count_stage_cons W t ts :
  count_stage W (t :: ts) = flag (W t) + count_stage W ts.
Proof.
  unfold count_stage. rewrite filter_cons.
  destruct (W t); case_decide; simpl; congruence.
Qed.

Lemma count_stage_reschedule W ts i t k :
  ts !! i = Some t →
  count_stage W (reschedule i k ts) + flag (W t)
  = count_stage W ts + flag (stage_cont W k).
Proof.
  intros Hi.
  assert (Hlt : i < length ts) by (by eapply lookup_lt_Some).
  rewrite <- (take_drop_middle ts i t Hi) at 2.
  destruct k as [t'|]; simpl.
  - rewrite insert_take_drop by done.
    rewrite !count_stage_app, !count_stage_cons. lia.
  - rewrite delete_take_drop.
    rewrite !count_stage_app, !count_stage_cons. lia.
Qed.

Ltac count_events :=
  unfold announcements, finishes, streams, play_errors; simpl;
  rewrite ?filter_app, ?length_app; simpl.

Lemma run_task_balanced t o s s' k :
  run_task t o s = Some (s', k) →
  tasks s' = tasks s ∧
  length (streams (log s')) + length (finishes (log s))
    + flag (is_playback t)
  = length (streams (log s)) + length (finishes (log s'))
    + flag (stage_cont is_playback k) ∧
  length (announcements (log s)) + length (finishes (log s'))
    + flag (stage_cont in_transmission k)
  ≤ length (announcements (log s')) + length (finishes (log s))
    + flag (in_transmission t) ∧
  length (announcements (log s')) + length (finishes (log s))
    + flag (in_transmission t) + length (play_errors (log s))
  ≤ length (announcements (log s)) + length (finishes (log s'))
    + flag (stage_cont in_transmission k) + length (play_errors (log s')).
Proof.
  intros Hrun.
  destruct t as [| | |?|? ?|? ?|?| |[]|[]], o;
    unfold_loop; unfold mbind, option_bind in *; crunch;
    (split; [done|]); count_events; lia.
Qed.

Lemma exec_balanced c s :
  length (announcements (log (exec c s))) = length (announcements (log s)) ∧
  length (finishes (log (exec c s))) = length (finishes (log s)) ∧
  length (streams (log (exec c s))) = length (streams (log s)) ∧
  length (play_errors (log (exec c s))) = length (play_errors (log s)) ∧
  (∀ W, W AddReply = false → W (CleanupLeave FromStop) = false →
        count_stage W (tasks (exec c s)) = count_stage W (tasks s)).
Proof.
  destruct c as [u l|items|u|mode|]; simpl.
  - unfold cmd_add, spawn. case_decide; simpl; count_events;
      split_and!; try lia; intros W H1 H2; auto.
    rewrite count_stage_app, count_stage_cons, H1. simpl.
    unfold count_stage. simpl. lia.
  - unfold cmd_batch, spawn.
    destruct (filter _ items) as [|it links]; simpl; count_events;
      [split_and!; auto; lia|].
    destruct (enqueue_all_frame (it :: links) s) as (_ & _ & _ & -> & ->).
    split_and!; try lia; intros W H1 H2.
    rewrite count_stage_app, count_stage_cons, H1. simpl.
    unfold count_stage. simpl. lia.
  - unfold cmd_remove. crunch; count_events; split_and!; auto; lia.
  - unfold cmd_loop. crunch; count_events; split_and!; auto; lia.
  - unfold cmd_stop. simpl. destruct (currentPlayback s); simpl;
      count_events; (split_and!; try lia; intros W H1 H2;
      rewrite count_stage_app, count_stage_cons, H2; simpl;
      unfold count_stage; simpl; lia).
Qed.

Lemma step_balanced l s s' :
  step l s = Some s' → balanced s → balanced s'.
Proof.
  unfold balanced. intros Hstep (Hs & Ha & He).
  destruct l as [c|i o|]; simpl in *.
  - simplify_eq. destruct (exec_balanced c s) as (-> & -> & -> & -> & HW).
    rewrite !HW by done. done.
  - unfold resume in Hstep.
    destruct (tasks s !! i) as [t|] eqn:Hi; simpl in *; [|done].
    destruct (run_task t o s) as [[s1 k]|] eqn:Hrun; simpl in *; [|done].
    simplify_eq. simpl.
    apply run_task_balanced in Hrun as (Ht & Hs1 & Ha1 & He1). rewrite Ht.
    pose proof (count_stage_reschedule in_transmission _ _ _ k Hi).
    pose proof (count_stage_reschedule is_playback _ _ _ k Hi).
    lia.
  - unfold playQueue in Hstep. crunch; count_events;
      unfold announcements, finishes, streams, play_errors, count_stage in *;
      rewrite ?app_nil_r, ?filter_app, ?length_app; simpl; lia.
Qed.

(** X7: on the runs of the queue commands ([random] is not one of them),
    every transmission is followed by one send of the message
    [Finished playing video], whether it succeeds, fails or is cancelled,
    and every transmission has had its announcement [Now Playing].  An
    announcement is followed by no transmission only when it could not be
    sent, which [playQueue] logs as an error of the playback: when
    everything has returned there are as many transmissions as closing
    messages, and the announcements exceed them by no more than the
    playbacks that have thrown. *)
Theorem announcements_are_closed (s : state) :
  reachable s →
  balanced s ∧
  (tasks s = [] →
   length (streams (log s)) = length (finishes (log s)) ∧
   length (streams (log s)) ≤ length (announcements (log s)) ∧
   length (announcements (log s))
   ≤ length (streams (log s)) + length (play_errors (log s))).
Proof.
  intros [ls Hrun].
  assert (Hb : balanced s).
  { eapply (run_invariant balanced); eauto using step_balanced.
    unfold balanced. simpl. unfold count_stage. simpl. lia. }
  split; [done|]. intros Ht. destruct Hb as (Hs & Ha & He).
  rewrite Ht in Hs, Ha, He. unfold count_stage in *. simpl in *. lia.
Qed.

Lemma announcements_are_closed_witness :
  balanced played_out ∧
  (tasks played_out = [] →
   length (streams (log played_out)) = length (finishes (log played_out)) ∧
   length (streams (log played_out))
   ≤ length (announcements (log played_out)) ∧
   length (announcements (log played_out))
   ≤ length (streams (log played_out)) + length (play_errors (log played_out))).
Proof.
  apply (announcements_are_closed played_out).
  exists scenario_run. vm_compute. reflexivity.
Defined.

(** ** The playback that stop cancels *)

Lemma run_task_current t o s s' k :
  run_task t o s = Some (s', k) →
  (∀ a p, k = Some (QPlayback a p) → currentPlayback s' = Some p) ∧
  (is_loop t = false →
   currentPlayback s' = currentPlayback s ∧
   ∀ a p, k ≠ Some (QPlayback a p)).
Proof.
  intros Hrun.
  destruct t as [| | |?|? ?|? ?|?| |[]|[]], o;
    unfold_loop; unfold mbind, option_bind in *; crunch;
    split; intros; simplify_eq; auto.
Qed.

Lemma step_playback_is_current l s s' :
  step l s = Some s' → single_flight s →
  playback_is_current s → playback_is_current s'.
Proof.
  intros Hstep Hsf Hs. destruct l as [c|i o|]; simpl in *.
  - simplify_eq. intros a p Hin.
    destruct (exec_flags c s) as ((ts & Hts & Hnew) & _ & _ & _ & _ & _ & ->).
    rewrite Hts in Hin. apply elem_of_app in Hin as [?|Hin]; [by apply (Hs a p)|].
    by destruct (Hnew _ Hin).
  - unfold resume in Hstep.
    destruct (tasks s !! i) as [t|] eqn:Hi; simpl in *; [|done].
    destruct (run_task t o s) as [[s1 k]|] eqn:Hrun; simpl in *; [|done].
    simplify_eq. intros a p. simpl.
    assert (Hfl : is_loop t = true → isPlayingQueue s = true).
    { intros Hl. pose proof (count_loops_pos _ _ _ Hi Hl).
      unfold single_flight in Hsf. destruct (isPlayingQueue s);
        simpl in *; [done|lia]. }
    destruct (run_task_flag _ _ _ _ _ Hrun Hfl) as [Ht1 _].
    rewrite Ht1.
    destruct (reschedule_split _ _ _ k Hi) as (l1 & l2 & Hts & ->).
    rewrite !elem_of_app. intros Hin.
    assert (Hcases : k = Some (QPlayback a p) ∨ QPlayback a p ∈ l1 ++ l2).
    { rewrite elem_of_app. destruct Hin as [?|[Hk|?]]; auto.
      destruct k; simpl in Hk; [|by apply not_elem_of_nil in Hk].
      apply list_elem_of_singleton in Hk. left. congruence. }
    apply run_task_current in Hrun as [Hnew Hkeep].
    destruct Hcases as [?|Hin']; [by eapply Hnew|].
    destruct (is_loop t) eqn:Hl.
    + apply single_flight_le in Hsf. rewrite Hts in Hsf.
      by pose proof (others_not_loops _ _ _ _ Hsf Hl Hin').
    + destruct (Hkeep eq_refl) as [-> _]. apply (Hs a p).
      rewrite Hts. rewrite elem_of_app in Hin'.
      rewrite elem_of_app, elem_of_cons. tauto.
  - unfold playQueue in Hstep. intros a p.
    crunch; rewrite ?app_nil_r, ?elem_of_app, ?list_elem_of_singleton;
      try (intros [?|?]; [|done]); by apply (Hs a p).
Qed.

Lemma reachable_playback_is_current s : reachable s → playback_is_current s.
Proof.
  intros [ls Hrun].
  enough (single_flight s ∧ playback_is_current s) by tauto.
  eapply (run_invariant (λ s, single_flight s ∧ playback_is_current s));
    [|done|].
  - intros l s1 s2 Hstep [? ?].
    eauto using step_single_flight, step_playback_is_current.
  - split; [reflexivity|]. intros a p Hin. by apply not_elem_of_nil in Hin.
Qed.

(** X8: on the runs of the queue commands ([add], [batch], [remove],
    [loop], [stop] and the resumptions of their functions; [random], which
    starts a playback of its own and overwrites [currentPlayback], is not
    one of them), [stop] cancels the transmission in progress, whatever
    becomes of it afterwards: when a playback is awaited, its promise is
    the one in [currentPlayback], [stop] cancels it, and the playback then
    ends with the closing message alone, its result dropped, even when
    [streamLivestreamVideo] still succeeds or fails after the stop. *)
Theorem stop_cancels_playback (s : state) (i : nat) (a : addr) (p : nat)
    (o : outcome) :
  reachable s → tasks s !! i = Some (QPlayback a p) →
  currentPlayback s = Some p ∧
  promises (cmd_stop s) !! p = Some Canceled ∧
  ∃ s', resume i o (cmd_stop s) = Some s' ∧
        log s' = log (cmd_stop s) ++ [EvFinished] ∧
        tasks s' !! i = Some (QFinished a) ∧
        speaking s' = false ∧ videoStatus s' = false.
Proof.
  intros Hr Hi.
  assert (Hin : QPlayback a p ∈ tasks s) by (by eapply list_elem_of_lookup_2).
  pose proof (reachable_playback_is_current s Hr a p Hin) as Hc.
  pose proof (reachable_promises_live s Hr a p Hin) as Hlive.
  assert (Hp : cancel p (promises s) !! p = Some Canceled).
  { unfold cancel. destruct Hlive as [Hp|Hp]; rewrite Hp; [|done].
    apply list_lookup_insert_eq. by eapply lookup_lt_Some. }
  assert (Hlt : i < length (tasks s)) by (by eapply lookup_lt_Some).
  split; [done|]. unfold cmd_stop, resume. simpl. rewrite Hc. simpl.
  split; [done|].
  rewrite lookup_app_l, Hi by done. simpl.
  unfold playVideo_settled. simpl. rewrite Hp. simpl.
  eexists. split; [reflexivity|]. simpl. split_and!; auto.
  rewrite list_lookup_insert_eq; [done|]. rewrite length_app. lia.
Qed.

Lemma stop_cancels_playback_witness :
  currentPlayback streaming_state = Some 0 ∧
  promises (cmd_stop streaming_state) !! 0 = Some Canceled ∧
  ∃ s', resume 0 (Resolved "done") (cmd_stop streaming_state) = Some s' ∧
        log s' = log (cmd_stop streaming_state) ++ [EvFinished] ∧
        tasks s' !! 0 = Some (QFinished 0) ∧
        speaking s' = false ∧ videoStatus s' = false.
Proof.
  apply (stop_cancels_playback streaming_state 0 0 0 (Resolved "done")).
  - exists [Cmd (Add "22222BBB" "http://x/video");
          Resume 0 (Resolved ""); Resume 0 (Resolved "");
          Resume 0 (Resolved ""); Resume 0 (Resolved "videos/video_1.mp4");
          Resume 0 (Resolved "")].
    vm_compute. reflexivity.
  - vm_compute. reflexivity.
Defined.

(** ** The order of the playbacks *)

Lemma enqueue_all_spec its s :
  videoQueue (enqueue_all its s)
  = videoQueue s ++ seq (length (heap s)) (length its) ∧
  originalQueue (enqueue_all its s)
  = originalQueue s ++ seq (length (heap s)) (length its) ∧
  heap (enqueue_all its s) = heap s ++ ((λ it, Item it.1 it.2) <$> its).
Proof.
  unfold enqueue_all. revert s.
  induction its as [|it its IH]; intros s; simpl.
  - by rewrite !app_nil_r.
  - destruct (IH (enqueue it.1 it.2 s)) as (-> & -> & ->). simpl.
    rewrite length_app. simpl. rewrite Nat.add_1_r.
    by rewrite <- !app_assoc.
Qed.

Lemma announced_snoc l e :
  announced (l ++ [e])
  = announced l ++ match e with EvNowPlaying u => [u] | _ => [] end.
Proof. unfold announced. rewrite omap_app. by destruct e. Qed.

Lemma uid_of_set_link a l h b : uid_of (set_link a l h) b = uid_of h b.
Proof.
  unfold uid_of, set_link. destruct (h !! a) as [it|] eqn:Ha; [|done].
  destruct (decide (a = b)) as [->|Hne].
  - rewrite list_lookup_insert_eq by (by eapply lookup_lt_Some). by rewrite Ha.
  - by rewrite list_lookup_insert_ne.
Qed.

Lemma uids_set_link a l h q : uids (set_link a l h) q = uids h q.
Proof.
  unfold uids. apply list_fmap_ext. intros _ b _. apply uid_of_set_link.
Qed.

Lemma uids_grow h h' q :
  Forall (λ a, a < length h) q → uids (h ++ h') q = uids h q.
Proof.
  unfold uids. intros Hq. apply Forall_fmap_ext.
  eapply Forall_impl; [exact Hq|]. intros a Ha. simpl in Ha.
  unfold uid_of. by rewrite lookup_app_l.
Qed.

Ltac announced_simpl :=
  simpl;
  rewrite ?announced_snoc, ?app_nil_r, ?uids_set_link, ?uid_of_set_link;
  simpl; rewrite ?app_nil_r.

Ltac sublist_fin :=
  first [ done
        | rewrite uids_app; simpl; apply sublist_app; done
        | rewrite uids_app; simpl; apply sublist_inserts_r; done
        | rewrite !uids_app; simpl; apply sublist_app; done
        | rewrite !uids_app; simpl; apply sublist_inserts_r; done
        | rewrite !uids_app; simpl;
          apply sublist_inserts_r, sublist_inserts_r; done ].

Ltac ordered_fin :=
  unfold ordered in *; announced_simpl; split_and!;
  [ repeat match goal with
           | H : videoQueue _ = _ |- _ => rewrite H in *
           | H : originalQueue _ = _ |- _ => rewrite H in *
           end;
    rewrite <- ?app_assoc; done
  | sublist_fin
  | first [ done
          | intros ? [= <-]; eexists; split; [reflexivity | sublist_fin] ] ].

(** A step of a task keeps the announcements in the order of the queue;
    a task that is not the invocation of [playQueue] leaves them alone. *)
Lemma run_task_ordered t o s s' k popped :
  run_task t o s = Some (s', k) → loopEnabled s = false →
  ordered (Some t) s popped →
  loopEnabled s' = false ∧ tasks s' = tasks s ∧
  length (heap s') = length (heap s) ∧ originalQueue s' = originalQueue s ∧
  (∃ popped', ordered k s' popped') ∧
  (is_loop t = false →
   videoQueue s' = videoQueue s ∧
   announced (log s') = announced (log s) ∧ heap s' = heap s ∧
   ∀ next, k ≠ Some (QFetch next)).
Proof.
  intros Hrun Hloop (Ho & Hs & Hk).
  assert (Hlast : ∀ next, t = QFetch next →
            ∃ popped0, popped = popped0 ++ [next] ∧
              announced (log s) `sublist_of` uids (heap s) popped0)
    by (intros next ->; eauto).
  clear Hk.
  destruct t as [| | |next|next video|next p|next| |c|c], o;
    try (destruct (Hlast _ eq_refl) as (popped0 & -> & Hs0)); clear Hlast;
    unfold_loop; unfold mbind, option_bind in *; crunch;
    try congruence;
    rewrite ?length_set_link;
    (split_and!; [done..| |try done; intros _; split_and!; try done;
                             announced_simpl; done]).
  all: first
    [ by (exists popped; ordered_fin)
    | by (exists (popped0 ++ [next]); ordered_fin)
    | match goal with
      | H : videoQueue _ = ?n :: _ |- _ =>
          first [ by (exists (popped ++ [n]); ordered_fin)
                | by (exists ((popped0 ++ [next]) ++ [n]); ordered_fin) ]
      end
    ].
Qed.

Lemma ordered_weaken k s popped : ordered k s popped → ordered None s popped.
Proof. intros (? & ? & _). split_and!; auto. by intros. Qed.

Lemma ordered_not_fetch t s popped :
  (∀ next, t ≠ QFetch next) → ordered None s popped →
  ordered (Some t) s popped.
Proof.
  intros Ht (? & ? & _). split_and!; auto. intros next [= ->].
  by destruct (Ht next).
Qed.

Lemma ordered_frame k s s' popped :
  ordered k s popped →
  originalQueue s' = originalQueue s → videoQueue s' = videoQueue s →
  announced (log s') = announced (log s) →
  (∀ q, Forall (λ a, a < length (heap s)) q →
        uids (heap s') q = uids (heap s) q) →
  Forall (λ a, a < length (heap s)) popped →
  ordered k s' popped.
Proof.
  intros (Ho & Hs & Hk) H1 H2 H3 H4 Hp. unfold ordered.
  rewrite H1, H2, H3, H4 by done. split_and!; auto.
  intros next Hn. destruct (Hk next Hn) as (popped0 & -> & Hs0).
  exists popped0. split; [done|]. rewrite H4; [done|].
  by apply Forall_app in Hp as [? _].
Qed.

Lemma ordered_valid k s popped :
  ordered k s popped → originalQueue s = seq 0 (length (heap s)) →
  Forall (λ a, a < length (heap s)) popped.
Proof.
  intros (Ho & _) Hseq. rewrite Hseq in Ho.
  apply Forall_forall. intros a Ha.
  assert (Hin : a ∈ seq 0 (length (heap s)))
    by (rewrite Ho; apply elem_of_app; by left).
  apply elem_of_seq in Hin. lia.
Qed.

Lemma ordered_enqueue_all its k s popped :
  originalQueue s = seq 0 (length (heap s)) → ordered k s popped →
  originalQueue (enqueue_all its s) = seq 0 (length (heap (enqueue_all its s))) ∧
  ordered k (enqueue_all its s) popped.
Proof.
  intros Hseq Hord. pose proof (ordered_valid _ _ _ Hord Hseq) as Hvalid.
  destruct (enqueue_all_spec its s) as (Hv & Ho & Hh).
  destruct (enqueue_all_frame its s) as (_ & _ & _ & _ & Hlog).
  split.
  - rewrite Ho, Hh, length_app, length_fmap, Hseq. by rewrite seq_app.
  - destruct Hord as (Ho1 & Hs1 & Hk1). unfold ordered.
    rewrite Ho, Hv, Hh, Hlog, Ho1, uids_grow by done.
    split_and!; [by rewrite app_assoc | done |].
    intros next Hn. destruct (Hk1 next Hn) as (popped0 & -> & Hs0).
    exists popped0. split; [done|]. rewrite uids_grow; [done|].
    by apply Forall_app in Hvalid as [? _].
Qed.

Lemma ordered_emit k e s popped :
  (∀ u, e ≠ EvNowPlaying u) → ordered k s popped →
  ordered k (emit e s) popped.
Proof.
  intros He Hk. unfold ordered in *. simpl. rewrite announced_snoc.
  destruct e; try by rewrite app_nil_r. by destruct (He u).
Qed.

Lemma step_in_order l s s' :
  plain l = true → step l s = Some s' → in_order s → in_order s'.
Proof.
  intros Hl Hstep (Hloop & Hsf & Hseq & popped & Hnone & Hall).
  assert (Hsf' : single_flight s') by (by eapply step_single_flight).
  destruct l as [c|i o|]; simpl in *.
  - simplify_eq. destruct c as [u l|items|?|?|]; try done; simpl in *.
    + unfold cmd_add in *. case_decide.
      { split_and!; auto. exists popped. split.
        - by apply ordered_emit.
        - intros t Ht. apply ordered_emit; auto. }
      change (enqueue u l s) with (enqueue_all [(u, l)] s).
      destruct (enqueue_all_frame [(u, l)] s) as (_ & _ & Hle & Hts & Hlog).
      assert (Hany : ∀ k, ordered k s popped →
                ordered k (spawn AddReply (emit (EvAdded u l)
                                             (enqueue_all [(u, l)] s))) popped).
      { intros k Hk.
        destruct (ordered_enqueue_all [(u, l)] k s popped Hseq Hk)
          as [_ Hk'].
        by apply (ordered_emit k (EvAdded u l)) in Hk'. }
      destruct (ordered_enqueue_all [(u, l)] None s popped Hseq Hnone)
        as [Hseq' _].
      split_and!; [simpl; by rewrite ?Hle | done | exact Hseq' |].
      exists popped. split; [by apply Hany|].
      intros t. simpl. rewrite ?Hts.
      intros [Ht| ->%list_elem_of_singleton]%elem_of_app; [by apply Hany, Hall|].
      apply ordered_not_fetch; [done | by apply Hany].
    + unfold cmd_batch in *. destruct (filter _ items) as [|it its] eqn:Hf.
      { split_and!; auto. exists popped. split.
        - by apply ordered_emit.
        - intros t Ht. apply ordered_emit; auto. }
      destruct (enqueue_all_frame (it :: its) s) as (_ & _ & Hle & Hts & Hlog).
      assert (Hany : ∀ k, ordered k s popped →
                ordered k (spawn AddReply
                             (emit (EvBatchAdded (length (it :: its)))
                                (enqueue_all (it :: its) s))) popped).
      { intros k Hk.
        destruct (ordered_enqueue_all (it :: its) k s popped Hseq Hk)
          as [_ Hk'].
        by apply (ordered_emit k (EvBatchAdded (length (it :: its)))) in Hk'. }
      destruct (ordered_enqueue_all (it :: its) None s popped Hseq Hnone)
        as [Hseq' _].
      split_and!; [simpl; by rewrite ?Hle | done | exact Hseq' |].
      exists popped. split; [by apply Hany|].
      intros t. simpl. rewrite ?Hts.
      intros [Ht| ->%list_elem_of_singleton]%elem_of_app; [by apply Hany, Hall|].
      apply ordered_not_fetch; [done | by apply Hany].
  - unfold resume in Hstep.
    destruct (tasks s !! i) as [t|] eqn:Hi; simpl in *; [|done].
    destruct (run_task t o s) as [[s1 k]|] eqn:Hrun; simpl in *; [|done].
    simplify_eq.
    assert (Hin : t ∈ tasks s) by (by eapply list_elem_of_lookup_2).
    destruct (run_task_ordered _ _ _ _ _ _ Hrun Hloop (Hall t Hin))
      as (Hl1 & Ht1 & Hh1 & Ho1 & [popped' Hk] & Hframe).
    split_and!; simpl; auto; [by rewrite Ho1, Hh1|].
    destruct (reschedule_split _ _ _ k Hi) as (l1 & l2 & Hts & Hre).
    destruct (is_loop t) eqn:Hlt.
    + exists popped'. split; [by eapply ordered_weaken|].
      intros t'. simpl. rewrite Ht1, Hre, !elem_of_app.
      intros Hin'.
      assert (Hcases : k = Some t' ∨ t' ∈ l1 ++ l2).
      { rewrite elem_of_app. destruct Hin' as [?|[Hk'|?]]; auto.
        destruct k; simpl in Hk'; [|by apply not_elem_of_nil in Hk'].
        apply list_elem_of_singleton in Hk'. left. congruence. }
      destruct Hcases as [->|Hin'']; [done|].
      apply single_flight_le in Hsf. rewrite Hts in Hsf.
      pose proof (others_not_loops _ _ _ _ Hsf Hlt Hin'') as Hnl.
      apply ordered_not_fetch; [|by eapply ordered_weaken].
      intros next ->. done.
    + destruct (Hframe eq_refl) as (Hv1 & Ha1 & Hhp & Hnk).
      assert (Hany : ∀ k', ordered k' s popped → ordered k' s1 popped).
      { intros k' Hk'. eapply ordered_frame; eauto using ordered_valid.
        intros q _. by rewrite Hhp. }
      exists popped. split; [by apply Hany|].
      intros t'. simpl. rewrite Ht1, Hre, !elem_of_app.
      intros [?|[Hk'|?]].
      * apply Hany, Hall. rewrite Hts, elem_of_app. auto.
      * destruct k as [t''|]; simpl in Hk'; [|by apply not_elem_of_nil in Hk'].
        apply list_elem_of_singleton in Hk'. subst t''.
        apply ordered_not_fetch; [|by apply Hany].
        intros next ->. by destruct (Hnk next).
      * apply Hany, Hall. rewrite Hts, elem_of_app, elem_of_cons. auto.
  - destruct (playQueue s) as [s1 k] eqn:Hp. simplify_eq.
    assert (Hfr : loopEnabled s1 = loopEnabled s ∧ heap s1 = heap s ∧
                  originalQueue s1 = originalQueue s ∧
                  videoQueue s1 = videoQueue s ∧
                  announced (log s1) = announced (log s) ∧
                  tasks s1 = tasks s ∧ ∀ next, k ≠ Some (QFetch next)).
    { unfold playQueue in Hp. crunch; split_and!; try done;
        by rewrite announced_snoc, app_nil_r. }
    destruct Hfr as (H1 & H2 & H3 & H4 & H5 & H6 & H7).
    assert (Hany : ∀ k', ordered k' s popped →
              ordered k' (set_tasks (tasks s1 ++ option_list k) s1) popped).
    { intros k' Hk'. eapply ordered_frame; eauto using ordered_valid.
      intros q _. simpl. by rewrite H2. }
    split_and!; simpl; auto; [congruence | by rewrite H3, H2 |].
    exists popped. split; [by apply Hany|].
    intros t'. rewrite H6. intros [?|Hk']%elem_of_app; [by apply Hany, Hall|].
    destruct k as [t''|]; simpl in Hk'; [|by apply not_elem_of_nil in Hk'].
    apply list_elem_of_singleton in Hk'. subst t''.
    apply ordered_not_fetch; [|by apply Hany].
    intros next ->. by destruct (H7 next).
Qed.

Lemma run_in_order ls s s' :
  Forall (λ l, plain l = true) ls → run ls s = Some s' →
  in_order s → in_order s'.
Proof.
  intros Hls. revert s. induction Hls as [|l ls Hl _ IH]; intros s Hrun Hs.
  - simpl in Hrun. by simplify_eq.
  - simpl in Hrun. destruct (step l s) as [s1|] eqn:Hs1; simplify_eq/=.
    eauto using step_in_order.
Qed.

(** X9: without the commands [remove], [loop] and [stop], the items
    are played in the order in which they were added, each once at most:
    [originalQueue] holds the items in the order of their creation,
    [videoQueue] is what is left of it after the items popped, and the uids
    announced by [Now Playing] are, in this order, uids of items popped. *)
Theorem played_in_order (ls : list label) (s : state) :
  Forall (λ l, plain l = true) ls → run ls init = Some s →
  originalQueue s = seq 0 (length (heap s)) ∧
  ∃ popped, originalQueue s = popped ++ videoQueue s ∧
            announced (log s) `sublist_of` uids (heap s) popped.
Proof.
  intros Hls Hrun.
  assert (Hin : in_order s).
  { eapply run_in_order; [done..|].
    split_and!; [done | reflexivity | done |]. exists []. split.
    - split_and!; [done | done | by intros].
    - intros t Ht. by apply not_elem_of_nil in Ht. }
  destruct Hin as (_ & _ & Hseq & popped & (Ho & Hs & _) & _). eauto.
Qed.

Lemma played_in_order_witness :
  originalQueue two_played = seq 0 (length (heap two_played)) ∧
  ∃ popped, originalQueue two_played = popped ++ videoQueue two_played ∧
            announced (log two_played) `sublist_of` uids (heap two_played) popped.
Proof.
  apply (played_in_order three_items_run two_played).
  - apply (bool_decide_unpack _). vm_compute. exact I.
  - vm_compute. reflexivity.
Defined.

(** ** The file that is transmitted *)

Lemma run_task_in_store t o s s' k :
  run_task t o s = Some (s', k) → queue_pair s →
  task_in_store (length (heap s)) t →
  length (heap s') = length (heap s) ∧
  ∀ t', k = Some t' → task_in_store (length (heap s')) t'.
Proof.
  intros Hrun (Hsub & _ & Hvalid) Ht.
  assert (Hv : ∀ a, a ∈ videoQueue s → a < length (heap s)).
  { intros a Ha. rewrite Forall_forall in Hvalid. apply Hvalid.
    by eapply elem_of_sublist. }
  assert (Ho : ∀ a, a ∈ originalQueue s → a < length (heap s)).
  { intros a Ha. rewrite Forall_forall in Hvalid. by apply Hvalid. }
  destruct t as [| | |?|? ?|? ?|?| |[]|[]], o; simpl in Ht;
    unfold_loop; unfold mbind, option_bind in *; crunch;
    rewrite ?length_set_link; (split; [done|]);
    intros t' ?; simplify_eq; simpl; rewrite ?length_set_link; try done;
    first [ by apply Hv; left
          | by apply Ho; left
          | apply Hv; match goal with
                      | H : _ = ?a :: _ |- ?a ∈ _ => rewrite H; by left
                      end
          | apply Ho; match goal with
                      | H : _ = ?a :: _ |- ?a ∈ _ => rewrite H; by left
                      end ].
Qed.

Lemma step_tasks_in_store l s s' :
  step l s = Some s' → queue_pair s → tasks_in_store s → tasks_in_store s'.
Proof.
  unfold tasks_in_store. intros Hstep Hq Hs. destruct l as [c|i o|]; simpl in *.
  - simplify_eq.
    destruct (exec_flags c s) as ((ts & -> & Hnew) & _).
    assert (Hlen : length (heap s) ≤ length (heap (exec c s))).
    { destruct c as [u l|items|?|?|]; simpl.
      - unfold cmd_add. case_decide; simpl; [done|]. rewrite length_app. lia.
      - unfold cmd_batch. destruct (filter _ items) as [|it its]; simpl; [done|].
        destruct (enqueue_all_spec (it :: its) s) as (_ & _ & ->).
        rewrite length_app. lia.
      - unfold cmd_remove. crunch; done.
      - unfold cmd_loop. crunch; done.
      - unfold cmd_stop. simpl. by destruct (currentPlayback s). }
    apply Forall_app. split.
    + eapply Forall_impl; [exact Hs|]. intros [] Ht; simpl in *; lia.
    + apply Forall_forall. intros t [->| ->]%Hnew; done.
  - unfold resume in Hstep.
    destruct (tasks s !! i) as [t|] eqn:Hi; simpl in *; [|done].
    destruct (run_task t o s) as [[s1 k]|] eqn:Hrun; simpl in *; [|done].
    simplify_eq. simpl.
    assert (Ht : task_in_store (length (heap s)) t)
      by (rewrite Forall_forall in Hs; by eapply Hs, list_elem_of_lookup_2).
    assert (Hts : tasks s1 = tasks s).
    { revert Hrun. clear.
      destruct t as [| | |?|? ?|? ?|?| |[]|[]], o;
        unfold_loop; unfold mbind, option_bind in *; intros; crunch; done. }
    destruct (run_task_in_store _ _ _ _ _ Hrun Hq Ht) as [Hlen Hk].
    rewrite Hts, Hlen. destruct k as [t'|]; simpl.
    + apply Forall_insert; [done|]. rewrite <- Hlen. by apply Hk.
    + by apply Forall_delete.
  - unfold playQueue in Hstep. crunch; simpl;
      rewrite ?app_nil_r; try done; apply Forall_app; by split; [|repeat constructor].
Qed.

Lemma reachable_tasks_in_store s : reachable s → tasks_in_store s.
Proof.
  intros [ls Hrun].
  enough (queue_pair s ∧ tasks_in_store s) by tauto.
  eapply (run_invariant (λ s, queue_pair s ∧ tasks_in_store s)); [|done|].
  - intros l s1 s2 Hstep [? ?].
    eauto using step_queue_pair, step_tasks_in_store.
  - split; [apply queues_wf_nil | by constructor].
Qed.

(** X10: the file transmitted for a remote item is the file that its
    download has returned: when [preDownloadVideo] resolves with a path and
    no stop was requested, the path becomes the link of the item, the item
    is announced, and [streamLivestreamVideo] is then called with that
    path, whatever happens to the queues between the announcement and the
    transmission. *)
Theorem downloaded_file_is_streamed
    (s : state) (i : nat) (next : addr) (localPath : string) :
  reachable s → tasks s !! i = Some (QFetch next) →
  stopRequested s = false →
  ∃ s1, resume i (Resolved localPath) s = Some s1 ∧
        link_of (heap s1) next = localPath ∧
        uid_of (heap s1) next = uid_of (heap s) next ∧
        log s1 = log s ++ [EvNowPlaying (uid_of (heap s) next)] ∧
        tasks s1 !! i = Some (QAnnounce next localPath) ∧
        ∀ s2 j r, tasks s2 !! j = Some (QAnnounce next localPath) →
          ∃ s3, resume j (Resolved r) s2 = Some s3 ∧
                log s3 = log s2 ++ [EvStream localPath].
Proof.
  intros Hr Hi Hstop.
  assert (Hlt : next < length (heap s)).
  { pose proof (reachable_tasks_in_store s Hr) as Hs.
    unfold tasks_in_store in Hs. rewrite Forall_forall in Hs.
    by apply (Hs (QFetch next)), list_elem_of_lookup_2 with i. }
  assert (Hlink : link_of (set_link next localPath (heap s)) next = localPath).
  { unfold link_of, set_link.
    destruct (heap s !! next) as [it|] eqn:Hn.
    - by rewrite list_lookup_insert_eq by done.
    - apply lookup_ge_None in Hn. lia. }
  unfold resume. rewrite Hi. simpl. unfold after_fetch. simpl.
  rewrite Hstop. simpl. eexists. split; [reflexivity|]. simpl.
  rewrite Hlink, uid_of_set_link. split_and!; auto.
  - apply list_lookup_insert_eq. by eapply lookup_lt_Some.
  - intros s2 j r Hj. unfold resume. rewrite Hj. simpl.
    eexists. split; [reflexivity|]. done.
Qed.

Lemma downloaded_file_is_streamed_witness :
  ∃ s1, resume 0 (Resolved "videos/video_1.mp4") fetching_state = Some s1 ∧
        link_of (heap s1) 0 = "videos/video_1.mp4".
Proof.
  destruct (downloaded_file_is_streamed fetching_state 0 0 "videos/video_1.mp4")
    as (s1 & H1 & H2 & _).
  - exists [Cmd (Add "22222BBB" "http://x/video"); ok; ok; ok].
    vm_compute. reflexivity.
  - vm_compute. reflexivity.
  - vm_compute. reflexivity.
  - eauto.
Defined.

(** ** Strings *)

Lemma isSpace_isWhiteSpace c : isSpace c = true → isWhiteSpace c = true.
Proof. unfold isSpace. intros ->%bool_decide_eq_true. reflexivity. Qed.

Lemma app_String c s t : String c s +:+ t = String c (s +:+ t).
Proof. reflexivity. Qed.

Lemma app_empty_l (s : string) : "" +:+ s = s.
Proof. reflexivity. Qed.

Lemma app_empty_r (s : string) : s +:+ "" = s.
Proof. induction s as [|c s IH]; [done|]. by rewrite app_String, IH. Qed.

Lemma app_assoc_string (s t u : string) : (s +:+ t) +:+ u = s +:+ t +:+ u.
Proof. induction s as [|c s IH]; [done|]. by rewrite !app_String, IH. Qed.

Lemma chars_app s t : chars (s +:+ t) = chars s ++ chars t.
Proof. induction s as [|c s IH]; [done|]. rewrite app_String. simpl. by rewrite IH. Qed.

Lemma prefix_app (p s : string) : String.prefix p (p +:+ s) = true.
Proof.
  induction p as [|c p IH]; [rewrite app_empty_l; by destruct s|].
  rewrite app_String. simpl. by destruct (Ascii.ascii_dec c c).
Qed.

Lemma slice_app (p s : string) : slice (String.length p) (p +:+ s) = s.
Proof. induction p as [|c p IH]; [by destruct s|]. by rewrite app_String. Qed.

Lemma slice_add n k (s : string) : slice (n + k) s = slice k (slice n s).
Proof.
  revert s. induction n as [|n IH]; intros s; simpl; [done|].
  destruct s as [|c s]; [by destruct k|]. apply IH.
Qed.

Lemma endsWith_unfold suf s :
  endsWith suf s
  = String.eqb suf s
    || match s with String _ s' => endsWith suf s' | EmptyString => false end.
Proof. by destruct s. Qed.

Lemma endsWith_app suf s : endsWith suf (s +:+ suf) = true.
Proof.
  induction s as [|c s IH].
  - rewrite app_empty_l, endsWith_unfold. by rewrite String.eqb_refl.
  - rewrite app_String, endsWith_unfold, IH. apply orb_true_r.
Qed.

Lemma find_none {A} (f : A → bool) l :
  Forall (λ x, f x = false) l → List.find f l = None.
Proof. induction 1 as [|x l Hx _ IH]; simpl; [done|]. by rewrite Hx. Qed.

(** *** [trim] *)

Lemma trimStart_app_ws ws s :
  forallb isWhiteSpace (chars ws) = true → trimStart (ws +:+ s) = trimStart s.
Proof.
  induction ws as [|c ws IH]; [done|]. intros Hws. simpl in Hws.
  apply andb_true_iff in Hws as [Hc Hws].
  rewrite app_String. simpl. rewrite Hc. auto.
Qed.

Lemma trimStart_id s : starts_with isWhiteSpace s = false → trimStart s = s.
Proof. destruct s as [|c s]; simpl; [done|]. by intros ->. Qed.

Lemma trimStart_starts s : starts_with isWhiteSpace (trimStart s) = false.
Proof.
  induction s as [|c s IH]; simpl; [done|].
  destruct (isWhiteSpace c) eqn:Hc; [done|]. simpl. done.
Qed.

Lemma trimEnd_cons c s :
  trimEnd (String c s)
  = if decide (trimEnd s = "")
    then (if isWhiteSpace c then "" else String c "")
    else String c (trimEnd s).
Proof. simpl. destruct (trimEnd s); by case_decide. Qed.

Lemma trimEnd_starts s :
  starts_with isWhiteSpace s = false →
  starts_with isWhiteSpace (trimEnd s) = false.
Proof.
  destruct s as [|c s]; [done|]. intros Hc. simpl in Hc.
  rewrite trimEnd_cons, Hc. by case_decide.
Qed.

Lemma trimEnd_ends s : trimEnd s = "" ∨ ends_with (negb ∘ isWhiteSpace) (trimEnd s) = true.
Proof.
  induction s as [|c s IH]; [by left|].
  rewrite trimEnd_cons. case_decide as Hs.
  - destruct (isWhiteSpace c) eqn:Hc; [by left|]. right. simpl. by rewrite Hc.
  - right. destruct IH as [?|IH]; [done|].
    destruct (trimEnd s); [done|]. done.
Qed.

Lemma trimEnd_id s : ends_with (negb ∘ isWhiteSpace) s = true → trimEnd s = s.
Proof.
  induction s as [|c s IH]; [done|]. intros Hs. rewrite trimEnd_cons.
  destruct s as [|d s].
  - simpl in *. apply negb_true_iff in Hs. by rewrite Hs.
  - rewrite IH by done. by rewrite decide_False.
Qed.

(** What [trim] returns has white space neither at its start nor at
    its end. *)
Lemma trim_spec s :
  trim s = "" ∨
  (starts_with isWhiteSpace (trim s) = false ∧
   ends_with (negb ∘ isWhiteSpace) (trim s) = true).
Proof.
  unfold trim. destruct (trimEnd_ends (trimStart s)) as [?|He]; [by left|].
  right. split; [|done]. apply trimEnd_starts, trimStart_starts.
Qed.

Lemma trim_id s :
  starts_with isWhiteSpace s = false →
  ends_with (negb ∘ isWhiteSpace) s = true → trim s = s.
Proof. intros Hs He. unfold trim. by rewrite trimStart_id, trimEnd_id. Qed.

Lemma trim_idemp s : trim (trim s) = trim s.
Proof.
  destruct (trim_spec s) as [->|[Hs He]]; [done|]. by apply trim_id.
Qed.

Lemma trimEnd_word w t :
  forallb (negb ∘ isWhiteSpace) (chars w) = true →
  trimEnd (w +:+ t) = w +:+ trimEnd t.
Proof.
  induction w as [|c w IH]; intros Hw; [done|].
  simpl in Hw. apply andb_true_iff in Hw as [Hc%negb_true_iff Hw].
  rewrite !app_String, trimEnd_cons, IH, Hc by done.
  case_decide as He; [by rewrite He | done].
Qed.

Lemma trimEnd_blank s :
  trimEnd s = "" ↔ forallb isWhiteSpace (chars s) = true.
Proof.
  induction s as [|c s IH]; [done|]. rewrite trimEnd_cons. simpl.
  rewrite andb_true_iff, <- IH. case_decide as He.
  - destruct (isWhiteSpace c); split; try done. by intros [? _].
  - split; [done|]. by intros [_ ?].
Qed.

Lemma trimStart_blank s :
  forallb isWhiteSpace (chars s) = true → trimStart s = "".
Proof.
  intros Hs. rewrite <- (app_empty_r s). by rewrite trimStart_app_ws.
Qed.

Lemma trim_blank s : trim s = "" ↔ forallb isWhiteSpace (chars s) = true.
Proof.
  split.
  - unfold trim. intros Ht. induction s as [|c s IH]; [done|]. simpl in *.
    destruct (isWhiteSpace c) eqn:Hc; simpl; [auto|].
    rewrite trimEnd_cons, Hc in Ht. by case_decide.
  - intros Hs. unfold trim. by rewrite trimStart_blank.
Qed.

Lemma trimEnd_snoc s c :
  isWhiteSpace c = true → trimEnd (s +:+ String c "") = trimEnd s.
Proof.
  intros Hc. induction s as [|a s IH].
  - rewrite app_empty_l. simpl. by rewrite Hc.
  - by rewrite app_String, !trimEnd_cons, IH.
Qed.

Lemma trim_snoc s c :
  isWhiteSpace c = true → trim (s +:+ String c "") = trim s.
Proof.
  intros Hc. unfold trim. induction s as [|a s IH].
  - rewrite app_empty_l. simpl. by rewrite Hc.
  - rewrite app_String. simpl. destruct (isWhiteSpace a); [done|].
    by rewrite <- app_String, trimEnd_snoc.
Qed.

Lemma chars_trimStart s c : c ∈ chars (trimStart s) → c ∈ chars s.
Proof.
  induction s as [|a s IH]; [done|]. simpl.
  destruct (isWhiteSpace a); [|done]. intros Hc. right. auto.
Qed.

Lemma chars_trimEnd s c : c ∈ chars (trimEnd s) → c ∈ chars s.
Proof.
  induction s as [|a s IH]; [done|]. rewrite trimEnd_cons. simpl.
  case_decide.
  - destruct (isWhiteSpace a); simpl; [by intros ?%not_elem_of_nil|].
    intros ->%list_elem_of_singleton. by left.
  - simpl. intros [->|?]%elem_of_cons; [by left | right; auto].
Qed.

Lemma chars_trim s c : c ∈ chars (trim s) → c ∈ chars s.
Proof. intros Hc. by apply chars_trimStart, chars_trimEnd. Qed.

Lemma word_edges u :
  u ≠ "" → Forall (λ c, isWhiteSpace c = false) (chars u) →
  starts_with isWhiteSpace u = false ∧
  ends_with (negb ∘ isWhiteSpace) u = true ∧
  SP ∉ chars u.
Proof.
  intros Hu Hw. split_and!.
  - destruct u as [|c u]; [done|]. simpl in *. by inversion Hw.
  - induction u as [|c u IH]; [done|].
    simpl in Hw. inversion Hw as [|? ? Hc Hw']; subst.
    destruct u as [|d u]; [by apply negb_true_iff | by apply IH].
  - intros Hin. rewrite Forall_forall in Hw. by apply Hw in Hin.

Qed.

Lemma word_no_ws w :
  Forall (λ c, isWhiteSpace c = false) (chars w) →
  forallb (negb ∘ isWhiteSpace) (chars w) = true.
Proof.
  induction 1 as [|c l Hc _ IH]; simpl; [done|]. by rewrite Hc.
Qed.

(** *** [split] and [join] *)

Lemma extend_not_nil c l : extend c l ≠ [].
Proof. by destruct l. Qed.

Lemma split_go_not_nil b s : split_go b s ≠ [].
Proof.
  revert b. induction s as [|c s IH]; intros b; simpl; [done|].
  case_decide; [destruct b; [apply IH|done] | apply extend_not_nil].
Qed.

Lemma split_go_no_space b s : Forall (λ w, SP ∉ chars w) (split_go b s).
Proof.
  revert b. induction s as [|c s IH]; intros b; simpl.
  - constructor; [|done]. apply not_elem_of_nil.
  - case_decide as Hc.
    + destruct b; [apply IH|]. constructor; [apply not_elem_of_nil | apply IH].
    + specialize (IH false). destruct (split_go false s) as [|w ws]; simpl.
      * constructor; [|done]. intros Hin. apply list_elem_of_singleton in Hin. done.
      * inversion IH; subst. constructor; [|done]. simpl.
        intros [?|?]%elem_of_cons; done.
Qed.

Lemma tail_extend c l : l ≠ [] → tail (extend c l) = tail l.
Proof. by destruct l. Qed.

(** When the text does not end with a space, only the first piece can be
    empty, and only if the text starts with a space or is empty. *)
Lemma split_go_pieces s :
  (s = "" ∨ ends_with (negb ∘ isSpace) s = true →
   Forall (λ w, w ≠ "") (tail (split_go false s))) ∧
  (ends_with (negb ∘ isSpace) s = true →
   Forall (λ w, w ≠ "") (split_go true s)).
Proof.
  induction s as [|c s [IH1 IH2]]; simpl.
  - split; [by constructor | done].
  - assert (Hs : ends_with (negb ∘ isSpace) (String c s) = true →
                 s = "" ∧ isSpace c = false
                 ∨ ends_with (negb ∘ isSpace) s = true).
    { simpl. destruct s; [|by right]. intros ?%negb_true_iff. by left. }
    case_decide as Hc.
    + assert (He : ends_with (negb ∘ isSpace) (String c s) = true →
                   ends_with (negb ∘ isSpace) s = true).
      { intros [[_ Hn]|?]%Hs; [|done]. unfold isSpace in Hn.
        by rewrite bool_decide_eq_false in Hn. }
      split.
      * intros [?|?]; [done|]. simpl. auto.
      * auto.
    + assert (Ht : s = "" ∨ ends_with (negb ∘ isSpace) s = true →
                   Forall (λ w, w ≠ "") (tail (extend c (split_go false s)))).
      { rewrite tail_extend by apply split_go_not_nil. done. }
      split.
      * intros [?|[[-> _]|?]%Hs]; [done|auto..].
      * intros He. pose proof (split_go_not_nil false s).
        destruct (split_go false s) as [|w ws] eqn:Hw; [done|]. simpl.
        constructor; [done|].
        destruct (Hs He) as [[-> _]|?]; simpl in *; [by simplify_eq|].
        apply IH1. by right.
Qed.

Lemma split_go_first_piece s :
  s ≠ "" → starts_with isSpace s = false →
  ∃ w ws, split_go false s = w :: ws ∧ w ≠ "".
Proof.
  destruct s as [|c s]; [done|]. intros _ Hc. simpl in *.
  unfold isSpace in Hc. rewrite bool_decide_eq_false in Hc.
  rewrite decide_False by done.
  destruct (split_go false s); simpl; eauto.
Qed.

Lemma not_space_ws s :
  ends_with (negb ∘ isWhiteSpace) s = true →
  ends_with (negb ∘ isSpace) s = true.
Proof.
  induction s as [|c s IH]; [done|]. simpl. destruct s; [|done].
  intros Hc%negb_true_iff. apply negb_true_iff.
  destruct (isSpace c) eqn:Hs; [|done].
  apply isSpace_isWhiteSpace in Hs. congruence.
Qed.

Lemma starts_not_space_ws s :
  starts_with isWhiteSpace s = false → starts_with isSpace s = false.
Proof.
  destruct s as [|c s]; [done|]. simpl. intros Hc.
  destruct (isSpace c) eqn:Hs; [|done].
  apply isSpace_isWhiteSpace in Hs. congruence.
Qed.

(** The words of a trimmed text. *)
Lemma split_trim_pieces s :
  split_spaces (trim s) = [""] ∧ trim s = ""
  ∨ Forall (λ w, w ≠ "") (split_spaces (trim s)) ∧ trim s ≠ "".
Proof.
  destruct (trim_spec s) as [->|[Hs He]]; [by left|]. right.
  assert (Hne : trim s ≠ "") by (by destruct (trim s)).
  split; [|done].
  apply starts_not_space_ws in Hs. apply not_space_ws in He.
  destruct (split_go_first_piece _ Hne Hs) as (w & ws & Hw & Hw0).
  destruct (split_go_pieces (trim s)) as [Ht _].
  unfold split_spaces. rewrite Hw in *. constructor; [done|].
  apply Ht. by right.
Qed.

Lemma join_cons w l : l ≠ [] → join (w :: l) = w +:+ " " +:+ join l.
Proof. by destruct l. Qed.

Lemma join_extend c l : l ≠ [] → join (extend c l) = String c (join l).
Proof. intros Hl. destruct l as [|w [|w' l]]; [done|reflexivity..]. Qed.

Lemma split_go_started s :
  starts_with isSpace s = false → split_go true s = split_go false s.
Proof.
  destruct s as [|c s]; [done|]. simpl. unfold isSpace.
  rewrite bool_decide_eq_false. intros Hc. by rewrite !(decide_False (P:=c = SP)) by done.
Qed.

Lemma includes_cons sub c s :
  includes sub (String c s) = String.prefix sub (String c s) || includes sub s.
Proof. done. Qed.

Lemma prefix_space_cons p c s :
  String.prefix (String SP p) (String c s) = isSpace c && String.prefix p s.
Proof. destruct c as [[] [] [] [] [] [] [] []]; reflexivity. Qed.

Lemma double_space_cons c s :
  includes "  " (String c s)
  = isSpace c && starts_with isSpace s || includes "  " s.
Proof.
  rewrite includes_cons. f_equal.
  change "  " with (String SP (String SP "")).
  rewrite prefix_space_cons. f_equal.
  destruct s as [|d s]; [done|].
  rewrite prefix_space_cons. simpl. destruct s; by rewrite andb_true_r.
Qed.

(** Splitting at the spaces and joining with one space gives the text
    back when no two spaces are adjacent in it. *)
Lemma join_split s :
  includes "  " s = false → join (split_go false s) = s.
Proof.
  induction s as [|c s IH]; [done|].
  rewrite double_space_cons. intros [Hc Hs]%orb_false_iff. simpl.
  case_decide as Hsp.
  - subst c. change (isSpace SP) with true in Hc. simpl in Hc.
    rewrite join_cons by apply split_go_not_nil.
    rewrite split_go_started by done. by rewrite IH.
  - rewrite join_extend by apply split_go_not_nil. by rewrite IH.
Qed.

(** What comes out of [split] and [join] has no two adjacent spaces. *)
Lemma join_split_squeezed s :
  includes "  " (join (split_go false s)) = false ∧
  includes "  " (join (split_go true s)) = false ∧
  starts_with isSpace (join (split_go true s)) = false.
Proof.
  induction s as [|c s (IH1 & IH2 & IH3)]; [done|]. simpl.
  case_decide as Hsp.
  - rewrite join_cons by apply split_go_not_nil.
    change ("" +:+ " " +:+ ?x) with (String SP x).
    rewrite double_space_cons, IH2, IH3. by rewrite andb_false_r.
  - assert (Hc : isSpace c = false) by (by apply bool_decide_eq_false).
    rewrite join_extend by apply split_go_not_nil.
    rewrite double_space_cons, Hc, IH1. done.
Qed.

Lemma split_go_tail s :
  tail (split_go false s) = [] ∨ ∃ s', tail (split_go false s) = split_go true s'.
Proof.
  induction s as [|c s IH]; simpl; [by left|].
  case_decide; [right; by eexists|].
  by rewrite tail_extend by apply split_go_not_nil.
Qed.

Lemma ends_with_app P s t : t ≠ "" → ends_with P (s +:+ t) = ends_with P t.
Proof.
  intros Ht. induction s as [|c s IH]; [done|]. rewrite app_String. simpl.
  rewrite IH. destruct (s +:+ t) eqn:Hst; [|done].
  destruct s; [by rewrite app_empty_l in Hst | by rewrite app_String in Hst].
Qed.

Lemma ends_with_word w :
  w ≠ "" → SP ∉ chars w → ends_with (negb ∘ isSpace) w = true.
Proof.
  induction w as [|c w IH]; [done|]. intros _ Hc. simpl in *.
  apply not_elem_of_cons in Hc as [Hc Hw]. destruct w as [|d w].
  - apply negb_true_iff. by apply bool_decide_eq_false.
  - by apply IH.
Qed.

Lemma join_ends l :
  Forall (λ w, w ≠ "") l → Forall (λ w, SP ∉ chars w) l →
  join l = "" ∨ ends_with (negb ∘ isSpace) (join l) = true.
Proof.
  induction 1 as [|w l Hw Hl IH]; [by left|]. intros Hsp. right.
  inversion Hsp as [|? ? Hw' Hl']; subst.
  destruct l as [|w' l]; [by apply ends_with_word|].
  rewrite join_cons by done. destruct (IH Hl') as [He|He].
  - exfalso. inversion Hl as [|? ? Hw0 _]; subst.
    destruct w' as [|c w']; [done|]. by destruct l.
  - rewrite ends_with_app by done. simpl.
    destruct (join (w' :: l)) eqn:Hj; [done|]. done.
Qed.

Lemma split_go_cons b c s :
  c ≠ SP → split_go b (String c s) = extend c (split_go false s).
Proof. intros Hc. simpl. by case_decide. Qed.

Lemma split_go_word w rest :
  SP ∉ chars w →
  split_go false (w +:+ String SP rest) = w :: split_go true rest.
Proof.
  induction w as [|c w IH]; intros Hw.
  - reflexivity.
  - simpl in Hw. apply not_elem_of_cons in Hw as [Hc Hw].
    rewrite app_String, split_go_cons, IH by done. done.
Qed.

Lemma split_go_app w s :
  SP ∉ chars w →
  split_go false (w +:+ s) = foldr extend (split_go false s) (chars w).
Proof.
  induction w as [|c w IH]; intros Hw; [done|].
  simpl in Hw. apply not_elem_of_cons in Hw as [Hc Hw].
  rewrite app_String, split_go_cons, IH by done. done.
Qed.

Lemma split_go_single w : SP ∉ chars w → split_go false w = [w].
Proof.
  induction w as [|c w IH]; intros Hw; [done|].
  simpl in Hw. apply not_elem_of_cons in Hw as [Hc Hw].
  rewrite split_go_cons, IH by done. done.
Qed.

(** The words of a message that starts with a word followed by nothing
    or by a space. *)
Lemma split_word_rest rest :
  rest = "" ∨ starts_with isSpace rest = true →
  ∃ args, ∀ w', w' ≠ "" →
    Forall (λ c, isWhiteSpace c = false) (chars w') →
    split_spaces (trim (w' +:+ rest)) = w' :: args.
Proof.
  intros Hrest.
  assert (Hcases : trimEnd rest = "" ∨ ∃ t, trimEnd rest = String SP t).
  { destruct Hrest as [->|Hs]; [by left|].
    destruct rest as [|c rest]; [done|]. simpl in Hs.
    apply bool_decide_eq_true in Hs as ->.
    rewrite trimEnd_cons. change (isWhiteSpace SP) with true.
    case_decide; eauto. }
  exists (match trimEnd rest with
          | String _ t => split_go true t
          | EmptyString => []
          end).
  intros w' Hne Hw'. destruct (word_edges w' Hne Hw') as (Hs & He & Hsp).
  unfold trim. rewrite trimStart_id.
  - rewrite trimEnd_word by (by apply word_no_ws).
    unfold split_spaces. destruct Hcases as [->|[t ->]].
    + rewrite app_empty_r. by apply split_go_single.
    + by apply split_go_word.
  - destruct w'; [done|]. by rewrite app_String.
Qed.

(** *** Lines *)

Lemma split_lines_cons c s :
  c ≠ LF → ¬ (c = CR ∧ starts_with (λ d, bool_decide (d = LF)) s = true) →
  split_lines (String c s) = extend c (split_lines s).
Proof.
  intros Hc Hcr. simpl. case_decide; [done|].
  destruct s as [|d s]; [done|]. case_decide as Hd; [|done].
  destruct Hd as [-> ->]. exfalso. by apply Hcr.
Qed.

Lemma split_lines_crlf s :
  split_lines (String CR (String LF s)) = "" :: split_lines s.
Proof. reflexivity. Qed.

Lemma split_lines_lf s : split_lines (String LF s) = "" :: split_lines s.
Proof. reflexivity. Qed.

Lemma starts_with_LF l s :
  LF ∉ chars l → l ≠ "" →
  starts_with (λ d, bool_decide (d = LF)) (l +:+ s) = false.
Proof.
  destruct l as [|d l]; [done|]. intros Hl _. rewrite app_String. simpl in *.
  apply bool_decide_eq_false. intros ->. apply Hl. by left.
Qed.

Lemma split_lines_single l : LF ∉ chars l → split_lines l = [l].
Proof.
  induction l as [|c l IH]; intros Hl; [done|].
  simpl in Hl. apply not_elem_of_cons in Hl as [Hc Hl].
  rewrite split_lines_cons, IH; [done..|].
  intros [_ Hs]. destruct l as [|d l]; [done|]. simpl in *.
  apply bool_decide_eq_true in Hs as ->. apply Hl. by left.
Qed.

Lemma split_lines_app l raw :
  LF ∉ chars l →
  split_lines (l +:+ String LF raw) = strip_cr l :: split_lines raw.
Proof.
  induction l as [|c l IH]; intros Hl; [reflexivity|].
  simpl in Hl. apply not_elem_of_cons in Hl as [Hc Hl].
  rewrite app_String. destruct (decide (l = "")) as [->|Hne].
  - rewrite app_empty_l. simpl strip_cr. case_decide as Hcr.
    + subst c. apply split_lines_crlf.
    + rewrite split_lines_cons, split_lines_lf; [done..|]. by intros [? _].
  - rewrite split_lines_cons, IH; [|done..|].
    + destruct l; done.
    + intros [_ Hs]. by rewrite starts_with_LF in Hs.
Qed.

Lemma strip_cr_spec l : strip_cr l = l ∨ l = strip_cr l +:+ String CR "".
Proof.
  induction l as [|c l IH]; [by left|]. simpl. destruct l as [|d l].
  - case_decide; [right; by subst | by left].
  - destruct IH as [->| IH]; [by left|]. right.
    rewrite app_String. by rewrite <- IH.
Qed.

Lemma trim_strip_cr l : trim (strip_cr l) = trim l.
Proof.
  destruct (strip_cr_spec l) as [->|Hl]; [done|].
  rewrite Hl at 2. by rewrite trim_snoc.
Qed.

Lemma chars_extend c l :
  Forall (λ w, LF ∉ chars w) l → c ≠ LF →
  Forall (λ w, LF ∉ chars w) (extend c l).
Proof.
  intros Hl Hc. destruct l as [|w ws]; simpl.
  - constructor; [|done]. intros ?%list_elem_of_singleton. by subst.
  - inversion Hl; subst. constructor; [|done]. simpl.
    by intros [?|?]%elem_of_cons.
Qed.

Lemma split_lines_no_LF s : Forall (λ w, LF ∉ chars w) (split_lines s).
Proof.
  enough (∀ n s, String.length s ≤ n → Forall (λ w, LF ∉ chars w) (split_lines s))
    by eauto.
  clear s. induction n as [|n IH]; intros s Hn.
  - destruct s; simpl in Hn; [|lia].
    constructor; [apply not_elem_of_nil | done].
  - destruct s as [|c s]; simpl in *.
    + constructor; [apply not_elem_of_nil | done].
    + case_decide as Hc.
      * constructor; [apply not_elem_of_nil | apply IH; lia].
      * destruct s as [|d s].
        -- constructor; [|done]. intros ?%list_elem_of_singleton. by subst.
        -- case_decide.
           ++ constructor; [apply not_elem_of_nil | apply IH; simpl in *; lia].
           ++ apply chars_extend; [apply IH; simpl in *; lia | done].
Qed.

(** *** Lower case *)

Lemma lower_idemp c : lower (lower c) = lower c.
Proof. destruct c as [[] [] [] [] [] [] [] []]; reflexivity. Qed.

Lemma lower_ws c : isWhiteSpace (lower c) = isWhiteSpace c.
Proof. destruct c as [[] [] [] [] [] [] [] []]; reflexivity. Qed.

Lemma toLowerCase_idemp s : toLowerCase (toLowerCase s) = toLowerCase s.
Proof. induction s as [|c s IH]; simpl; [done|]. by rewrite lower_idemp, IH. Qed.

Lemma toLowerCase_length s : String.length (toLowerCase s) = String.length s.
Proof. induction s as [|c s IH]; simpl; [done|]. by rewrite IH. Qed.

Lemma toLowerCase_word w :
  Forall (λ c, isWhiteSpace c = false) (chars w) →
  Forall (λ c, isWhiteSpace c = false) (chars (toLowerCase w)).
Proof.
  induction w as [|c w IH]; simpl; [done|].
  intros [Hc Hw]%Forall_cons. constructor; [by rewrite lower_ws | auto].
Qed.

(** ** The message handler *)

Lemma handle_batch_not_Ignored cfg m commandName :
  handle_batch cfg m commandName ≠ Ignored.
Proof. unfold handle_batch. repeat case_match; done. Qed.

(** X11: the handler answers every message that starts with the prefix
    and comes from the command channel, and ignores every other: the guard
    on the number of arguments is never taken, since [split] returns at
    least one piece. *)
Theorem handle_answers (cfg : config) (m : message) :
  handle cfg m = Ignored ↔
  String.prefix (config_prefix cfg) (content m) = false
  ∨ channel_id m ≠ config_cmdChannelId cfg.
Proof.
  unfold handle.
  destruct (String.prefix (config_prefix cfg) (content m)); simpl;
    [|by split; auto].
  destruct (String.eqb_spec (channel_id m) (config_cmdChannelId cfg)) as [He|He];
    simpl; [|by split; auto].
  split; [|by intros [?|?]].
  unfold args_of, split_spaces.
  pose proof (split_go_not_nil false
                (trim (slice (String.length (config_prefix cfg)) (content m)))).
  destruct (split_go false _) as [|name args]; [done|].
  pose proof (handle_batch_not_Ignored cfg m (toLowerCase name)).
  repeat case_decide; done.
Qed.

(** X12: the arguments of a command are the words of the message after
    the prefix: no argument contains a space, and none is empty, but for
    the single empty argument of a message that is the prefix alone or the
    prefix and white space. *)
Theorem handle_arguments (cfg : config) (m : message) :
  Forall (λ w, SP ∉ chars w) (args_of cfg m) ∧
  (args_of cfg m = [""] ∨ Forall (λ w, w ≠ "") (args_of cfg m)) ∧
  (args_of cfg m = [""] ↔
   trim (slice (String.length (config_prefix cfg)) (content m)) = "").
Proof.
  unfold args_of. split; [apply split_go_no_space|].
  destruct (split_trim_pieces
              (slice (String.length (config_prefix cfg)) (content m)))
    as [[Hs Ht]|[Hs Ht]].
  - split; [by left|]. by split.
  - split; [by right|]. split; [|done]. intros Heq. rewrite Heq in Hs.
    by inversion Hs.
Qed.

(** The handler has passed its two guards. *)
Lemma handle_accepted cfg rest ch atts :
  ch = config_cmdChannelId cfg →
  handle cfg (Message (config_prefix cfg +:+ rest) ch atts)
  = match split_spaces (trim rest) with
    | [] => Ignored
    | name :: args =>
        let m := Message (config_prefix cfg +:+ rest) ch atts in
        let commandName := toLowerCase name in
        if decide (commandName = "add") then ReqAdd (join args)
        else if decide (commandName = "batch")
        then handle_batch cfg m commandName
        else if decide (commandName = "list") then ReqList
        else if decide (commandName = "remove") then ReqRemove (head args)
        else if decide (commandName = "loop")
        then ReqLoop (toLowerCase <$> head args)
        else if decide (commandName = "stop") then ReqStop
        else if decide (commandName = "random") then ReqRandom
        else if decide (commandName = "download")
        then if decide (join args = "")
             then SendError "Please provide a video link to download."
             else ReqDownload (join args)
        else if decide (commandName = "help") then ReqHelp
        else SendError
               "Invalid command. Use the `help` command to see available commands."
    end.
Proof.
  intros ->. unfold handle, args_of. simpl.
  by rewrite prefix_app, String.eqb_refl, slice_app.
Qed.

(** X13: the name of a command may be written in any case: a message
    whose first word is followed by nothing or by a space is handled as the
    message with that word in lower case. *)
Theorem command_name_any_case (cfg : config) (ch : string)
    (atts : list attachment) (w rest : string) :
  ch = config_cmdChannelId cfg →
  w ≠ "" → Forall (λ c, isWhiteSpace c = false) (chars w) →
  rest = "" ∨ starts_with isSpace rest = true →
  handle cfg (Message (config_prefix cfg +:+ w +:+ rest) ch atts)
  = handle cfg (Message (config_prefix cfg +:+ toLowerCase w +:+ rest) ch atts).
Proof.
  intros Hch Hne Hw Hrest.
  destruct (split_word_rest rest Hrest) as [args Hargs].
  assert (Hne' : toLowerCase w ≠ "") by (by destruct w).
  rewrite !handle_accepted by done.
  rewrite (Hargs w), (Hargs (toLowerCase w))
    by auto using toLowerCase_word.
  cbv zeta. rewrite toLowerCase_idemp.
  assert (Hb : handle_batch cfg
                 (Message (config_prefix cfg +:+ w +:+ rest) ch atts)
                 (toLowerCase w)
               = handle_batch cfg
                   (Message (config_prefix cfg +:+ toLowerCase w +:+ rest)
                      ch atts)
                   (toLowerCase w)).
  { unfold handle_batch. simpl. destruct atts; [|done].
    rewrite !slice_add, !slice_app.
    by rewrite toLowerCase_length, slice_app. }
  by rewrite Hb.
Qed.

Lemma command_name_any_case_witness :
  handle example_config (Message ("$" +:+ "STOP" +:+ "") "42" [])
  = handle example_config (Message ("$" +:+ toLowerCase "STOP" +:+ "") "42" []).
Proof.
  apply (command_name_any_case example_config "42" [] "STOP" "");
    [reflexivity | done | | by left].
  repeat constructor.
Defined.

(** *** [add] *)

(** X14: the link that [add] queues is its arguments joined by one
    space each: it has no two adjacent spaces and no space at either end,
    whatever the message. *)
Theorem add_link_squeezed (cfg : config) (m : message) (l : string) :
  handle cfg m = ReqAdd l →
  includes "  " l = false ∧ starts_with isSpace l = false ∧
  (l = "" ∨ ends_with (negb ∘ isSpace) l = true).
Proof.
  unfold handle. intros Hh.
  destruct (String.prefix _ _); simpl in Hh; [|done].
  destruct (String.eqb _ _); simpl in Hh; [|done].
  assert (Hsp : Forall (λ w, SP ∉ chars w) (args_of cfg m))
    by apply split_go_no_space.
  assert (Hne : args_of cfg m = [""]
                ∨ Forall (λ w, w ≠ "") (args_of cfg m)).
  { unfold args_of.
    destruct (split_trim_pieces
                (slice (String.length (config_prefix cfg)) (content m)))
      as [[? _]|[? _]]; auto. }
  destruct (args_of cfg m) as [|name args] eqn:Hargs; [done|].
  assert (Hl : l = join args).
  { pose proof (handle_batch_not_Ignored cfg m (toLowerCase name)).
    unfold handle_batch in *.
    repeat case_decide; repeat case_match; by simplify_eq. }
  subst l. clear Hh.
  assert (Htl : args = tail (args_of cfg m)) by (by rewrite Hargs).
  unfold args_of, split_spaces in Htl.
  destruct (split_go_tail
              (trim (slice (String.length (config_prefix cfg)) (content m))))
    as [Hnil|[s' Hs']].
  - rewrite Hnil in Htl. subst. split_and!; [done..|by left].
  - rewrite Hs' in Htl. subst args.
    destruct (join_split_squeezed s') as (_ & -> & ->). split_and!; [done..|].
    apply join_ends.
    + destruct Hne as [Hne|Hne]; [|by inversion Hne].
      pose proof (split_go_not_nil true s'). by simplify_eq.
    + by inversion Hsp.
Qed.

Lemma add_link_squeezed_witness :
  includes "  " "http://x y" = false ∧
  starts_with isSpace "http://x y" = false ∧
  ("http://x y" = "" ∨ ends_with (negb ∘ isSpace) "http://x y" = true).
Proof.
  apply (add_link_squeezed example_config
           (Message "$add  http://x  y " "42" [])).
  vm_compute. reflexivity.
Defined.

(** X15: when the message is the prefix, [add], one space, and a text
    that is trimmed and has no two adjacent spaces, the link queued is that
    text, character for character. *)
Theorem add_link_exact (cfg : config) (ch : string)
    (atts : list attachment) (rest : string) :
  ch = config_cmdChannelId cfg →
  trim rest = rest → includes "  " rest = false →
  handle cfg (Message (config_prefix cfg +:+ "add " +:+ rest) ch atts)
  = ReqAdd rest.
Proof.
  intros Hch Htrim Hsq. rewrite handle_accepted by done.
  destruct (trim_spec rest) as [He|[Hs He]]; rewrite Htrim in *.
  - subst rest. reflexivity.
  - assert (Hne : rest ≠ "") by (by destruct rest).
    rewrite trim_id; [| done | by rewrite ends_with_app].
    unfold split_spaces.
    change ("add " +:+ rest) with ("add" +:+ String SP rest).
    rewrite split_go_word
      by (apply (bool_decide_unpack _); vm_compute; exact I).
    simpl. rewrite split_go_started by (by apply starts_not_space_ws).
    by rewrite join_split.
Qed.

Lemma add_link_exact_witness :
  handle example_config (Message "$add My Video.mp4" "42" [])
  = ReqAdd "My Video.mp4".
Proof.
  apply (add_link_exact example_config "42" [] "My Video.mp4");
    vm_compute; reflexivity.
Defined.

(** *** [batch] *)

(** X16: [batch] needs a space after its name: when a line break follows
    the name at once and the links follow on the next lines, the first
    word of the message is not [batch], and the handler answers that the
    command is invalid, even with a text attachment. *)
Theorem batch_newline_invalid (cfg : config) (ch : string)
    (atts : list attachment) (rest : string) :
  ch = config_cmdChannelId cfg → trim rest ≠ "" →
  handle cfg (Message (config_prefix cfg +:+ "batch" +:+ String LF rest) ch atts)
  = SendError
      "Invalid command. Use the `help` command to see available commands.".
Proof.
  intros Hch Hrest. rewrite handle_accepted by done.
  assert (Ht : trimEnd rest ≠ "").
  { rewrite trimEnd_blank. by rewrite trim_blank in Hrest. }
  unfold trim. rewrite trimStart_id by reflexivity.
  rewrite trimEnd_word by reflexivity.
  rewrite trimEnd_cons, decide_False by done.
  unfold split_spaces.
  change ("batch" +:+ String LF (trimEnd rest))
    with (("batch" +:+ String LF "") +:+ trimEnd rest).
  rewrite split_go_app by (apply (bool_decide_unpack _); vm_compute; exact I).
  pose proof (split_go_not_nil false (trimEnd rest)).
  destruct (split_go false (trimEnd rest)) as [|w ws]; [done|]. simpl.
  repeat (case_decide; [simplify_eq|]). done.
Qed.

Lemma batch_newline_invalid_witness :
  handle example_config
    (Message ("$batch" +:+ String LF ("http://a" +:+ String LF "http://b"))
       "42" [])
  = SendError
      "Invalid command. Use the `help` command to see available commands.".
Proof.
  apply (batch_newline_invalid example_config "42" []
           ("http://a" +:+ String LF "http://b"));
    [reflexivity | vm_compute; done].
Defined.

(** X17: in a message without attachment whose first word is [batch],
    the text of the links starts five characters after the prefix,
    wherever the word stands.  When [batch] follows the prefix at once,
    that text is what comes after the space; when white space stands
    between the prefix and [batch], it starts inside the word. *)
Theorem batch_text (cfg : config) (ch ws rest : string) :
  ch = config_cmdChannelId cfg →
  forallb isWhiteSpace (chars ws) = true →
  handle cfg (Message (config_prefix cfg +:+ ws +:+ "batch " +:+ rest) ch [])
  = ReqBatch (trim (slice 5 (ws +:+ "batch " +:+ rest))) ∧
  (ws = "" →
   handle cfg (Message (config_prefix cfg +:+ "batch " +:+ rest) ch [])
   = ReqBatch (trim rest)).
Proof.
  intros Hch Hws.
  assert (Hh : handle cfg
                 (Message (config_prefix cfg +:+ ws +:+ "batch " +:+ rest) ch [])
               = ReqBatch (trim (slice 5 (ws +:+ "batch " +:+ rest)))).
  { rewrite handle_accepted by done.
    unfold trim at 1. rewrite trimStart_app_ws by done.
    rewrite trimStart_id by reflexivity.
    change ("batch " +:+ rest) with ("batch" +:+ String SP rest).
    rewrite trimEnd_word by reflexivity.
    assert (Hname : ∃ args, split_spaces ("batch" +:+ trimEnd (String SP rest))
                            = "batch" :: args).
    { rewrite trimEnd_cons. change (isWhiteSpace SP) with true. cbv iota.
      case_decide.
      - exists []. reflexivity.
      - eexists. unfold split_spaces. rewrite split_go_word; [done|].
        apply (bool_decide_unpack _). vm_compute. exact I. }
    destruct Hname as [args ->]. cbv zeta.
    change (toLowerCase "batch") with "batch".
    rewrite decide_False by done. rewrite decide_True by done.
    unfold handle_batch. simpl attachments. cbv iota. simpl content.
    by rewrite slice_add, slice_app. }
  split; [done|]. intros ->. by rewrite app_empty_l in Hh.
Qed.

Lemma batch_text_witness :
  handle example_config
    (Message ("$" +:+ " " +:+ "batch " +:+ "http://a") "42" [])
  = ReqBatch (trim (slice 5 (" " +:+ "batch " +:+ "http://a"))).
Proof.
  apply (batch_text example_config "42" " " "http://a"); reflexivity.
Defined.

(** X18: when a message has attachments, [batch] does not read the links
    written in the message: with no text attachment among them, it answers
    with an error and queues nothing, whatever the message says. *)
Theorem batch_ignores_text_with_attachments (cfg : config) (ch rest : string)
    (atts : list attachment) :
  ch = config_cmdChannelId cfg → atts ≠ [] →
  Forall (λ att, text_attachment att = false) atts →
  handle cfg (Message (config_prefix cfg +:+ "batch " +:+ rest) ch atts)
  = SendError "No valid text attachment found.".
Proof.
  intros Hch Hne Hatts. rewrite handle_accepted by done.
  change ("batch " +:+ rest) with ("batch" +:+ String SP rest).
  unfold trim at 1. rewrite trimStart_id by reflexivity.
  rewrite trimEnd_word by reflexivity.
  assert (Hname : ∃ args, split_spaces ("batch" +:+ trimEnd (String SP rest))
                          = "batch" :: args).
  { rewrite trimEnd_cons. change (isWhiteSpace SP) with true. cbv iota.
    case_decide.
    - exists []. reflexivity.
    - eexists. unfold split_spaces. rewrite split_go_word; [done|].
      apply (bool_decide_unpack _). vm_compute. exact I. }
  destruct Hname as [args ->]. cbv zeta.
  change (toLowerCase "batch") with "batch".
  rewrite decide_False by done. rewrite decide_True by done.
  unfold handle_batch. simpl attachments.
  rewrite find_none by done. by destruct atts.
Qed.

Lemma batch_ignores_text_with_attachments_witness :
  handle example_config batch_with_picture
  = SendError "No valid text attachment found.".
Proof.
  apply (batch_ignores_text_with_attachments example_config "42" "http://a"
           [Attachment "cat.png" "image/png" "http://cdn/cat.png"]);
    [reflexivity | done |].
  repeat constructor.
Defined.

(** X19: the links of a batch are the lines of its text that are not
    blank, each trimmed: a line break is LF or CR LF; a text of one line
    gives one link or none; the links of a text are those of its first
    line followed by those of the rest; and no link is empty, has white
    space at an end, or contains a line break. *)
Theorem batch_links_lines (l raw : string) :
  (LF ∉ chars l →
   batch_links l = (if decide (trim l = "") then [] else [trim l]) ∧
   batch_links (l +:+ String LF raw) = batch_links l ++ batch_links raw) ∧
  Forall (λ link, link ≠ "" ∧ trim link = link ∧ LF ∉ chars link)
    (batch_links raw).
Proof.
  split.
  - intros Hl.
    assert (H1 : batch_links l = if decide (trim l = "") then [] else [trim l]).
    { unfold batch_links. rewrite split_lines_single by done. simpl.
      rewrite filter_cons, filter_nil. by repeat case_decide. }
    split; [done|]. rewrite H1. unfold batch_links.
    rewrite split_lines_app by done. rewrite fmap_cons, filter_cons.
    rewrite trim_strip_cr. by repeat case_decide.
  - unfold batch_links. apply Forall_forall. intros link.
    rewrite list_elem_of_filter, list_elem_of_fmap.
    intros (Hne & piece & -> & Hin). split_and!; [done | apply trim_idemp |].
    intros Hc%chars_trim.
    pose proof (split_lines_no_LF raw) as Hall.
    rewrite Forall_forall in Hall. by apply (Hall piece).
Qed.

Lemma batch_links_lines_witness :
  batch_links "  http://a  "
  = (if decide (trim "  http://a  " = "") then [] else [trim "  http://a  "]) ∧
  batch_links ("  http://a  " +:+ String LF "b.mp4")
  = batch_links "  http://a  " ++ batch_links "b.mp4".
Proof.
  apply (batch_links_lines "  http://a  " "b.mp4").
  apply (bool_decide_unpack _). vm_compute. exact I.
Defined.

Lemma batch_links_nonempty raw : Forall (λ link, link ≠ "") (batch_links raw).
Proof.
  unfold batch_links. apply Forall_forall. intros link.
  by intros [? _]%list_elem_of_filter.
Qed.

Lemma filter_zip_links (us links : list string) :
  Forall (λ link, link ≠ "") links →
  filter (λ it : string * string, it.2 ≠ "") (zip us links) = zip us links.
Proof.
  intros Hl. revert us. induction Hl as [|l links Hl _ IH]; intros us.
  - by destruct us.
  - destruct us as [|u us]; [done|]. simpl.
    rewrite filter_cons. simpl. rewrite decide_True by done. by rewrite IH.
Qed.

Lemma fmap_zip_Item (us links : list string) :
  (λ it : string * string, Item it.1 it.2) <$> zip us links
  = zip_with Item us links.
Proof.
  revert links. induction us as [|u us IH]; intros [|l links]; simpl; try done.
  by rewrite IH.
Qed.

(** X20: [batch] queues one item for each line of its text that is not
    blank, in the order of the lines: the items are appended to both
    queues, each with the trimmed line as its link and the uid drawn for
    it, and the answer counts them.  When no line is left the handler
    answers with an error and queues nothing. *)
Theorem batch_enqueues (rawText : string) (draw : nat → string) (s : state) :
  let links := batch_links rawText in
  let uids := draw <$> seq 0 (length links) in
  ∃ c, command_of (ReqBatch rawText) draw = Some c ∧
    (links = [] →
     exec c s
     = emit
         (EvError
            "No links found. Please provide multiple links separated by newlines.")
         s) ∧
    (links ≠ [] →
     videoQueue (exec c s)
     = videoQueue s ++ seq (length (heap s)) (length links) ∧
     originalQueue (exec c s)
     = originalQueue s ++ seq (length (heap s)) (length links) ∧
     heap (exec c s) = heap s ++ zip_with Item uids links ∧
     log (exec c s) = log s ++ [EvBatchAdded (length links)] ∧
     tasks (exec c s) = tasks s ++ [AddReply]).
Proof.
  intros links uids. eexists. split; [reflexivity|].
  fold links. fold uids. simpl. unfold cmd_batch.
  rewrite filter_zip_links by apply batch_links_nonempty.
  assert (Hlen : length (zip uids links) = length links).
  { rewrite length_zip. unfold uids. rewrite length_fmap, length_seq. lia. }
  split.
  - intros Hl. rewrite Hl in *. by destruct uids.
  - intros Hl.
    assert (Hb : ∀ items, items ≠ [] →
              match items with
              | [] =>
      emit
        (EvError
           "No links found. Please provide multiple links separated by newlines.")
        s
              | _ :: _ =>
                  spawn AddReply
                    (emit (EvBatchAdded (length items)) (enqueue_all items s))
              end
              = spawn AddReply
                  (emit (EvBatchAdded (length items)) (enqueue_all items s)))
      by (by intros []).
    rewrite Hb by (intros Hz; rewrite Hz in Hlen; by destruct links).
    unfold spawn. simpl.
    destruct (enqueue_all_frame (zip uids links) s) as (_ & _ & _ & -> & ->).
    destruct (enqueue_all_spec (zip uids links) s) as (-> & -> & ->).
    by rewrite Hlen, fmap_zip_Item.
Qed.

(** ** The uids *)

Lemma pretty_N_char_digit x : isDigit (pretty_N_char x) = true.
Proof. unfold pretty_N_char. repeat case_match; reflexivity. Qed.

Lemma div10_bounds (n lo hi : N) :
  (10 * lo ≤ n < 10 * hi)%N → (lo ≤ N.div n 10 < hi)%N.
Proof.
  intros Hn. split.
  - apply N.div_le_lower_bound; lia.
  - apply N.Div0.div_lt_upper_bound; lia.
Qed.

Lemma pretty_five_digits (n : N) :
  (10000 ≤ n < 100000)%N →
  ∃ c1 c2 c3 c4 c5,
    pretty n = String c1 (String c2 (String c3 (String c4 (String c5 "")))) ∧
    Forall (λ c, isDigit c = true) [c1; c2; c3; c4; c5].
Proof.
  intros Hn. unfold pretty, pretty_N. rewrite decide_False by lia.
  pose proof (div10_bounds n 1000 10000 ltac:(lia)) as H1.
  pose proof (div10_bounds _ 100 1000 H1) as H2.
  pose proof (div10_bounds _ 10 100 H2) as H3.
  pose proof (div10_bounds _ 1 10 H3) as H4.
  rewrite !pretty_N_go_step by lia.
  rewrite (N.div_small (N.div (N.div (N.div (N.div n 10) 10) 10) 10)) by lia.
  rewrite pretty_N_go_0.
  do 5 eexists. split; [reflexivity|].
  repeat constructor; apply pretty_N_char_digit.
Qed.

Lemma charAt_letters i :
  i < String.length letters →
  ∃ c, charAt i letters = String c "" ∧ isUpper c = true.
Proof.
  intros Hi. unfold letters in *. simpl in Hi.
  do 26 (destruct i as [|i]; [eexists; split; reflexivity|]). lia.
Qed.

(** The shape of a uid. *)
Lemma generateUID_chars num pick :
  (10000 ≤ num < 100000)%N →
  (∀ i, i < 3 → pick i < String.length letters) →
  ∃ ds ls, chars (generateUID num pick) = ds ++ ls ∧
           length ds = 5 ∧ Forall (λ c, isDigit c = true) ds ∧
           length ls = 3 ∧ Forall (λ c, isUpper c = true) ls.
Proof.
  intros Hn Hp. unfold generateUID.
  destruct (pretty_five_digits num Hn) as (c1 & c2 & c3 & c4 & c5 & -> & Hd).
  destruct (charAt_letters (pick 0)) as (l0 & H0 & Hu0); [apply Hp; lia|].
  destruct (charAt_letters (pick 1)) as (l1 & H1 & Hu1); [apply Hp; lia|].
  destruct (charAt_letters (pick 2)) as (l2 & H2 & Hu2); [apply Hp; lia|].
  simpl. rewrite H0, H1, H2.
  exists [c1; c2; c3; c4; c5], [l0; l1; l2].
  split_and!; [reflexivity | done | done | done |]. by repeat constructor.
Qed.

(** X21: a uid has eight characters, five digits followed by three
    capital letters, when the numbers drawn are in the ranges that
    [Math.random] gives them. *)
Theorem generateUID_format (num : N) (pick : nat → nat) :
  (10000 ≤ num < 100000)%N →
  (∀ i, i < 3 → pick i < String.length letters) →
  String.length (generateUID num pick) = 8 ∧
  ∃ ds ls, chars (generateUID num pick) = ds ++ ls ∧
           length ds = 5 ∧ Forall (λ c, isDigit c = true) ds ∧
           length ls = 3 ∧ Forall (λ c, isUpper c = true) ls.
Proof.
  intros Hn Hp.
  destruct (generateUID_chars num pick Hn Hp) as (ds & ls & Hc & Hd & ? & Hl & ?).
  split; [|eauto 10].
  assert (Hlen : ∀ s, String.length s = length (chars s)).
  { induction s; simpl; auto. }
  rewrite Hlen, Hc, length_app. lia.
Qed.

Lemma generateUID_format_witness :
  String.length (generateUID 12345 (λ i, 12 * i)) = 8.
Proof.
  apply (generateUID_format 12345 (λ i, 12 * i)); [lia|].
  intros i Hi. simpl. lia.
Defined.

Lemma isDigit_word c : isDigit c = true → c ≠ SP ∧ isWhiteSpace c = false.
Proof. destruct c as [[] [] [] [] [] [] [] []]; by vm_compute. Qed.

Lemma isUpper_word c :
  isUpper c = true → c ≠ SP ∧ isWhiteSpace c = false ∧ lower c ≠ c.
Proof. destruct c as [[] [] [] [] [] [] [] []]; by vm_compute. Qed.

(** An argument of one word reaches [remove] as it is written. *)
Lemma handle_remove_word cfg ch atts u :
  ch = config_cmdChannelId cfg →
  u ≠ "" → Forall (λ c, isWhiteSpace c = false) (chars u) →
  handle cfg (Message (config_prefix cfg +:+ "remove " +:+ u) ch atts)
  = ReqRemove (Some u).
Proof.
  intros Hch Hu Hw. destruct (word_edges u Hu Hw) as (Hs & He & Hsp).
  rewrite handle_accepted by done.
  rewrite trim_id; [| done | by rewrite ends_with_app].
  unfold split_spaces.
  change ("remove " +:+ u) with ("remove" +:+ String SP u).
  rewrite split_go_word
    by (apply (bool_decide_unpack _); vm_compute; exact I).
  rewrite split_go_started by (by apply starts_not_space_ws).
  by rewrite split_go_single.
Qed.

(** X22: the uid that [add] answers with can be given to [remove] as it
    is: a message made of the prefix, [remove], a space and a uid of
    [generateUID] reaches [cmd_remove] with that uid. *)
Theorem remove_generated_uid (cfg : config) (ch : string)
    (atts : list attachment) (num : N) (pick : nat → nat)
    (next : nat → string) :
  ch = config_cmdChannelId cfg →
  (10000 ≤ num < 100000)%N →
  (∀ i, i < 3 → pick i < String.length letters) →
  let u := generateUID num pick in
  let m := Message (config_prefix cfg +:+ "remove " +:+ u) ch atts in
  handle cfg m = ReqRemove (Some u) ∧
  command_of (handle cfg m) next = Some (Remove u).
Proof.
  intros Hch Hn Hp u m.
  destruct (generateUID_chars num pick Hn Hp)
    as (ds & ls & Hc & Hd & Hds & Hl & Hls).
  assert (Hh : handle cfg m = ReqRemove (Some u)).
  { apply handle_remove_word; [done| |].
    - intros Hu. fold u in Hc. rewrite Hu in Hc. by destruct ds.
    - fold u in Hc. rewrite Hc. apply Forall_app. split.
      + eapply Forall_impl; [exact Hds|]. intros c Hcd.
        by apply isDigit_word.
      + eapply Forall_impl; [exact Hls|]. intros c Hcu.
        by apply isUpper_word. }
  split; [done|]. by rewrite Hh.
Qed.

Lemma remove_generated_uid_witness :
  handle example_config (Message ("$" +:+ "remove " +:+ generateUID 12345 (λ i, 12 * i)) "42" [])
  = ReqRemove (Some (generateUID 12345 (λ i, 12 * i))).
Proof.
  apply (remove_generated_uid example_config "42" [] 12345 (λ i, 12 * i)
           (λ _, "")); [reflexivity | lia |].
  intros i Hi. simpl. lia.
Defined.

(** ** The list and the removal *)

Lemma listing_uids s : (listing s).*1 = uids (heap s) (videoQueue s).
Proof. unfold listing, uids. rewrite <- list_fmap_compose. done. Qed.

(** X23: what [list] shows is what [remove] can take out: in a reachable
    state, [remove] with a uid that [list] shows takes the first entry
    with that uid out of the list and answers with its link, and [remove]
    with any other uid finds nothing. *)
Theorem listed_is_removable (s : state) (u : string) :
  reachable s → u ≠ "" →
  (u ∈ (listing s).*1 →
   ∃ l before after,
     listing s = before ++ (u, l) :: after ∧ (u ∉ before.*1) ∧
     log (cmd_remove u s) = log s ++ [EvRemoved u l] ∧
     listing (cmd_remove u s) = before ++ after) ∧
  (u ∉ (listing s).*1 → cmd_remove u s = emit (EvNotFound u) s).
Proof.
  intros Hr Hu. rewrite listing_uids. split.
  - intros Hin.
    destruct (reachable_queue_pair s Hr) as (Hsub & _ & _).
    assert (Hino : u ∈ uids (heap s) (originalQueue s)).
    { eapply elem_of_sublist; [exact Hin|]. unfold uids. by apply fmap_sublist. }
    apply findIndex_is_Some in Hin as [i Hi].
    apply findIndex_is_Some in Hino as [j Hj].
    unfold cmd_remove. rewrite decide_False by done. rewrite Hi, Hj.
    apply findIndex_split in Hi as (a & l1 & l2 & Hv & Hia & Hua & Hl1 & Hdv).
    exists (link_of (heap s) a),
      ((λ a, (uid_of (heap s) a, link_of (heap s) a)) <$> l1),
      ((λ a, (uid_of (heap s) a, link_of (heap s) a)) <$> l2).
    cbv beta iota zeta. rewrite Hia, Hdv. simpl. rewrite Hua.
    unfold listing. simpl. rewrite Hv, !fmap_app, fmap_cons, Hua.
    split_and!; auto.
    rewrite <- list_fmap_compose. exact Hl1.
  - intros Hnot. apply cmd_remove_absent; auto.
Qed.

Lemma listed_is_removable_witness :
  cmd_remove "99999ZZZ" two_items = emit (EvNotFound "99999ZZZ") two_items.
Proof.
  apply (listed_is_removable two_items "99999ZZZ").
  - exists [Cmd (Add "11111AAA" "local.mp4");
            Cmd (Add "22222BBB" "http://x/video")].
    vm_compute. reflexivity.
  - done.
  - apply (bool_decide_unpack _). vm_compute. exact I.
Defined.

(** ** Names of the files downloaded *)

Lemma sanitize_chars title :
  Forall (λ c, isWordChar c || isWhiteSpace c = true) (chars (sanitize title)).
Proof.
  induction title as [|c s IH]; simpl; [done|].
  destruct (isWordChar c || isWhiteSpace c) eqn:Hc; [|done].
  simpl. by constructor.
Qed.

Lemma pretty_N_go_digits x s :
  Forall (λ c, isDigit c = true) (chars s) →
  Forall (λ c, isDigit c = true) (chars (pretty_N_go x s)).
Proof.
  revert s. induction (N.lt_wf_0 x) as [x _ IH]; intros s Hs.
  destruct (decide (0 < x)%N) as [Hx|Hx].
  - rewrite pretty_N_go_step by done. apply IH.
    + apply N.div_lt; lia.
    + simpl. constructor; [apply pretty_N_char_digit | done].
  - assert (x = 0%N) as -> by lia. by rewrite pretty_N_go_0.
Qed.

Lemma pretty_N_digits (x : N) :
  Forall (λ c, isDigit c = true) (chars (pretty x)).
Proof.
  unfold pretty, pretty_N. case_decide.
  - by repeat constructor.
  - by apply pretty_N_go_digits.
Qed.

(** X24: the name of the file a video is downloaded to holds no path
    separator, whatever the title of the video: its characters are letters,
    digits, underscores and white space, and one dot, that of the
    extension. *)
Theorem download_fileName_safe (title : string) (now : N) :
  let name := download_fileName title now in
  Forall (λ c, isWordChar c || isWhiteSpace c = true ∨ c = dot) (chars name) ∧
  (slash ∉ chars name) ∧ (backslash ∉ chars name) ∧
  filter (λ c, c = dot) (chars name) = [dot] ∧
  endsWith ".mp4" name = true.
Proof.
  intros name.
  assert (Hsafe : ∀ s, Forall (λ c, isWordChar c || isWhiteSpace c = true) (chars s) →
            (slash ∉ chars s) ∧ (backslash ∉ chars s) ∧
            filter (λ c, c = dot) (chars s) = []).
  { intros s Hs. induction Hs as [|c l Hc _ (IH1 & IH2 & IH3)].
    - split_and!; [apply not_elem_of_nil..|done].
    - assert (c ≠ slash ∧ c ≠ backslash ∧ c ≠ dot) as (? & ? & ?).
      { revert Hc. clear. destruct c as [[] [] [] [] [] [] [] []]; by vm_compute. }
      split_and!.
      + by intros [?|?]%elem_of_cons.
      + by intros [?|?]%elem_of_cons.
      + rewrite filter_cons. by rewrite decide_False. }
  assert (Hdigits : Forall (λ c, isWordChar c || isWhiteSpace c = true)
                      (chars (pretty now))).
  { eapply Forall_impl; [apply pretty_N_digits|]. clear.
    intros c. destruct c as [[] [] [] [] [] [] [] []]; by vm_compute. }
  destruct (Hsafe _ (sanitize_chars title)) as (Ht1 & Ht2 & Ht3).
  destruct (Hsafe _ Hdigits) as (Hn1 & Hn2 & Hn3).
  unfold name, download_fileName. rewrite !chars_app.
  split_and!.
  - rewrite !Forall_app. split_and!.
    + eapply Forall_impl; [apply sanitize_chars|]. intros c Hc. by left.
    + repeat constructor.
    + eapply Forall_impl; [apply Hdigits|]. intros c Hc. by left.
    + repeat constructor; by vm_compute; (by left) || (by right).
  - rewrite !elem_of_app. intros [?|[Hin|[?|Hin]]]; try done;
      revert Hin; apply (bool_decide_unpack _); vm_compute; exact I.
  - rewrite !elem_of_app. intros [?|[Hin|[?|Hin]]]; try done;
      revert Hin; apply (bool_decide_unpack _); vm_compute; exact I.
  - rewrite !filter_app, Ht3, Hn3. reflexivity.
  - change ("_" +:+ pretty now +:+ ".mp4") with (("_" +:+ pretty now) +:+ ".mp4").
    rewrite <- !app_assoc_string. apply endsWith_app.
Qed.
